(** * MM-IM remediator: the detection-and-rewrite engine of [app/main.py]

    A shallow embedding of [remediate_code] and of what it calls
    ([TABLE_MAP], [TABLE_NAMES], [TABLE_RE], [snippet_at], [_add_hit]),
    of the handler [remediate_mm_im] that calls it, and of the nested
    function [replacer] of [add_order_by_to_selects], followed by the
    properties of the engine.

    Modelling conventions.
    - A Python [str] is a list of characters, [str := list ascii]; offsets
      are [nat].  The model covers texts over the ASCII range, where
      [str.upper], the classes [\s] and [\w] and the flag [re.IGNORECASE]
      are the functions [upper], [is_space], [is_word] and [chr_eq] below.
    - The two regular expressions of the source are values of a small
      regular-expression type, run by a backtracking matcher that tries
      alternatives from left to right and repetitions greedily, as the
      [re] module does.
    - [datetime.today()] reads the clock: the reading is the explicit
      argument [now] of [remediate_code].
    - A dictionary is an association list in insertion order; [d[k]] can
      raise [KeyError], so the engine runs in an error monad. *)

From Stdlib Require Import Ascii String List Arith Bool ZArith Lia Sorted.
Import ListNotations.

Set Implicit Arguments.

(** ** Characters and strings *)

Definition str := list ascii.

(** A literal of the source. *)
Definition L (s : string) : str := list_ascii_of_string s.

Definition code (c : ascii) : nat := nat_of_ascii c.

Definition between (lo hi : nat) (c : ascii) : bool :=
  (lo <=? code c) && (code c <=? hi).

Definition is_upper_letter : ascii -> bool := between 65 90.
Definition is_lower_letter : ascii -> bool := between 97 122.
Definition is_digit : ascii -> bool := between 48 57.

(** [\w] on ASCII: letters, digits and the underscore. *)
Definition is_word (c : ascii) : bool :=
  is_upper_letter c || is_lower_letter c || is_digit c || (code c =? 95).

(** [\s] on ASCII for a [str] pattern: [\t\n\v\f\r], the separators
    0x1c..0x1f and the space. *)
Definition is_space (c : ascii) : bool :=
  between 9 13 c || between 28 32 c.

Definition upper_char (c : ascii) : ascii :=
  if is_lower_letter c then ascii_of_nat (code c - 32) else c.

Definition lower_char (c : ascii) : ascii :=
  if is_upper_letter c then ascii_of_nat (code c + 32) else c.

(** [s.upper()] *)
Definition upper (s : str) : str := map upper_char s.

Definition newline : ascii := ascii_of_nat 10.
Definition dquote : ascii := ascii_of_nat 34.

Definition ascii_eqb (a b : ascii) : bool := Ascii.eqb a b.

Fixpoint str_eqb (a b : str) : bool :=
  match a, b with
  | [], [] => true
  | x :: a', y :: b' => ascii_eqb x y && str_eqb a' b'
  | _, _ => false
  end.

(** [s[lo:hi]] for offsets [lo], [hi] that are not negative; a slice
    never raises, it is clipped to the text. *)
Definition slice (s : str) (lo hi : nat) : str := firstn (hi - lo) (skipn lo s).

(** [s[lo:]] *)
Definition slice_from (s : str) (lo : nat) : str := skipn lo s.

(** [s.find("\n", lo)]: the least offset [>= lo] of a newline, or [-1]. *)
Fixpoint find_from (s : str) (pos : nat) : Z :=
  match s with
  | [] => (-1)%Z
  | c :: s' => if ascii_eqb c newline then Z.of_nat pos else find_from s' (S pos)
  end.

Definition find_nl (s : str) (lo : nat) : Z := find_from (skipn lo s) lo.

(** [s.rfind("\n", 0, hi)]: the greatest offset [< hi] of a newline, or [-1]. *)
Fixpoint rfind_upto (s : str) (pos : nat) (last : Z) : Z :=
  match s with
  | [] => last
  | c :: s' => rfind_upto s' (S pos) (if ascii_eqb c newline then Z.of_nat pos else last)
  end.

Definition rfind_nl (s : str) (hi : nat) : Z := rfind_upto (firstn hi s) 0 (-1)%Z.

(** ** Dictionaries *)

Section Dict.
Variable V : Type.

Definition dict := list (str * V).

(** [d.get(k)] *)
Fixpoint dict_get (d : dict) (k : str) : option V :=
  match d with
  | [] => None
  | (k', v) :: d' => if str_eqb k' k then Some v else dict_get d' k
  end.

(** [d[k] = v]: an existing key keeps its place, a new one goes last. *)
Fixpoint dict_set (d : dict) (k : str) (v : V) : dict :=
  match d with
  | [] => [(k, v)]
  | (k', v') :: d' => if str_eqb k' k then (k', v) :: d' else (k', v') :: dict_set d' k v
  end.

(** [{**a, **b}] *)
Definition dict_merge (a b : dict) : dict :=
  fold_left (fun d kv => dict_set d (fst kv) (snd kv)) b a.

Definition dict_keys (d : dict) : list str := map fst d.
End Dict.

(** ** Reference mappings *)

(** The value of a table: [{"new": ..., "note": ...}].  A note is kept
    as the bytes of its UTF-8 literal; the engine only tests it for
    emptiness and copies it. *)
Definition info := dict str.

Definition entry (name new note : string) : str * info :=
  (L name, [(L "new", L new); (L "note", L note)]).

Definition CORE_DOC_MAP : dict info :=
  [ entry "MKPF" "MATDOC" "Header data no longer stored separately. Still exists as DDIC object, but only read via CDS view NSDM_DDL_MKPF.";
    entry "MSEG" "MATDOC" "Item + header + attributes merged. Proxy CDS: NSDM_DDL_MSEG." ].

Definition HYBRID_MAP : dict info :=
  [ entry "MARC" "NSDM_V_MARC" "Plant Data for Material now redirected to CDS views.";
    entry "MARD" "NSDM_V_MARD" "Storage location data no longer persisted.";
    entry "MCHB" "NSDM_V_MCHB" "Batch stock quantities derived from MATDOC.";
    entry "MKOL" "NSDM_V_MKOL" "Special stocks from vendor redirected.";
    entry "MSLB" "NSDM_V_MSLB" "Special stocks with vendor derived from MATDOC.";
    entry "MSKA" "NSDM_V_MSKA" "Sales order stock redirected.";
    entry "MSPR" "NSDM_V_MSPR" "Project stock aggregated on the fly.";
    entry "MSKU" "NSDM_V_MSKU" "Special stocks with customer from MATDOC." ].

Definition AGGR_MAP : dict info :=
  [ entry "MSSA" "NSDM_V_MSSA" "Customer order totals replaced by CDS view.";
    entry "MSSL" "NSDM_V_MSSL" "Special stocks with vendor totals replaced by CDS view.";
    entry "MSSQ" "NSDM_V_MSSQ" "Project stock totals replaced by CDS view.";
    entry "MSTB" "NSDM_V_MSTB" "Stock in transit replaced by CDS view.";
    entry "MSTE" "NSDM_V_MSTE" "Stock in transit (SD Doc) replaced by CDS view.";
    entry "MSTQ" "NSDM_V_MSTQ" "Stock in transit for project replaced by CDS view." ].

Definition DIMP_MAP : dict info :=
  [ entry "MCSD" "NSDM_V_MCSD" "Customer Stock split: stock → MATDOC, master → MCSD_MD.";
    entry "MCSS" "NSDM_V_MCSS" "Customer Stock Total split: stock → MATDOC, master → MCSS_MD.";
    entry "MSCD" "NSDM_V_MSCD" "Customer Stock with Vendor split into MATDOC + MSCD_MD.";
    entry "MSCS" "NSDM_V_MSCS" "Cust. Stock with Vendor Total split into MATDOC + MSCS_MD.";
    entry "MSFD" "NSDM_V_MSFD" "Sales Order Stock with Vendor split into MATDOC + MSFD_MD.";
    entry "MSFS" "NSDM_V_MSFS" "Sales Order Stock with Vendor Total split into MATDOC + MSFS_MD.";
    entry "MSID" "NSDM_V_MSID" "Vendor Stock split into MATDOC + MSID_MD.";
    entry "MSIS" "NSDM_V_MSIS" "Vendor Stock Total split into MATDOC + MSIS_MD.";
    entry "MSRD" "NSDM_V_MSRD" "Project Stock with Vendor split into MATDOC + MSRD_MD.";
    entry "MSRS" "NSDM_V_MSRS" "Project Stock with Vendor Total split into MATDOC + MSRS_MD." ].

Definition HISTORY_MAP : dict info :=
  [ entry "MARCH" "NSDM_V_MARCH" "MARC History redirected to CDS.";
    entry "MARDH" "NSDM_V_MARDH" "MARD History redirected to CDS.";
    entry "MCHBH" "NSDM_V_MCHBH" "MCHB History redirected to CDS.";
    entry "MKOLH" "NSDM_V_MKOLH" "MKOL History redirected to CDS.";
    entry "MSLBH" "NSDM_V_MSLBH" "MSLB History redirected to CDS.";
    entry "MSKAH" "NSDM_V_MSKAH" "MSKA History redirected to CDS.";
    entry "MSSAH" "NSDM_V_MSSAH" "MSSA History redirected to CDS.";
    entry "MSPRH" "NSDM_V_MSPRH" "MSPR History redirected to CDS.";
    entry "MSSQH" "NSDM_V_MSSQH" "MSSQ History redirected to CDS.";
    entry "MSKUH" "NSDM_V_MSKUH" "MSKU History redirected to CDS.";
    entry "MSTBH" "NSDM_V_MSTBH" "MSTB History redirected to CDS.";
    entry "MSTEH" "NSDM_V_MSTEH" "MSTE History redirected to CDS.";
    entry "MSTQH" "NSDM_V_MSTQH" "MSTQ History redirected to CDS.";
    entry "MCSDH" "NSDM_V_MCSDH" "MCSD History redirected to CDS.";
    entry "MCSSH" "NSDM_V_MCSSH" "MCSS History redirected to CDS.";
    entry "MSCDH" "NSDM_V_MSCDH" "MSCD History redirected to CDS.";
    entry "MSFDH" "NSDM_V_MSFDH" "MSFD History redirected to CDS.";
    entry "MSIDH" "NSDM_V_MSIDH" "MSID History redirected to CDS.";
    entry "MSRDH" "NSDM_V_MSRDH" "MSRD History redirected to CDS." ].

(** [{**CORE_DOC_MAP, **HYBRID_MAP, **AGGR_MAP, **DIMP_MAP, **HISTORY_MAP}] *)
Definition TABLE_MAP : dict info :=
  dict_merge (dict_merge (dict_merge (dict_merge (dict_merge [] CORE_DOC_MAP)
    HYBRID_MAP) AGGR_MAP) DIMP_MAP) HISTORY_MAP.

(** [sorted(xs, key=len, reverse=True)]: a stable sort, so names of one
    length keep the order of the dictionary. *)
Fixpoint insert_by_len (x : str) (l : list str) : list str :=
  match l with
  | [] => [x]
  | y :: l' => if length y <=? length x then x :: l else y :: insert_by_len x l'
  end.

Definition sorted_by_len_desc (l : list str) : list str :=
  fold_right insert_by_len [] l.

Definition TABLE_NAMES : list str := sorted_by_len_desc (dict_keys TABLE_MAP).

(** ** Regular expressions *)

(** The constructs the two patterns of the source use: literal
    characters, the class [\s], the assertion [\b], sequence,
    alternation and the greedy repetition of a class. *)
Inductive regex : Type :=
| Fail                          (* the empty alternation *)
| Eps                           (* the empty pattern *)
| Chr (c : ascii)               (* a literal character *)
| Cls (p : ascii -> bool)       (* a character class *)
| Bnd                           (* \b *)
| Seq (r1 r2 : regex)
| Alt (r1 r2 : regex)           (* r1|r2 *)
| Star (p : ascii -> bool).     (* p*, greedy *)

(** A literal string, as [re.escape] makes it. *)
Definition Lit (s : str) : regex := fold_right (fun c r => Seq (Chr c) r) Eps s.

(** [p+] *)
Definition Plus (p : ascii -> bool) : regex := Seq (Cls p) (Star p).

(** ['|'.join(...)] *)
Definition Alts (rs : list regex) : regex := fold_right Alt Fail rs.

Section Matcher.
(** [re.IGNORECASE], and the text that is searched. *)
Variable ignorecase : bool.
Variable txt : str.

Definition chr_eq (c d : ascii) : bool :=
  if ignorecase then ascii_eqb (lower_char c) (lower_char d) else ascii_eqb c d.

Definition word_at (i : nat) : bool :=
  match nth_error txt i with
  | Some c => is_word c
  | None => false
  end.

(** [\b] holds at [pos] when exactly one of the characters before and
    at [pos] is a word character; outside the text there is none. *)
Definition at_boundary (pos : nat) : bool :=
  xorb (match pos with 0 => false | S p => word_at p end) (word_at pos).

(** Greedy [p*]: take as many characters as the class allows, then give
    them back one at a time until the rest of the pattern matches. *)
Fixpoint star_from (p : ascii -> bool) (fuel pos : nat)
         (k : nat -> option nat) : option nat :=
  match fuel with
  | 0 => k pos
  | S fuel' =>
      match nth_error txt pos with
      | Some d =>
          if p d then
            match star_from p fuel' (S pos) k with
            | Some e => Some e
            | None => k pos
            end
          else k pos
      | None => k pos
      end
  end.

(** The backtracking matcher: [rmatch r pos k] matches [r] at offset
    [pos] and hands the offset it reached to the rest of the pattern
    [k]; the first success is the result. *)
Fixpoint rmatch (r : regex) (pos : nat) (k : nat -> option nat) : option nat :=
  match r with
  | Fail => None
  | Eps => k pos
  | Chr c =>
      match nth_error txt pos with
      | Some d => if chr_eq c d then k (S pos) else None
      | None => None
      end
  | Cls p =>
      match nth_error txt pos with
      | Some d => if p d then k (S pos) else None
      | None => None
      end
  | Bnd => if at_boundary pos then k pos else None
  | Seq r1 r2 => rmatch r1 pos (fun mid => rmatch r2 mid k)
  | Alt r1 r2 =>
      match rmatch r1 pos k with
      | Some e => Some e
      | None => rmatch r2 pos k
      end
  | Star p => star_from p (length txt) pos k
  end.

(** [pattern.match(txt, pos)]: the end of the match, if there is one. *)
Definition match_at (r : regex) (pos : nat) : option nat := rmatch r pos Some.

(** What a pattern matches, without the search order. *)
Inductive matches : regex -> nat -> nat -> Prop :=
| M_Eps : forall pos, matches Eps pos pos
| M_Chr : forall c d pos,
    nth_error txt pos = Some d -> chr_eq c d = true -> matches (Chr c) pos (S pos)
| M_Cls : forall p d pos,
    nth_error txt pos = Some d -> p d = true -> matches (Cls p) pos (S pos)
| M_Bnd : forall pos, at_boundary pos = true -> matches Bnd pos pos
| M_Seq : forall r1 r2 pos mid e,
    matches r1 pos mid -> matches r2 mid e -> matches (Seq r1 r2) pos e
| M_AltL : forall r1 r2 pos e, matches r1 pos e -> matches (Alt r1 r2) pos e
| M_AltR : forall r1 r2 pos e, matches r2 pos e -> matches (Alt r1 r2) pos e
| M_Star0 : forall p pos, matches (Star p) pos pos
| M_StarS : forall p d pos e,
    nth_error txt pos = Some d -> p d = true ->
    matches (Star p) (S pos) e -> matches (Star p) pos e.
End Matcher.

(** A match object: [m.start()] and [m.end()]. *)
Record Match : Type := { m_start : nat; m_end : nat }.

(** [m.span()] *)
Definition span (m : Match) : nat * nat := (m_start m, m_end m).

(** [pattern.finditer(txt)]: the matches from left to right, each search
    starting where the match before it ended (one character further after
    an empty match). *)
Fixpoint finditer_from (ic : bool) (r : regex) (txt : str) (fuel pos : nat) : list Match :=
  match fuel with
  | 0 => []
  | S fuel' =>
      if length txt <? pos then []
      else
        match match_at ic txt r pos with
        | Some e =>
            {| m_start := pos; m_end := e |}
              :: finditer_from ic r txt fuel' (if e =? pos then S pos else e)
        | None => finditer_from ic r txt fuel' (S pos)
        end
  end.

Definition finditer (ic : bool) (r : regex) (txt : str) : list Match :=
  finditer_from ic r txt (S (length txt)) 0.

(** [re.match(pattern, s)] used as a condition. *)
Definition re_match (r : regex) (s : str) : bool :=
  match match_at false s r 0 with
  | Some _ => true
  | None => false
  end.

(** [TABLE_RE]: [\b(?P<name>N1|N2|...)\b] with [re.IGNORECASE | re.VERBOSE];
    the group [name] is the whole match, the assertions take no text. *)
Definition TABLE_RE : regex := Seq Bnd (Seq (Alts (map Lit TABLE_NAMES)) Bnd).

Definition TABLE_RE_finditer (txt : str) : list Match := finditer true TABLE_RE txt.

(** [m.group("name")] *)
Definition group_name (txt : str) (m : Match) : str := slice txt (m_start m) (m_end m).

(** [sorted(ms, key=lambda x: x.start())], a stable sort. *)
Fixpoint insert_by_start (m : Match) (l : list Match) : list Match :=
  match l with
  | [] => [m]
  | x :: l' => if m_start m <=? m_start x then m :: l else x :: insert_by_start m l'
  end.

Definition sorted_by_start (l : list Match) : list Match :=
  fold_right insert_by_start [] l.

(** ** Exceptions *)

Inductive exn : Type :=
| KeyError (k : str).

Inductive result (A : Type) : Type :=
| Ok (a : A)
| Raise (e : exn).

Arguments Ok {A} a.
Arguments Raise {A} e.

Definition bind {A B : Type} (c : result A) (f : A -> result B) : result B :=
  match c with
  | Ok a => f a
  | Raise e => Raise e
  end.

Notation "x <- c ;; k" := (bind c (fun x => k))
  (at level 61, c at next level, right associativity).

(** A [for] loop whose body can raise. *)
Fixpoint for_each {A S : Type} (body : S -> A -> result S) (xs : list A) (st : S) : result S :=
  match xs with
  | [] => Ok st
  | x :: xs' => st' <- body st x ;; for_each body xs' st'
  end.

(** [d[k]] *)
Definition subscript {V : Type} (d : dict V) (k : str) : result V :=
  match dict_get d k with
  | Some v => Ok v
  | None => Raise (KeyError k)
  end.

(** ** The clock *)

Record datetime : Type := {
  year : nat; month : nat; day : nat;
  hour : nat; minute : nat; second : nat; microsecond : nat
}.

(** The ranges the [datetime] type keeps its date fields in. *)
Definition valid_date (d : datetime) : Prop :=
  1 <= year d <= 9999 /\ 1 <= month d <= 12 /\ 1 <= day d <= 31.

Definition digit_char (n : nat) : ascii := ascii_of_nat (48 + n mod 10).

Fixpoint decimal_aux (fuel n : nat) (acc : str) : str :=
  match fuel with
  | 0 => acc
  | S fuel' =>
      let acc' := digit_char n :: acc in
      if n <? 10 then acc' else decimal_aux fuel' (n / 10) acc'
  end.

(** [str(n)] *)
Definition decimal (n : nat) : str := decimal_aux (S n) n [].

(** [s.zfill(w)] for a string of digits. *)
Definition zfill (w : nat) (s : str) : str := repeat (digit_char 0) (w - length s) ++ s.

Definition dash : ascii := ascii_of_nat 45.

(** [d.strftime("%Y-%m-%d")]: the year on four digits, the month and the
    day on two. *)
Definition strftime_Ymd (d : datetime) : str :=
  zfill 4 (decimal (year d)) ++ [dash] ++ zfill 2 (decimal (month d))
    ++ [dash] ++ zfill 2 (decimal (day d)).

(** ** Issues *)

(** The dictionary [_add_hit] builds; [note] is a key only when the note
    is not empty. *)
Record Issue : Type := {
  table : str;
  target_type : str;
  target_name : str;
  used_fields : list str;
  ambiguous : bool;
  suggested_statement : str;
  suggested_fields : option (list str);
  snippet : str;
  note : option str
}.

(** [max(0, start - 60)] is the truncated subtraction of [nat]. *)
Definition snippet_at (text : str) (start end_ : nat) : str :=
  let s := Nat.max 0 (start - 60) in
  let e := Nat.min (length text) (end_ + 60) in
  slice text s e.

(** [_add_hit]; the list [hits] it appends to is returned. *)
Definition _add_hit (hits : list Issue) (sp : nat * nat) (target_name : str)
           (suggested_statement : str) (src : str) (note : option str) : list Issue :=
  let (start, end_) := sp in
  let meta :=
    {| table := target_name;
       target_type := L "Table";
       target_name := target_name;
       used_fields := [];
       ambiguous := false;
       suggested_statement := suggested_statement;
       suggested_fields := None;
       snippet := snippet_at src start end_;
       note := match note with
               | Some ((_ :: _) as n) => Some n
               | _ => None
               end |} in
  hits ++ [meta].

(** ** The statement rewriter of [add_order_by_to_selects]

    The nested function [replacer] as a function of the two groups it
    reads from the match: the whole statement and the group [fields]. *)

(** [s.lstrip()], [s.rstrip()] and [s.strip()] *)
Fixpoint lstrip (s : str) : str :=
  match s with
  | c :: s' => if is_space c then lstrip s' else s
  | [] => []
  end.

Definition rstrip (s : str) : str := rev (lstrip (rev s)).

Definition strip (s : str) : str := rstrip (lstrip s).

(** [s.rstrip(".")] *)
Definition dot : ascii := ascii_of_nat 46.

Fixpoint lstrip_dots (s : str) : str :=
  match s with
  | c :: s' => if ascii_eqb c dot then lstrip_dots s' else s
  | [] => []
  end.

Definition rstrip_dots (s : str) : str := rev (lstrip_dots (rev s)).

(** [p in s] *)
Fixpoint startswith (s p : str) : bool :=
  match p, s with
  | [], _ => true
  | a :: p', b :: s' => ascii_eqb a b && startswith s' p'
  | _ :: _, [] => false
  end.

Fixpoint contains (p s : str) : bool :=
  startswith s p
  || match s with
     | [] => false
     | _ :: s' => contains p s'
     end.

(** [s.split()]: the pieces between runs of whitespace; [cur] is the
    piece being read. *)
Fixpoint split_from (s cur : str) : list str :=
  match s with
  | [] => match cur with [] => [] | _ => [cur] end
  | c :: s' =>
      if is_space c then
        match cur with
        | [] => split_from s' []
        | _ => cur :: split_from s' []
        end
      else split_from s' (cur ++ [c])
  end.

Definition split (s : str) : list str := split_from s [].

(** [s.isidentifier()] on ASCII: a letter or an underscore, then
    letters, digits and underscores. *)
Definition isidentifier (s : str) : bool :=
  match s with
  | c :: s' =>
      (is_upper_letter c || is_lower_letter c || (code c =? 95)) && forallb is_word s'
  | [] => false
  end.

(** [sep.join(l)] *)
Fixpoint join (sep : str) (l : list str) : str :=
  match l with
  | [] => []
  | [x] => x
  | x :: l' => x ++ sep ++ join sep l'
  end.

Definition replacer (full_stmt fields_group : str) : str :=
  let fields := strip fields_group in
  if contains (L "ORDER BY") (upper full_stmt) then full_stmt
  else if str_eqb fields (L "*") then
    let order_by := L " ORDER BY PRIMARY KEY" in
    rstrip_dots full_stmt ++ order_by ++ L "."
  else
    let field_list := split fields in
    let cleaned_fields := filter isidentifier field_list in
    match cleaned_fields with
    | [] => full_stmt
    | _ =>
        let order_by := L " ORDER BY " ++ join (L " ") cleaned_fields in
        rstrip_dots full_stmt ++ order_by ++ L "."
    end.

(** ** The rewrite engine *)

(** [\s*(UPDATE|MODIFY)\s+NAME\b] *)
Definition UPDATE_RE (name : str) : regex :=
  Seq (Star is_space)
    (Seq (Alt (Lit (L "UPDATE")) (Lit (L "MODIFY")))
      (Seq (Plus is_space) (Seq (Lit name) Bnd))).

(** [\s*DELETE\s+FROM\s+NAME\b] *)
Definition DELETE_RE (name : str) : regex :=
  Seq (Star is_space)
    (Seq (Lit (L "DELETE"))
      (Seq (Plus is_space)
        (Seq (Lit (L "FROM")) (Seq (Plus is_space) (Seq (Lit name) Bnd))))).

(** The enclosing line of a match, upper-cased. *)
Definition line_start_of (txt : str) (m : Match) : nat :=
  Z.to_nat (rfind_nl txt (m_start m) + 1).

Definition line_end_of (txt : str) (m : Match) : nat :=
  let line_end := find_nl txt (m_end m) in
  if (line_end =? -1)%Z then length txt else Z.to_nat line_end.

Definition line_of (txt : str) (m : Match) : str :=
  upper (slice txt (line_start_of txt m) (line_end_of txt m)).

(** The condition of the [if] that skips UPDATE/DELETE/MODIFY statements. *)
Definition skip_condition (name line : str) : bool :=
  re_match (UPDATE_RE name) line || re_match (DELETE_RE name) line.

Record loop_state : Type := {
  last_idx : nat;
  remediated_parts : list str;
  issues : list Issue
}.

(** The body of [for m in matches]. *)
Definition loop_body (change_marker txt : str) (st : loop_state) (m : Match)
  : result loop_state :=
  let name := upper (group_name txt m) in
  match dict_get TABLE_MAP name with
  | None => Ok st                                   (* continue *)
  | Some [] => Ok st                                (* an empty dict is falsy *)
  | Some info =>
      let line := line_of txt m in
      if skip_condition name line then
        Ok {| last_idx := m_end m;
              remediated_parts :=
                remediated_parts st ++ [slice txt (last_idx st) (m_end m)];
              issues := issues st |}
      else
        replacement <- subscript info (L "new") ;;
        Ok {| last_idx := m_end m;
              remediated_parts :=
                remediated_parts st
                  ++ [slice txt (last_idx st) (m_start m); replacement; change_marker];
              issues :=
                _add_hit (issues st) (span m) name
                  (L "Replaced " ++ name ++ L " with " ++ replacement ++ L ".")
                  txt (dict_get info (L "note")) |}
  end.

(** The f-string [change_marker]: a newline, a double quote, the text
    [ Changed by PwC on ], the date and a newline. *)
Definition change_marker_of (today : str) : str :=
  [newline; dquote] ++ L " Changed by PwC on " ++ today ++ [newline].

Definition remediate_code (now : datetime) (txt : str) : result (str * list Issue) :=
  match txt with
  | [] => Ok (txt, [])
  | _ =>
      let matches := sorted_by_start (TABLE_RE_finditer txt) in
      let today := strftime_Ymd now in
      let change_marker := change_marker_of today in
      st <- for_each (loop_body change_marker txt) matches
              {| last_idx := 0; remediated_parts := []; issues := [] |} ;;
      let remediated_parts := remediated_parts st ++ [slice_from txt (last_idx st)] in
      let new_txt := concat remediated_parts in
      Ok (new_txt, issues st)
  end.

(** ** The API *)

(** [class Unit(BaseModel)]: three required strings and three optional
    ones; the request is validated before the handler runs, so the
    handler sees values of this type only. *)
Record Unit : Type := {
  pgm_name : str;
  inc_name : str;
  type : str;
  name : option str;
  class_implementation : option str;
  original_code : option str
}.

(** The JSON values a dumped unit holds. *)
Inductive json : Type :=
| JNull
| JStr (s : str).

Definition json_of_optional (o : option str) : json :=
  match o with
  | Some s => JStr s
  | None => JNull
  end.

(** [json.loads(u.model_dump_json())]: the fields in the order of their
    declaration, [None] as [null]. *)
Definition model_dump (u : Unit) : dict json :=
  [ (L "pgm_name", JStr (pgm_name u));
    (L "inc_name", JStr (inc_name u));
    (L "type", JStr (type u));
    (L "name", json_of_optional (name u));
    (L "class_implementation", json_of_optional (class_implementation u));
    (L "original_code", json_of_optional (original_code u)) ].

(** [o or ""]: [None] and the empty string are both false. *)
Definition or_empty (o : option str) : str :=
  match o with
  | Some ((_ :: _) as s) => s
  | _ => []
  end.

(** The body of [for u in units]; [now] is what the clock shows when
    the unit is processed. *)
Definition unit_body (now : datetime) (results : list (dict json)) (u : Unit)
  : result (list (dict json)) :=
  let src := or_empty (original_code u) in
  r <- remediate_code now src ;;
  let (remediated_src, issues) := r in
  let obj := model_dump u in
  let obj := dict_set obj (L "remediated_code") (JStr remediated_src) in
  Ok (results ++ [obj]).

(** [remediate_mm_im]; the clock is read once for each unit, [clock i]
    being its reading for the unit at index [i]. *)
Fixpoint units_loop (clock : nat -> datetime) (i : nat) (units : list Unit)
         (results : list (dict json)) : result (list (dict json)) :=
  match units with
  | [] => Ok results
  | u :: units' =>
      results' <- unit_body (clock i) results u ;;
      units_loop clock (S i) units' results'
  end.

Definition remediate_mm_im (clock : nat -> datetime) (units : list Unit)
  : result (list (dict json)) :=
  units_loop clock 0 units [].

(** ** What the engine is specified against *)

(** The replacement name and the note of a vocabulary name. *)
Definition new_of (name : str) : str :=
  match dict_get TABLE_MAP name with
  | Some info => match dict_get info (L "new") with Some v => v | None => [] end
  | None => []
  end.

Definition note_of (name : str) : option str :=
  match dict_get TABLE_MAP name with
  | Some info => dict_get info (L "note")
  | None => None
  end.

(** The upper-cased name of a match, as the loop computes it. *)
Definition name_of (txt : str) (m : Match) : str := upper (group_name txt m).

(** A match is Protected when the condition of the skipping [if] holds
    for it, Rewritable otherwise. *)
Definition is_protected (txt : str) (m : Match) : bool :=
  skip_condition (name_of txt m) (line_of txt m).

Definition is_rewritable (txt : str) (m : Match) : bool := negb (is_protected txt m).

Inductive Classification : Type := Rewritable | Protected.

Definition classify (txt : str) (m : Match) : Classification :=
  if is_protected txt m then Protected else Rewritable.

(** A whole-word occurrence of a vocabulary name at [s, e), in any
    letter case. *)
Definition occurrence (txt : str) (s e : nat) : Prop :=
  at_boundary txt s = true /\ at_boundary txt e = true /\
  In (upper (slice txt s e)) TABLE_NAMES /\ s < e <= length txt.


Definition is_occurrence (txt : str) (m : Match) : Prop :=
  occurrence txt (m_start m) (m_end m).

(** [a] ends before [b] starts, with at least one character between. *)
Definition apart (a b : Match) : Prop := m_end a < m_start b.

(** The issue [_add_hit] records for a rewritten match. *)
Definition issue_of (txt : str) (m : Match) : Issue :=
  let name := name_of txt m in
  {| table := name;
     target_type := L "Table";
     target_name := name;
     used_fields := [];
     ambiguous := false;
     suggested_statement := L "Replaced " ++ name ++ L " with " ++ new_of name ++ L ".";
     suggested_fields := None;
     snippet := snippet_at txt (m_start m) (m_end m);
     note := match note_of name with
             | Some ((_ :: _) as n) => Some n
             | _ => None
             end |}.

(** One turn of the loop on a match of the vocabulary. *)
Definition step (mk txt : str) (st : loop_state) (m : Match) : loop_state :=
  if is_protected txt m then
    {| last_idx := m_end m;
       remediated_parts := remediated_parts st ++ [slice txt (last_idx st) (m_end m)];
       issues := issues st |}
  else
    {| last_idx := m_end m;
       remediated_parts :=
         remediated_parts st
           ++ [slice txt (last_idx st) (m_start m); new_of (name_of txt m); mk];
       issues := issues st ++ [issue_of txt m] |}.

(** The text the loop assembles from offset [cur] on: a Protected match
    is copied, a Rewritable one gives way to its replacement and the
    change marker [mk], the text between the matches is copied. *)
Fixpoint render (mk txt : str) (cur : nat) (ms : list Match) : str :=
  match ms with
  | [] => slice_from txt cur
  | m :: ms' =>
      if is_protected txt m then
        slice txt cur (m_end m) ++ render mk txt (m_end m) ms'
      else
        slice txt cur (m_start m) ++ new_of (name_of txt m) ++ mk
          ++ render mk txt (m_end m) ms'
  end.

Definition all_ascii : list ascii := map ascii_of_nat (seq 0 256).

(** Two readings of the clock on one day, and one on the day after. *)
Definition morning : datetime :=
  {| year := 2026; month := 11; day := 3;
     hour := 9; minute := 30; second := 0; microsecond := 0 |}.

Definition evening : datetime :=
  {| year := 2026; month := 11; day := 3;
     hour := 21; minute := 5; second := 42; microsecond := 17 |}.

Definition next_day : datetime :=
  {| year := 2026; month := 11; day := 4;
     hour := 9; minute := 30; second := 0; microsecond := 0 |}.

Definition class_eqb (a b : Classification) : bool :=
  match a, b with
  | Rewritable, Rewritable | Protected, Protected => true
  | _, _ => false
  end.

(** The number of matches of a text that fall in a class. *)
Definition count_class (c : Classification) (txt : str) : nat :=
  length (filter (fun m => class_eqb (classify txt m) c) (TABLE_RE_finditer txt)).

(** The segment of [txt] from [pos] to [e] is [w]. *)
Definition seg (txt : str) (pos e : nat) (w : str) : Prop :=
  e = pos + length w /\ skipn pos txt = w ++ skipn e txt.

Definition all_space (w : str) : Prop := Forall (fun c => is_space c = true) w.

Definition ends_word (a : str) : bool :=
  match rev a with
  | c :: _ => is_word c
  | [] => false
  end.

Definition starts_word (b : str) : bool :=
  match b with
  | c :: _ => is_word c
  | [] => false
  end.

(** A word boundary between two adjacent pieces of text: a word
    character ends the first or starts the second, not both. *)
Definition word_boundary (a b : str) : Prop :=
  xorb (ends_word a) (starts_word b) = true.

(** The protection rule in the words of the specification: the line
    begins with optional whitespace, then UPDATE or MODIFY, whitespace,
    the table name and a word boundary; or with optional whitespace,
    then DELETE, whitespace, FROM, whitespace, the table name and a word
    boundary. *)
Definition protected_line (line name : str) : Prop :=
  (exists ws kw ws1 rest,
     line = ws ++ kw ++ ws1 ++ name ++ rest
     /\ all_space ws /\ (kw = L "UPDATE" \/ kw = L "MODIFY")
     /\ ws1 <> [] /\ all_space ws1 /\ word_boundary name rest)
  \/ (exists ws ws1 ws2 rest,
     line = ws ++ L "DELETE" ++ ws1 ++ L "FROM" ++ ws2 ++ name ++ rest
     /\ all_space ws /\ ws1 <> [] /\ all_space ws1
     /\ ws2 <> [] /\ all_space ws2 /\ word_boundary name rest).

(** The enclosing line of a match in the words of the specification:
    the text from the newline before the match (exclusive) to the
    newline after it (exclusive), the ends of the text standing for
    missing newlines. *)
Definition enclosing_line (txt : str) (m : Match) (l : str) : Prop :=
  exists pre post,
    txt = pre ++ l ++ post
    /\ length pre <= m_start m /\ m_end m <= length pre + length l
    /\ ~ In newline l
    /\ (pre = [] \/ exists p, pre = p ++ [newline])
    /\ (post = [] \/ exists q, post = newline :: q).

(** The form YYYY-MM-DD: four digits, a dash, two digits, a dash, two
    digits. *)
Definition is_date_form (s : str) : Prop :=
  exists y1 y2 y3 y4 m1 m2 d1 d2,
    s = [y1; y2; y3; y4; dash; m1; m2; dash; d1; d2]
    /\ Forall (fun c => is_digit c = true) [y1; y2; y3; y4; m1; m2; d1; d2].

Definition digits_of_width (w : nat) (s : str) : bool :=
  (length s =? w) && forallb is_digit s.

(** The state the loop starts in. *)
Definition initial_state : loop_state :=
  {| last_idx := 0; remediated_parts := []; issues := [] |}.

(** Where the text copied after a match stops: at the next match, or at
    the end of the text. *)
Definition next_start (txt : str) (after : list Match) : nat :=
  match after with
  | [] => length txt
  | m :: _ => m_start m
  end.

(** A pattern whose classes do not tell the two cases of a letter apart. *)
Fixpoint case_blind (r : regex) : Prop :=
  match r with
  | Cls p | Star p => forall c, p (upper_char c) = p c
  | Seq r1 r2 | Alt r1 r2 => case_blind r1 /\ case_blind r2
  | _ => True
  end.

(** Two issues that differ at most by the letter case of their snippets. *)
Definition same_issue_modulo_case (i j : Issue) : Prop :=
  table i = table j /\ target_type i = target_type j
  /\ target_name i = target_name j /\ used_fields i = used_fields j
  /\ ambiguous i = ambiguous j /\ suggested_statement i = suggested_statement j
  /\ suggested_fields i = suggested_fields j /\ note i = note j
  /\ upper (snippet i) = upper (snippet j).

(** Offset [i] lies in a Rewritable match of [txt]. *)
Definition in_rewritable_match (txt : str) (i : nat) : Prop :=
  exists m, In m (TABLE_RE_finditer txt) /\ classify txt m = Rewritable
            /\ m_start m <= i < m_end m.

(** A text the engine leaves as it is: all its matches are Protected. *)
Definition stable (txt : str) : Prop :=
  forall m, In m (TABLE_RE_finditer txt) -> is_protected txt m = true.

(** No Rewritable match stands before a Protected match on the line of
    that match. *)
Definition protected_first (txt : str) : Prop :=
  forall p r,
    In p (TABLE_RE_finditer txt) -> In r (TABLE_RE_finditer txt) ->
    classify txt p = Protected -> classify txt r = Rewritable ->
    ~ (line_start_of txt p <= m_start r /\ m_start r < m_start p).

(** The character before offset [p] is a word character. *)
Definition word_before (txt : str) (p : nat) : bool :=
  match p with
  | 0 => false
  | S q => word_at txt q
  end.

(** No letter M, in either case. *)
Definition no_letter_M (s : str) : Prop :=
  Forall (fun c => ascii_eqb (upper_char c) (ascii_of_nat 77) = false) s.

(** The comment line of the change marker, between its two newlines. *)
Definition marker_line (today : str) : str :=
  [dquote] ++ L " Changed by PwC on " ++ today.

(** [protected_first] as a test. *)
Definition protected_firstb (txt : str) : bool :=
  forallb (fun p =>
    forallb (fun r =>
      negb (is_protected txt p && is_rewritable txt r
            && (line_start_of txt p <=? m_start r) && (m_start r <? m_start p)))
      (TABLE_RE_finditer txt))
    (TABLE_RE_finditer txt).

(** A stretch of the text from [cur] to [b], and what the first pass
    writes behind it. *)
Definition stretch (txt : str) (cur b : nat) (N : str) : str :=
  slice txt cur b ++ N.

(** By how many characters a rewritten match makes the text longer: the
    replacement and the change marker come, the matched text goes. *)
Definition growth (mk txt : str) (m : Match) : nat :=
  length (new_of (name_of txt m)) + length mk - (m_end m - m_start m).

(** The number of newlines of a text. *)
Definition count_newlines (s : str) : nat := count_occ ascii_dec s newline.

(** The keys of an object of the response. *)
Definition response_keys : list str :=
  [ L "pgm_name"; L "inc_name"; L "type"; L "name"; L "class_implementation";
    L "original_code"; L "remediated_code" ].

(** The text the engine returns, in closed form. *)
Definition remediated_text (now : datetime) (txt : str) : str :=
  render (change_marker_of (strftime_Ymd now)) txt 0 (TABLE_RE_finditer txt).

(** The object the API returns for a unit processed at [now]. *)
Definition response_of (now : datetime) (u : Unit) : dict json :=
  model_dump u
    ++ [(L "remediated_code", JStr (remediated_text now (or_empty (original_code u))))].

Fixpoint responses (clock : nat -> datetime) (i : nat) (units : list Unit)
  : list (dict json) :=
  match units with
  | [] => []
  | u :: units' => response_of (clock i) u :: responses clock (S i) units'
  end.

(** A match moved [c] characters to the right. *)
Definition shift (c : nat) (m : Match) : Match :=
  {| m_start := c + m_start m; m_end := c + m_end m |}.

(** Two issues with the same fields, the snippet apart. *)
Definition same_finding (i j : Issue) : Prop :=
  table i = table j /\ target_type i = target_type j
  /\ target_name i = target_name j /\ used_fields i = used_fields j
  /\ ambiguous i = ambiguous j /\ suggested_statement i = suggested_statement j
  /\ suggested_fields i = suggested_fields j /\ note i = note j.

(** ** Characters *)

Unset Implicit Arguments.

Ltac all_chars c :=
  destruct c as [[] [] [] [] [] [] [] []]; vm_compute; try reflexivity; try discriminate; auto.

Lemma ascii_eqb_eq : forall a b, ascii_eqb a b = true <-> a = b.
Proof. intros; apply Ascii.eqb_eq. Qed.

Lemma str_eqb_eq : forall a b, str_eqb a b = true <-> a = b.
Proof.
  induction a as [|x a IH]; destruct b as [|y b]; simpl; split; intro H;
    try reflexivity; try discriminate.
  - apply andb_true_iff in H. destruct H as [H1 H2].
    apply ascii_eqb_eq in H1. apply IH in H2. congruence.
  - inversion H; subst. apply andb_true_iff; split.
    + now apply ascii_eqb_eq.
    + now apply IH.
Qed.

Lemma str_eqb_refl : forall a, str_eqb a a = true.
Proof. intro; now apply str_eqb_eq. Qed.

Lemma upper_char_idem : forall c, upper_char (upper_char c) = upper_char c.
Proof. intro c; all_chars c. Qed.

Lemma is_word_upper_char : forall c, is_word (upper_char c) = is_word c.
Proof. intro c; all_chars c. Qed.

Lemma newline_upper_char : forall c, ascii_eqb (upper_char c) newline = ascii_eqb c newline.
Proof. intro c; all_chars c. Qed.

Lemma lower_upper_char : forall c, lower_char (upper_char c) = lower_char c.
Proof. intro c; all_chars c. Qed.

Lemma upper_letter_is_word : forall c, is_upper_letter c = true -> is_word c = true.
Proof. intro c; all_chars c. Qed.

Lemma upper_is_letter_word : forall c, is_upper_letter (upper_char c) = true -> is_word c = true.
Proof. intro c; all_chars c. Qed.

Lemma space_not_word : forall c, is_space c = true -> is_word c = false.
Proof. intro c; all_chars c. Qed.

Lemma in_all_ascii : forall c, In c all_ascii.
Proof.
  intro c. unfold all_ascii. rewrite <- (ascii_nat_embedding c).
  apply in_map, in_seq. pose proof (nat_ascii_bounded c). lia.
Qed.

(** Under [re.IGNORECASE] an upper-case letter of the pattern matches the
    characters whose upper case it is. *)
Lemma chr_eq_ic_upper : forall c d,
  is_upper_letter c = true -> (chr_eq true c d = true <-> upper_char d = c).
Proof.
  assert (H : forallb (fun c => forallb (fun d =>
              implb (is_upper_letter c)
                (Bool.eqb (chr_eq true c d) (ascii_eqb (upper_char d) c)))
              all_ascii) all_ascii = true) by (vm_compute; reflexivity).
  intros c d Hc. rewrite forallb_forall in H.
  specialize (H c (in_all_ascii c)). rewrite forallb_forall in H.
  specialize (H d (in_all_ascii d)). rewrite Hc in H. cbn [implb] in H.
  apply Bool.eqb_prop in H. rewrite H. apply ascii_eqb_eq.
Qed.

Lemma chr_eq_exact : forall c d, chr_eq false c d = true <-> d = c.
Proof. intros; unfold chr_eq; simpl; rewrite ascii_eqb_eq; split; congruence. Qed.

(** ** The matcher finds what the pattern matches *)

Section MatcherFacts.
Variable ic : bool.
Variable txt : str.

Lemma star_from_sound : forall p fuel pos k e,
  star_from txt p fuel pos k = Some e ->
  exists mid, matches ic txt (Star p) pos mid /\ k mid = Some e.
Proof.
  induction fuel as [|fuel IH]; simpl; intros pos k e H.
  - exists pos; split; [constructor | assumption].
  - destruct (nth_error txt pos) as [d|] eqn:Hd;
      [destruct (p d) eqn:Hp|]; try (exists pos; split; [constructor | assumption]).
    destruct (star_from txt p fuel (S pos) k) as [e'|] eqn:Hs.
    + inversion H; subst e'. destruct (IH _ _ _ Hs) as (mid & Hm & Hk).
      exists mid; split; [econstructor; eassumption | assumption].
    + exists pos; split; [constructor | assumption].
Qed.

Lemma rmatch_sound : forall r pos k e,
  rmatch ic txt r pos k = Some e ->
  exists mid, matches ic txt r pos mid /\ k mid = Some e.
Proof.
  induction r as [| |c|p| |r1 IH1 r2 IH2|r1 IH1 r2 IH2|p]; simpl; intros pos k e H.
  - discriminate.
  - exists pos; split; [constructor | assumption].
  - destruct (nth_error txt pos) as [d|] eqn:Hd; [|discriminate].
    destruct (chr_eq ic c d) eqn:Hc; [|discriminate].
    exists (S pos); split; [econstructor; eassumption | assumption].
  - destruct (nth_error txt pos) as [d|] eqn:Hd; [|discriminate].
    destruct (p d) eqn:Hp; [|discriminate].
    exists (S pos); split; [econstructor; eassumption | assumption].
  - destruct (at_boundary txt pos) eqn:Hb; [|discriminate].
    exists pos; split; [constructor; assumption | assumption].
  - destruct (IH1 _ _ _ H) as (mid & Hm & Hk).
    destruct (IH2 _ _ _ Hk) as (mid' & Hm' & Hk').
    exists mid'; split; [econstructor; eassumption | assumption].
  - destruct (rmatch ic txt r1 pos k) as [e1|] eqn:H1.
    + inversion H; subst e1. destruct (IH1 _ _ _ H1) as (mid & Hm & Hk).
      exists mid; split; [apply M_AltL; assumption | assumption].
    + destruct (IH2 _ _ _ H) as (mid & Hm & Hk).
      exists mid; split; [apply M_AltR; assumption | assumption].
  - eapply star_from_sound; eassumption.
Qed.

Lemma matches_star_range : forall r pos mid,
  matches ic txt r pos mid -> forall p, r = Star p ->
  pos <= mid /\ mid - pos <= length txt.
Proof.
  assert (Hgen : forall r pos mid, matches ic txt r pos mid -> forall p, r = Star p ->
                   pos <= mid /\ (mid = pos \/ mid <= length txt)).
  { induction 1; intros q Hq; try discriminate.
    - split; [lia | now left].
    - destruct (IHmatches _ Hq) as [Hle Hor].
      assert (pos < length txt) by (apply nth_error_Some; congruence).
      split; [lia | right; lia]. }
  intros r pos mid Hm p Hr. destruct (Hgen _ _ _ Hm _ Hr) as [Hle Hor]. lia.
Qed.

Lemma star_from_complete : forall p fuel pos mid k,
  matches ic txt (Star p) pos mid -> mid - pos <= fuel ->
  k mid <> None -> star_from txt p fuel pos k <> None.
Proof.
  induction fuel as [|fuel IH]; intros pos mid k Hm Hf Hk.
  - destruct (matches_star_range _ _ _ Hm _ eq_refl) as [Hle _].
    assert (mid = pos) by lia. subst mid. simpl. assumption.
  - simpl. inversion Hm as [| | | | | | |q pos' Hq1 Hq2|q d pos' e Hd Hp Hrest]; subst.
    + destruct (nth_error txt mid) as [d|]; [destruct (p d)|]; try assumption.
      destruct (star_from txt p fuel (S mid) k); [discriminate | assumption].
    + rewrite Hd, Hp.
      destruct (matches_star_range _ _ _ Hrest _ eq_refl) as [Hle _].
      assert (Hne : star_from txt p fuel (S pos) k <> None)
        by (apply (IH (S pos) mid k Hrest); [lia | assumption]).
      destruct (star_from txt p fuel (S pos) k); [discriminate | contradiction].
Qed.

Lemma rmatch_complete : forall r pos mid k,
  matches ic txt r pos mid -> k mid <> None -> rmatch ic txt r pos k <> None.
Proof.
  induction r as [| |c|p| |r1 IH1 r2 IH2|r1 IH1 r2 IH2|p]; intros pos mid k Hm Hk;
    inversion Hm as [ pos'
                    | c' d pos' Hd Hc
                    | p' d pos' Hd Hp
                    | pos' Hb
                    | r1' r2' pos' mid' e' H1 H2
                    | r1' r2' pos' e' H1
                    | r1' r2' pos' e' H2
                    | p' pos'
                    | p' d pos' e' Hd Hp Hrest ]; subst; simpl.
  - assumption.
  - rewrite Hd, Hc. assumption.
  - rewrite Hd, Hp. assumption.
  - rewrite Hb. assumption.
  - eapply IH1; [eassumption|]. eapply IH2; eassumption.
  - pose proof (IH1 _ _ _ H1 Hk) as Hn.
    destruct (rmatch ic txt r1 pos k); [discriminate | contradiction].
  - destruct (rmatch ic txt r1 pos k); [discriminate|].
    eapply IH2; eassumption.
  - apply (star_from_complete _ _ _ mid); [constructor | lia | assumption].
  - apply (star_from_complete _ _ _ mid); [assumption | | assumption].
    apply (matches_star_range _ _ _ Hm _ eq_refl).
Qed.

(** [re.match] succeeds exactly when the pattern matches some prefix. *)
Lemma match_at_iff : forall r pos,
  match_at ic txt r pos <> None <-> exists e, matches ic txt r pos e.
Proof.
  intros r pos; unfold match_at; split.
  - destruct (rmatch ic txt r pos Some) as [e|] eqn:H; [|congruence].
    intros _. destruct (rmatch_sound _ _ _ _ H) as (mid & Hm & _). eauto.
  - intros [e He]. eapply rmatch_complete; [eassumption | discriminate].
Qed.

Lemma match_at_sound : forall r pos e,
  match_at ic txt r pos = Some e -> matches ic txt r pos e.
Proof.
  intros r pos e H. destruct (rmatch_sound _ _ _ _ H) as (mid & Hm & Hk).
  inversion Hk; subst; assumption.
Qed.
End MatcherFacts.

(** ** Slices *)

Lemma slice_length : forall (s : str) lo hi,
  length (slice s lo hi) = Nat.min (hi - lo) (length s - lo).
Proof. intros; unfold slice. now rewrite length_firstn, length_skipn. Qed.

Lemma slice_nth : forall (s : str) lo hi i,
  nth_error (slice s lo hi) i = if i <? hi - lo then nth_error s (lo + i) else None.
Proof. intros; unfold slice. now rewrite nth_error_firstn, nth_error_skipn. Qed.

Lemma slice_nil : forall (s : str) lo hi, hi <= lo -> slice s lo hi = [].
Proof. intros s lo hi H; unfold slice. replace (hi - lo) with 0 by lia. reflexivity. Qed.

Lemma skipn_cons_nth : forall (s : str) lo d,
  nth_error s lo = Some d -> skipn lo s = d :: skipn (S lo) s.
Proof.
  induction s as [|c s IH]; intros [|lo] d H; simpl in *; try discriminate.
  - congruence.
  - apply IH; assumption.
Qed.

Lemma slice_cons : forall (s : str) lo hi d,
  nth_error s lo = Some d -> lo < hi -> slice s lo hi = d :: slice s (S lo) hi.
Proof.
  intros s lo hi d Hd Hlt. unfold slice. rewrite (skipn_cons_nth _ _ _ Hd).
  replace (hi - lo) with (S (hi - S lo)) by lia. reflexivity.
Qed.

Lemma slice_uncons : forall (s : str) lo hi d w,
  slice s lo hi = d :: w -> nth_error s lo = Some d /\ lo < hi /\ w = slice s (S lo) hi.
Proof.
  intros s lo hi d w H.
  assert (Hlt : lo < hi).
  { destruct (Nat.lt_ge_cases lo hi) as [|Hge]; [assumption|].
    rewrite (slice_nil _ _ _ Hge) in H; discriminate. }
  assert (Hd : nth_error s lo = Some d).
  { pose proof (slice_nth s lo hi 0) as Hn. rewrite H in Hn. simpl in Hn.
    destruct (0 <? hi - lo) eqn:E; [|discriminate].
    rewrite Nat.add_0_r in Hn. congruence. }
  rewrite (slice_cons _ _ _ _ Hd Hlt) in H. inversion H. auto.
Qed.

Lemma slice_upper : forall s lo hi, slice (upper s) lo hi = upper (slice s lo hi).
Proof.
  intros; unfold slice, upper. now rewrite skipn_map, firstn_map.
Qed.

(** ** What the literals and [TABLE_RE] match *)

Lemma matches_Lit : forall ic txt n pos e,
  matches ic txt (Lit n) pos e <->
  e = pos + length n /\ Forall2 (fun c d => chr_eq ic c d = true) n (slice txt pos e).
Proof.
  intros ic txt; induction n as [|c n IH]; intros pos e; simpl.
  - split.
    + intro H; inversion H; subst. split; [lia|].
      rewrite slice_nil by lia. constructor.
    + intros [He _]. replace e with pos by lia. constructor.
  - split.
    + intro H. inversion H as [ | | | |r1 r2 p1 mid e1 H1 H2| | | | ]; subst.
      inversion H1; subst. apply IH in H2. destruct H2 as [He Hf].
      split; [lia|].
      erewrite slice_cons; [| eassumption | lia].
      constructor; assumption.
    + intros [He Hf]. inversion Hf as [|c' d n' w Hcd Hrest Heq1 Heq2]; subst.
      symmetry in Heq2. apply slice_uncons in Heq2. destruct Heq2 as (Hd & Hlt & Hw).
      subst w. econstructor.
      * econstructor; eassumption.
      * apply IH. split; [lia | assumption].
Qed.

Lemma matches_Alts : forall ic txt rs pos e,
  matches ic txt (Alts rs) pos e <-> exists r, In r rs /\ matches ic txt r pos e.
Proof.
  intros ic txt; induction rs as [|r rs IH]; intros pos e; simpl.
  - split; [intro H; inversion H | intros (r & [] & _)].
  - split.
    + intro H; inversion H as [ | | | | |r1 r2 p1 e1 H1|r1 r2 p1 e1 H1| | ]; subst.
      * exists r; auto.
      * apply IH in H1. destruct H1 as (r' & Hin & Hm). exists r'; auto.
    + intros (r' & [Heq|Hin] & Hm).
      * subst r'. apply M_AltL; assumption.
      * apply M_AltR. apply IH. exists r'; auto.
Qed.

Lemma Forall2_chr_eq_upper : forall n w,
  Forall (fun c => is_upper_letter c = true) n ->
  (Forall2 (fun c d => chr_eq true c d = true) n w <-> upper w = n).
Proof.
  induction n as [|c n IH]; intros w Hn; split; intro H.
  - inversion H; reflexivity.
  - destruct w; [constructor | discriminate].
  - inversion Hn; subst. inversion H; subst. simpl. f_equal.
    + now apply chr_eq_ic_upper.
    + now apply IH.
  - inversion Hn; subst. destruct w as [|d w]; [discriminate|].
    simpl in H. inversion H; subst.
    constructor; [now apply chr_eq_ic_upper | now apply IH].
Qed.

(** The vocabulary: upper-case letters only, no empty name. *)
Lemma TABLE_NAMES_letters : forall n,
  In n TABLE_NAMES -> Forall (fun c => is_upper_letter c = true) n /\ n <> [].
Proof.
  assert (H : forallb (fun n => forallb is_upper_letter n && negb (length n =? 0))
                TABLE_NAMES = true) by (vm_compute; reflexivity).
  intros n Hin. rewrite forallb_forall in H. specialize (H n Hin).
  apply andb_true_iff in H. destruct H as [H1 H2]. split.
  - apply Forall_forall. rewrite forallb_forall in H1. assumption.
  - intro; subst n. discriminate.
Qed.

Lemma upper_length : forall s, length (upper s) = length s.
Proof. intro; apply length_map. Qed.

Lemma matches_word_alts : forall ic txt rs s e,
  matches ic txt (Seq Bnd (Seq (Alts rs) Bnd)) s e <->
  at_boundary txt s = true /\ at_boundary txt e = true /\
  exists r, In r rs /\ matches ic txt r s e.
Proof.
  intros ic txt rs s e. generalize (Alts rs) (matches_Alts ic txt rs).
  intros a Ha; split.
  - intro H.
    inversion H as [ | | | |r1 r2 p1 mid e1 H1 H2| | | | ]; subst.
    inversion H1; subst.
    inversion H2 as [ | | | |r1 r2 p1 mid' e1 H3 H4| | | | ]; subst.
    inversion H4; subst.
    apply Ha in H3. auto.
  - intros (Hs & He & Hr). apply Ha in Hr.
    econstructor; [constructor; assumption|].
    econstructor; [eassumption | constructor; assumption].
Qed.

(** [TABLE_RE] matches the whole-word occurrences of the vocabulary. *)
Lemma TABLE_RE_matches : forall txt s e,
  matches true txt TABLE_RE s e <-> occurrence txt s e.
Proof.
  intros txt s e; unfold TABLE_RE, occurrence. rewrite matches_word_alts. split.
  - intros (Hs & He & r & Hin & Hm).
    apply in_map_iff in Hin. destruct Hin as (n & Hr & Hin). subst r.
    apply matches_Lit in Hm. destruct Hm as [Hlen Hf].
    destruct (TABLE_NAMES_letters _ Hin) as [Hl Hne].
    apply Forall2_chr_eq_upper in Hf; [|assumption].
    repeat split; try assumption.
    + rewrite Hf; assumption.
    + destruct n; [congruence | simpl in Hlen; lia].
    + assert (Hlen' : length (slice txt s e) = length n)
        by (rewrite <- Hf; symmetry; apply upper_length).
      rewrite slice_length in Hlen'.
      destruct n; [congruence | simpl in *; lia].
  - intros (Hs & He & Hin & Hlt & Hle).
    destruct (TABLE_NAMES_letters _ Hin) as [Hl Hne].
    repeat split; try assumption.
    exists (Lit (upper (slice txt s e))). split.
    + apply in_map; assumption.
    + apply matches_Lit. split.
      * rewrite upper_length, slice_length. lia.
      * apply Forall2_chr_eq_upper; [assumption | reflexivity].
Qed.

(** ** Occurrences are whole words *)

Lemma word_at_nth : forall txt i c, nth_error txt i = Some c -> word_at txt i = is_word c.
Proof. intros txt i c H; unfold word_at; now rewrite H. Qed.

Lemma occurrence_inside : forall txt s e,
  occurrence txt s e -> forall i, s <= i < e -> word_at txt i = true.
Proof.
  intros txt s e (_ & _ & Hin & Hlt & Hle) i Hi.
  destruct (TABLE_NAMES_letters _ Hin) as [Hl _].
  rewrite Forall_forall in Hl.
  destruct (nth_error txt i) as [c|] eqn:Hc.
  - rewrite (word_at_nth _ _ _ Hc). apply upper_is_letter_word. apply Hl.
    unfold upper. apply in_map. apply (nth_error_In _ (i - s)).
    rewrite slice_nth. replace (s + (i - s)) with i by lia.
    destruct (i - s <? e - s) eqn:E; [assumption|].
    apply Nat.ltb_ge in E. lia.
  - apply nth_error_None in Hc. lia.
Qed.

Lemma occurrence_before : forall txt s e,
  occurrence txt s e -> s = 0 \/ word_at txt (s - 1) = false.
Proof.
  intros txt s e H. pose proof (occurrence_inside _ _ _ H s) as Hw.
  destruct H as (Hs & _ & _ & Hlt & _).
  unfold at_boundary in Hs. rewrite Hw in Hs by lia.
  destruct s as [|s]; [now left | right].
  simpl. rewrite Nat.sub_0_r. destruct (word_at txt s); [discriminate | reflexivity].
Qed.

Lemma occurrence_after : forall txt s e, occurrence txt s e -> word_at txt e = false.
Proof.
  intros txt s e H. pose proof (occurrence_inside _ _ _ H (e - 1)) as Hw.
  destruct H as (_ & He & _ & Hlt & _).
  unfold at_boundary in He. destruct e as [|e]; [lia|].
  simpl in Hw. rewrite Nat.sub_0_r in Hw. rewrite Hw in He by lia.
  destruct (word_at txt (S e)); [discriminate | reflexivity].
Qed.

Lemma occurrence_end_unique : forall txt s e e',
  occurrence txt s e -> occurrence txt s e' -> e = e'.
Proof.
  assert (Hlt : forall txt s e e', occurrence txt s e -> occurrence txt s e' -> ~ e < e').
  { intros txt s e e' H H' Hlt.
    pose proof (occurrence_after _ _ _ H) as Ha.
    pose proof (occurrence_inside _ _ _ H' e) as Hi.
    destruct H as (_ & _ & _ & Hse & _). rewrite Hi in Ha by lia. discriminate. }
  intros txt s e e' H H'.
  pose proof (Hlt _ _ _ _ H H'). pose proof (Hlt _ _ _ _ H' H). lia.
Qed.

(** Two occurrences do not overlap, and do not touch. *)
Lemma occurrence_apart : forall txt s e s' e',
  occurrence txt s e -> occurrence txt s' e' -> s < s' -> e < s'.
Proof.
  intros txt s e s' e' H H' Hlt.
  destruct (Nat.lt_ge_cases e s') as [|Hge]; [assumption | exfalso].
  destruct (Nat.eq_dec e s') as [Heq|Hne].
  - subst s'. pose proof (occurrence_after _ _ _ H) as Ha.
    pose proof (occurrence_inside _ _ _ H' e) as Hi.
    destruct H' as (_ & _ & _ & Hse & _). rewrite Hi in Ha by lia. discriminate.
  - destruct (occurrence_before _ _ _ H') as [H0|Hb]; [lia|].
    rewrite (occurrence_inside _ _ _ H (s' - 1)) in Hb by lia. discriminate.
Qed.

Lemma match_at_TABLE_RE : forall txt s e,
  match_at true txt TABLE_RE s = Some e <-> occurrence txt s e.
Proof.
  intros txt s e; split.
  - intro H. apply TABLE_RE_matches. apply match_at_sound; assumption.
  - intro H.
    destruct (match_at true txt TABLE_RE s) as [e'|] eqn:Hm.
    + f_equal. apply (occurrence_end_unique txt s); [|assumption].
      apply TABLE_RE_matches. apply match_at_sound; assumption.
    + exfalso. revert Hm. apply match_at_iff. exists e.
      apply TABLE_RE_matches; assumption.
Qed.

(** ** The matches of a text *)

Lemma finditer_from_sound : forall txt fuel pos m,
  In m (finditer_from true TABLE_RE txt fuel pos) ->
  pos <= m_start m /\ is_occurrence txt m.
Proof.
  intros txt; induction fuel as [|fuel IH]; intros pos m; simpl; [intros []|].
  destruct (length txt <? pos); [intros []|].
  destruct (match_at true txt TABLE_RE pos) as [e|] eqn:Hm.
  - apply match_at_TABLE_RE in Hm. intros [Heq|Hin].
    + subst m; simpl. split; [lia | assumption].
    + apply IH in Hin. destruct Hin as [Hle Ho]. split; [|assumption].
      destruct Hm as (_ & _ & _ & Hlt & _).
      destruct (e =? pos) eqn:E; [apply Nat.eqb_eq in E|]; lia.
  - intro Hin. apply IH in Hin. destruct Hin as [Hle Ho]. split; [lia | assumption].
Qed.

Lemma finditer_from_complete : forall txt fuel pos s e,
  occurrence txt s e -> pos <= s -> length txt + 1 <= fuel + pos ->
  In {| m_start := s; m_end := e |} (finditer_from true TABLE_RE txt fuel pos).
Proof.
  intros txt; induction fuel as [|fuel IH]; intros pos s e Ho Hle Hf.
  - destruct Ho as (_ & _ & _ & Hlt & Hlen). lia.
  - simpl. pose proof Ho as (_ & _ & _ & Hlt & Hlen).
    destruct (length txt <? pos) eqn:E; [apply Nat.ltb_lt in E; lia|].
    destruct (match_at true txt TABLE_RE pos) as [e0|] eqn:Hm.
    + apply match_at_TABLE_RE in Hm.
      destruct (Nat.eq_dec pos s) as [Heq|Hne].
      * subst pos. left. f_equal. apply (occurrence_end_unique txt s); assumption.
      * right. pose proof (occurrence_apart _ _ _ _ _ Hm Ho ltac:(lia)) as Hap.
        pose proof Hm as (_ & _ & _ & Hlt0 & _).
        destruct (e0 =? pos) eqn:E0; [apply Nat.eqb_eq in E0; lia|].
        apply IH; [assumption | lia | lia].
    + apply IH; [assumption | | lia].
      destruct (Nat.eq_dec pos s) as [Heq|Hne]; [|lia].
      subst pos. apply match_at_TABLE_RE in Ho. congruence.
Qed.

Lemma finditer_from_sorted : forall txt fuel pos,
  StronglySorted apart (finditer_from true TABLE_RE txt fuel pos).
Proof.
  intros txt; induction fuel as [|fuel IH]; intros pos; simpl; [constructor|].
  destruct (length txt <? pos); [constructor|].
  destruct (match_at true txt TABLE_RE pos) as [e|] eqn:Hm; [|apply IH].
  constructor; [apply IH|].
  apply match_at_TABLE_RE in Hm.
  apply Forall_forall. intros m Hin. apply finditer_from_sound in Hin.
  destruct Hin as [Hle Ho]. unfold apart; simpl.
  apply (occurrence_apart txt pos e _ _ Hm Ho).
  destruct Hm as (_ & _ & _ & Hlt & _).
  destruct (e =? pos) eqn:E; [apply Nat.eqb_eq in E|]; lia.
Qed.

(** The matcher returns exactly the whole-word occurrences of the
    vocabulary. *)
Lemma finditer_occurrence : forall txt m,
  In m (TABLE_RE_finditer txt) <-> is_occurrence txt m.
Proof.
  intros txt m; split.
  - intro H. apply (finditer_from_sound txt _ _ _ H).
  - intro H. destruct m as [s e]. apply finditer_from_complete; [assumption | lia | lia].
Qed.

Lemma finditer_sorted : forall txt, StronglySorted apart (TABLE_RE_finditer txt).
Proof. intro; apply finditer_from_sorted. Qed.

(** Sorting the matches by their start leaves them as they are. *)
Lemma sorted_by_start_finditer : forall txt,
  sorted_by_start (TABLE_RE_finditer txt) = TABLE_RE_finditer txt.
Proof.
  intro txt. pose proof (finditer_sorted txt) as Hs.
  assert (Ho : Forall (is_occurrence txt) (TABLE_RE_finditer txt))
    by (apply Forall_forall; intros m Hm; now apply finditer_occurrence).
  induction (TABLE_RE_finditer txt) as [|m l IH]; [reflexivity|].
  inversion Hs as [|? ? Hs' Hap]; subst. inversion Ho as [|? ? Hm Ho']; subst.
  simpl. rewrite (IH Hs' Ho'). destruct l as [|x l']; [reflexivity|]. simpl.
  inversion Hap as [|? ? Hx _]; subst. unfold apart in Hx.
  destruct Hm as (_ & _ & _ & Hlt & _).
  destruct (m_start m <=? m_start x) eqn:E; [reflexivity|].
  apply Nat.leb_gt in E. lia.
Qed.

(** ** The loop on the matches of the vocabulary *)

(** Every name of the vocabulary has its replacement and a note that is
    not empty. *)
Lemma TABLE_MAP_entry : forall n,
  In n TABLE_NAMES ->
  exists new c note,
    dict_get TABLE_MAP n = Some [(L "new", new); (L "note", c :: note)].
Proof.
  assert (H : forallb (fun n =>
            match dict_get TABLE_MAP n with
            | Some [(k1, _); (k2, _ :: _)] => str_eqb k1 (L "new") && str_eqb k2 (L "note")
            | _ => false
            end) TABLE_NAMES = true) by (vm_compute; reflexivity).
  intros n Hin. rewrite forallb_forall in H. specialize (H n Hin).
  destruct (dict_get TABLE_MAP n) as [[|[k1 v1] [|[k2 [|c v2]] [|? ?]]]|]; try discriminate.
  apply andb_true_iff in H. destruct H as [H1 H2].
  apply str_eqb_eq in H1, H2. subst. eauto.
Qed.

Lemma name_of_occurrence : forall txt m,
  is_occurrence txt m -> In (name_of txt m) TABLE_NAMES.
Proof. intros txt m (_ & _ & H & _); exact H. Qed.

Lemma add_hit_issue_of : forall hits txt m,
  _add_hit hits (span m) (name_of txt m)
    (L "Replaced " ++ name_of txt m ++ L " with " ++ new_of (name_of txt m) ++ L ".")
    txt (note_of (name_of txt m))
  = hits ++ [issue_of txt m].
Proof. reflexivity. Qed.

Lemma loop_body_occurrence : forall mk txt st m,
  is_occurrence txt m -> loop_body mk txt st m = Ok (step mk txt st m).
Proof.
  intros mk txt st m Ho. pose proof (name_of_occurrence _ _ Ho) as Hn.
  destruct (TABLE_MAP_entry _ Hn) as (new & c & note & Hg).
  unfold loop_body, step, is_protected.
  fold (name_of txt m). rewrite Hg.
  destruct (skip_condition (name_of txt m) (line_of txt m)); [reflexivity|].
  assert (Hnew : new_of (name_of txt m) = new) by (unfold new_of; rewrite Hg; reflexivity).
  assert (Hnote : note_of (name_of txt m) = Some (c :: note))
    by (unfold note_of; rewrite Hg; reflexivity).
  change (subscript [(L "new", new); (L "note", c :: note)] (L "new")) with (Ok new).
  change (dict_get [(L "new", new); (L "note", c :: note)] (L "note")) with (Some (c :: note)).
  cbn [bind]. rewrite <- Hnote. rewrite <- Hnew at 1 2.
  rewrite add_hit_issue_of. reflexivity.
Qed.

Lemma for_each_occurrences : forall mk txt ms st,
  Forall (is_occurrence txt) ms ->
  for_each (loop_body mk txt) ms st = Ok (fold_left (step mk txt) ms st).
Proof.
  intros mk txt; induction ms as [|m ms IH]; intros st H; simpl; [reflexivity|].
  inversion H; subst. rewrite loop_body_occurrence by assumption. simpl.
  apply IH; assumption.
Qed.

Lemma fold_step_issues : forall mk txt ms st,
  issues (fold_left (step mk txt) ms st)
  = issues st ++ map (issue_of txt) (filter (is_rewritable txt) ms).
Proof.
  intros mk txt; induction ms as [|m ms IH]; intros st; simpl.
  - now rewrite app_nil_r.
  - rewrite IH. unfold step, is_rewritable.
    destruct (is_protected txt m); simpl; [reflexivity|].
    now rewrite <- app_assoc.
Qed.

Lemma fold_step_text : forall mk txt ms st,
  concat (remediated_parts (fold_left (step mk txt) ms st))
    ++ slice_from txt (last_idx (fold_left (step mk txt) ms st))
  = concat (remediated_parts st) ++ render mk txt (last_idx st) ms.
Proof.
  intros mk txt; induction ms as [|m ms IH]; intros st; simpl; [reflexivity|].
  rewrite IH. unfold step.
  destruct (is_protected txt m); simpl; rewrite concat_app; simpl;
    rewrite ?app_nil_r, <- ?app_assoc; reflexivity.
Qed.

(** The engine in closed form: it never raises, the text is [render] of
    the matches and the issues are those of the Rewritable matches, in
    the order of the matches. *)
Lemma remediate_code_eq : forall now txt,
  remediate_code now txt
  = Ok (render (change_marker_of (strftime_Ymd now)) txt 0 (TABLE_RE_finditer txt),
        map (issue_of txt) (filter (is_rewritable txt) (TABLE_RE_finditer txt))).
Proof.
  intros now txt. destruct txt as [|c txt]; [reflexivity|].
  unfold remediate_code. rewrite sorted_by_start_finditer.
  rewrite for_each_occurrences
    by (apply Forall_forall; intros m Hm; now apply finditer_occurrence).
  cbn [bind]. rewrite concat_app. cbn [concat]. rewrite app_nil_r.
  rewrite fold_step_text, fold_step_issues. reflexivity.
Qed.

Lemma no_match_iff : forall txt,
  TABLE_RE_finditer txt = [] <-> (forall s e, ~ occurrence txt s e).
Proof.
  intro txt; split.
  - intros H s e Ho.
    assert (Hin : In {| m_start := s; m_end := e |} (TABLE_RE_finditer txt))
      by (apply finditer_occurrence; exact Ho).
    rewrite H in Hin. destruct Hin.
  - intro H. destruct (TABLE_RE_finditer txt) as [|m l] eqn:E; [reflexivity|].
    exfalso. apply (H (m_start m) (m_end m)).
    apply (finditer_occurrence txt m). rewrite E. now left.
Qed.

Lemma filter_apart_sorted : forall txt f l,
  Forall (is_occurrence txt) l -> StronglySorted apart l ->
  StronglySorted (fun a b => m_start a < m_start b) (filter f l).
Proof.
  intros txt f; induction l as [|m l IH]; intros Ho Hs; simpl; [constructor|].
  inversion Ho as [|? ? Hm Ho']; subst. inversion Hs as [|? ? Hs' Hap]; subst.
  destruct (f m); [|apply IH; assumption].
  constructor; [apply IH; assumption|].
  apply Forall_forall. intros x Hx. apply filter_In in Hx. destruct Hx as [Hx _].
  rewrite Forall_forall in Hap. specialize (Hap x Hx). unfold apart in Hap.
  destruct Hm as (_ & _ & _ & Hlt & _). lia.
Qed.

Lemma finditer_all_occurrences : forall txt, Forall (is_occurrence txt) (TABLE_RE_finditer txt).
Proof. intro txt; apply Forall_forall; intros m Hm; now apply finditer_occurrence. Qed.

(** C8. The engine never raises: every text gives a result; the empty
    text gives the empty text and no issue; a text with no whole-word
    occurrence of a vocabulary name comes back unchanged with no issue. *)
Theorem remediate_code_never_raises :
  (forall now txt, exists out iss, remediate_code now txt = Ok (out, iss))
  /\ (forall now, remediate_code now [] = Ok ([], []))
  /\ (forall now txt, (forall s e, ~ occurrence txt s e) ->
        remediate_code now txt = Ok (txt, [])).
Proof.
  split; [|split].
  - intros now txt. rewrite remediate_code_eq. eauto.
  - intros now. reflexivity.
  - intros now txt H. rewrite remediate_code_eq.
    apply no_match_iff in H. rewrite H. reflexivity.
Qed.

Lemma remediate_code_never_raises_witness :
  (forall s e, ~ occurrence (L "SELECT matnr FROM mara INTO TABLE lt_mara.") s e)
  /\ remediate_code morning (L "SELECT matnr FROM mara INTO TABLE lt_mara.")
     = Ok (L "SELECT matnr FROM mara INTO TABLE lt_mara.", []).
Proof.
  assert (H : forall s e, ~ occurrence (L "SELECT matnr FROM mara INTO TABLE lt_mara.") s e)
    by (apply no_match_iff; vm_compute; reflexivity).
  split; [exact H|].
  exact (proj2 (proj2 remediate_code_never_raises) morning _ H).
Defined.


Lemma filter_class_rewritable : forall txt l,
  filter (fun m => class_eqb (classify txt m) Rewritable) l = filter (is_rewritable txt) l.
Proof.
  intros txt l. apply filter_ext. intro m. unfold classify, is_rewritable.
  destruct (is_protected txt m); reflexivity.
Qed.

Lemma filter_class_protected : forall txt l,
  filter (fun m => class_eqb (classify txt m) Protected) l = filter (is_protected txt) l.
Proof.
  intros txt l. apply filter_ext. intro m. unfold classify.
  destruct (is_protected txt m); reflexivity.
Qed.

Lemma filter_complement_length : forall (A : Type) (f : A -> bool) l,
  length (filter (fun x => negb (f x)) l) + length (filter f l) = length l.
Proof.
  intros A f; induction l as [|x l IH]; simpl; [reflexivity|].
  destruct (f x); simpl; lia.
Qed.



Lemma TABLE_MAP_new_differs : forall n,
  In n TABLE_NAMES ->
  exists info new,
    dict_get TABLE_MAP n = Some info /\ dict_get info (L "new") = Some new
    /\ new_of n = new /\ new <> n.
Proof.
  assert (H : forallb (fun n => negb (str_eqb (new_of n) n)) TABLE_NAMES = true)
    by (vm_compute; reflexivity).
  intros n Hin. rewrite forallb_forall in H. specialize (H n Hin).
  destruct (TABLE_MAP_entry _ Hin) as (new & c & note & Hg).
  assert (Hnew : new_of n = new) by (unfold new_of; rewrite Hg; reflexivity).
  exists [(L "new", new); (L "note", c :: note)], new.
  repeat split; try assumption; try reflexivity.
  intro Heq. rewrite Hnew, Heq, str_eqb_refl in H. discriminate.
Qed.

Lemma Forall2_map_issue : forall (P : Match -> Issue -> Prop) txt l,
  Forall (fun m => P m (issue_of txt m)) l -> Forall2 P l (map (issue_of txt) l).
Proof.
  intros P txt; induction l as [|m l IH]; intro H; simpl; [constructor|].
  inversion H; subst. constructor; [assumption | now apply IH].
Qed.



(** C3, as the code has it.  The issue list depends on the text alone;
    the remediated text depends on the text and on the date of the run,
    through the change marker: two runs on one date give one text. *)
Theorem outputs_depend_on_text_and_date : forall now1 now2 txt,
  exists out1 out2 iss,
    remediate_code now1 txt = Ok (out1, iss)
    /\ remediate_code now2 txt = Ok (out2, iss)
    /\ (strftime_Ymd now1 = strftime_Ymd now2 -> out1 = out2).
Proof.
  intros now1 now2 txt. rewrite !remediate_code_eq. eexists _, _, _.
  split; [reflexivity|]. split; [reflexivity|].
  intro H. rewrite H. reflexivity.
Qed.

Lemma outputs_depend_on_text_and_date_witness :
  strftime_Ymd morning = strftime_Ymd evening
  /\ remediate_code morning (L "SELECT * FROM mseg.")
     = remediate_code evening (L "SELECT * FROM mseg.").
Proof.
  assert (H : strftime_Ymd morning = strftime_Ymd evening) by reflexivity.
  split; [exact H|].
  destruct (outputs_depend_on_text_and_date morning evening (L "SELECT * FROM mseg."))
    as (out1 & out2 & iss & E1 & E2 & Heq).
  rewrite E1, E2, (Heq H). reflexivity.
Defined.

(** C3 as stated fails: two runs on one text, a day apart, give two
    remediated texts. *)
Lemma remediated_text_depends_on_the_clock :
  exists out1 out2 iss,
    remediate_code morning (L "SELECT * FROM MSEG.") = Ok (out1, iss)
    /\ remediate_code next_day (L "SELECT * FROM MSEG.") = Ok (out2, iss)
    /\ out1 <> out2.
Proof.
  eexists _, _, _. split; [vm_compute; reflexivity|].
  split; [vm_compute; reflexivity|]. vm_compute. discriminate.
Qed.

Lemma occurrence_of_token : forall txt pos n,
  In n TABLE_NAMES -> upper (slice txt pos (pos + length n)) = n ->
  (pos = 0 \/ word_at txt (pos - 1) = false) ->
  word_at txt (pos + length n) = false ->
  occurrence txt pos (pos + length n).
Proof.
  intros txt pos n Hin Hup Hb Ha.
  destruct (TABLE_NAMES_letters _ Hin) as [Hl Hne].
  assert (Hlen : length (slice txt pos (pos + length n)) = length n)
    by (rewrite <- Hup at 2; symmetry; apply upper_length).
  rewrite slice_length in Hlen.
  assert (Hpos : 0 < length n) by (destruct n; [congruence | simpl; lia]).
  assert (Hw : forall i, pos <= i < pos + length n -> word_at txt i = true).
  { intros i Hi. rewrite Forall_forall in Hl.
    destruct (nth_error txt i) as [c|] eqn:Hc.
    - rewrite (word_at_nth _ _ _ Hc). apply upper_is_letter_word. apply Hl.
      rewrite <- Hup. unfold upper. apply in_map. apply (nth_error_In _ (i - pos)).
      rewrite slice_nth. replace (pos + (i - pos)) with i by lia.
      destruct (i - pos <? pos + length n - pos) eqn:E; [assumption|].
      apply Nat.ltb_ge in E. lia.
    - apply nth_error_None in Hc. lia. }
  unfold occurrence. repeat split.
  - unfold at_boundary. rewrite (Hw pos) by lia.
    destruct pos as [|p]; [reflexivity|].
    destruct Hb as [Hb|Hb]; [discriminate|].
    simpl in Hb. rewrite Nat.sub_0_r in Hb. now rewrite Hb.
  - unfold at_boundary. rewrite Ha.
    destruct (pos + length n) as [|q] eqn:E; [lia|].
    rewrite (Hw q) by lia. reflexivity.
  - rewrite Hup; assumption.
  - lia.
  - lia.
Qed.



(** ** The two patterns of the protection rule *)

Lemma matches_Seq_iff : forall ic txt r1 r2 pos e,
  matches ic txt (Seq r1 r2) pos e <->
  exists mid, matches ic txt r1 pos mid /\ matches ic txt r2 mid e.
Proof.
  intros; split.
  - intro H; inversion H; subst; eauto.
  - intros (mid & H1 & H2); econstructor; eassumption.
Qed.

Lemma matches_Alt_iff : forall ic txt r1 r2 pos e,
  matches ic txt (Alt r1 r2) pos e <->
  matches ic txt r1 pos e \/ matches ic txt r2 pos e.
Proof.
  intros; split.
  - intro H; inversion H; subst; auto.
  - intros [H|H]; [apply M_AltL | apply M_AltR]; assumption.
Qed.

Lemma matches_Bnd_iff : forall ic txt pos e,
  matches ic txt Bnd pos e <-> e = pos /\ at_boundary txt pos = true.
Proof.
  intros; split.
  - intro H; inversion H; subst; auto.
  - intros [-> H]; constructor; assumption.
Qed.

Lemma matches_Cls_iff : forall ic txt p pos e,
  matches ic txt (Cls p) pos e <->
  e = S pos /\ exists d, nth_error txt pos = Some d /\ p d = true.
Proof.
  intros; split.
  - intro H; inversion H; subst; eauto.
  - intros [-> (d & Hd & Hp)]; econstructor; eassumption.
Qed.

Lemma seg_nil : forall txt pos, seg txt pos pos [].
Proof. intros; split; [simpl; lia | reflexivity]. Qed.

Lemma seg_cons : forall txt pos e d w,
  nth_error txt pos = Some d -> seg txt (S pos) e w -> seg txt pos e (d :: w).
Proof.
  intros txt pos e d w Hd [He Hs]. split; [simpl; lia|].
  rewrite (skipn_cons_nth _ _ _ Hd), Hs. reflexivity.
Qed.

Lemma seg_uncons : forall txt pos e d w,
  seg txt pos e (d :: w) -> nth_error txt pos = Some d /\ seg txt (S pos) e w.
Proof.
  intros txt pos e d w [He Hs]. simpl in He.
  assert (Hd : nth_error txt pos = Some d).
  { rewrite <- (Nat.add_0_r pos), <- nth_error_skipn, Hs. reflexivity. }
  split; [assumption|]. split; [lia|].
  rewrite (skipn_cons_nth _ _ _ Hd) in Hs. now inversion Hs.
Qed.

Lemma seg_app : forall txt a b c u v,
  seg txt a b u -> seg txt b c v -> seg txt a c (u ++ v).
Proof.
  intros txt a b c u v [Hb Hu] [Hc Hv]. split.
  - rewrite length_app; lia.
  - rewrite Hu, Hv. now rewrite app_assoc.
Qed.

Lemma seg_of_app : forall pre w post,
  seg (pre ++ w ++ post) (length pre) (length pre + length w) w.
Proof.
  intros pre w post. split; [reflexivity|].
  rewrite skipn_app, skipn_all, Nat.sub_diag. simpl.
  rewrite app_assoc, skipn_app.
  rewrite <- length_app, skipn_all, Nat.sub_diag. reflexivity.
Qed.

Lemma seg_slice : forall txt pos e w, seg txt pos e w -> slice txt pos e = w.
Proof.
  intros txt pos e w [He Hs]. unfold slice. rewrite Hs.
  replace (e - pos) with (length w + 0) by lia.
  rewrite firstn_app_2. simpl. apply app_nil_r.
Qed.

Lemma seg_text : forall txt e w, seg txt 0 e w -> txt = w ++ skipn e txt.
Proof. intros txt e w [_ Hs]. exact Hs. Qed.

Lemma matches_Lit_seg : forall txt n pos e,
  matches false txt (Lit n) pos e <-> seg txt pos e n.
Proof.
  intros txt; induction n as [|c n IH]; intros pos e; simpl.
  - split.
    + intro H; inversion H; subst. apply seg_nil.
    + intros [He _]. simpl in He. replace e with pos by lia. constructor.
  - rewrite matches_Seq_iff. split.
    + intros (mid & H1 & H2). inversion H1 as [|c' d pos' Hd Hc| | | | | | |]; subst.
      apply chr_eq_exact in Hc. subst d. apply seg_cons; [assumption|].
      apply IH; assumption.
    + intro H. apply seg_uncons in H. destruct H as [Hd Hs].
      exists (S pos). split.
      * econstructor; [eassumption | now apply chr_eq_exact].
      * apply IH; assumption.
Qed.

Lemma matches_Star_seg : forall ic txt p pos e,
  matches ic txt (Star p) pos e <->
  exists w, seg txt pos e w /\ Forall (fun c => p c = true) w.
Proof.
  intros ic txt p pos e; split.
  - intro H. remember (Star p) as r eqn:Hr. revert Hr.
    induction H as [ | | | | | | |q pos|q d pos e Hd Hp Hrest IH]; intro Hr;
      try discriminate; inversion Hr; subst q.
    + exists []. split; [apply seg_nil | constructor].
    + destruct (IH eq_refl) as (w & Hs & Hf).
      exists (d :: w). split; [now apply seg_cons | now constructor].
  - intros (w & Hs & Hf). revert pos Hs.
    induction Hf as [|d w Hd Hf IH]; intros pos Hs.
    + destruct Hs as [He _]. simpl in He. replace e with pos by lia. constructor.
    + apply seg_uncons in Hs. destruct Hs as [Hn Hs].
      econstructor; [eassumption | assumption | now apply IH].
Qed.

Lemma matches_Plus_seg : forall ic txt p pos e,
  matches ic txt (Plus p) pos e <->
  exists w, seg txt pos e w /\ w <> [] /\ Forall (fun c => p c = true) w.
Proof.
  intros ic txt p pos e. unfold Plus. rewrite matches_Seq_iff. split.
  - intros (mid & H1 & H2). apply matches_Cls_iff in H1.
    destruct H1 as [-> (d & Hd & Hp)].
    apply matches_Star_seg in H2. destruct H2 as (w & Hs & Hf).
    exists (d :: w). split; [now apply seg_cons|]. split; [discriminate | now constructor].
  - intros (w & Hs & Hne & Hf). destruct w as [|d w]; [congruence|].
    apply seg_uncons in Hs. destruct Hs as [Hd Hs]. inversion Hf; subst.
    exists (S pos). split.
    + apply matches_Cls_iff. eauto.
    + apply matches_Star_seg. eauto.
Qed.

Lemma re_match_iff : forall r s,
  re_match r s = true <-> exists e, matches false s r 0 e.
Proof.
  intros r s. unfold re_match. rewrite <- match_at_iff.
  destruct (match_at false s r 0); split; intro H; congruence.
Qed.

Lemma ends_word_app : forall x y,
  ends_word (x ++ y) = match y with [] => ends_word x | _ => ends_word y end.
Proof.
  intros x y. unfold ends_word. rewrite rev_app_distr.
  destruct y as [|c y]; [reflexivity|].
  destruct (rev (c :: y)) as [|d r] eqn:E; [|reflexivity].
  apply (f_equal (@length ascii)) in E. rewrite length_rev in E. discriminate.
Qed.

Lemma ends_word_spaces : forall x ws,
  ws <> [] -> all_space ws -> ends_word (x ++ ws) = false.
Proof.
  intros x ws Hne Hs. rewrite ends_word_app. destruct ws as [|c ws]; [congruence|].
  unfold ends_word. destruct (rev (c :: ws)) as [|d r] eqn:E; [reflexivity|].
  apply space_not_word. unfold all_space in Hs. rewrite Forall_forall in Hs. apply Hs.
  apply in_rev. rewrite E. now left.
Qed.

Lemma word_at_skipn : forall txt e, word_at txt e = starts_word (skipn e txt).
Proof.
  intros txt e. unfold word_at, starts_word.
  rewrite <- hd_error_skipn. destruct (skipn e txt); reflexivity.
Qed.

Lemma word_at_firstn : forall txt p,
  S p <= length txt -> word_at txt p = ends_word (firstn (S p) txt).
Proof.
  intros txt p Hle. unfold word_at.
  destruct (nth_error txt p) as [c|] eqn:Hc.
  - assert (Hf : firstn (S p) txt = firstn p txt ++ [c]).
    { assert (Hlen : length (firstn p txt) = p) by (apply firstn_length_le; lia).
      rewrite <- (firstn_skipn p txt) at 1.
      rewrite (skipn_cons_nth _ _ _ Hc).
      replace (S p) with (length (firstn p txt) + 1) by lia.
      rewrite firstn_app_2. reflexivity. }
    rewrite Hf, ends_word_app. reflexivity.
  - apply nth_error_None in Hc. lia.
Qed.

Lemma at_boundary_split : forall txt e,
  e <= length txt ->
  at_boundary txt e = xorb (ends_word (firstn e txt)) (starts_word (skipn e txt)).
Proof.
  intros txt e Hle. unfold at_boundary. rewrite <- word_at_skipn.
  destruct e as [|p]; [reflexivity|]. now rewrite word_at_firstn.
Qed.

(** The assertion behind a name that follows whitespace. *)
Lemma boundary_after_name : forall x name rest,
  ends_word x = false ->
  at_boundary (x ++ name ++ rest) (length x + length name)
  = xorb (ends_word name) (starts_word rest).
Proof.
  intros x name rest Hx.
  rewrite at_boundary_split by (rewrite !length_app; lia).
  rewrite app_assoc, <- length_app.
  rewrite firstn_app, firstn_all, Nat.sub_diag, firstn_0, app_nil_r.
  rewrite skipn_app, skipn_all, Nat.sub_diag. simpl.
  rewrite ends_word_app. destruct name; [now rewrite Hx | reflexivity].
Qed.

(** What [\s*(UPDATE|MODIFY)\s+NAME\b] accepts. *)
Lemma UPDATE_RE_line : forall name line,
  re_match (UPDATE_RE name) line = true <->
  exists ws kw ws1 rest,
    line = ws ++ kw ++ ws1 ++ name ++ rest
    /\ all_space ws /\ (kw = L "UPDATE" \/ kw = L "MODIFY")
    /\ ws1 <> [] /\ all_space ws1 /\ word_boundary name rest.
Proof.
  intros name line. rewrite re_match_iff. unfold UPDATE_RE. split.
  - intros (e & H).
    apply matches_Seq_iff in H. destruct H as (a & Ha & H).
    apply matches_Seq_iff in H. destruct H as (b & Hb & H).
    apply matches_Seq_iff in H. destruct H as (c & Hc & H).
    apply matches_Seq_iff in H. destruct H as (d & Hd & H).
    apply matches_Bnd_iff in H. destruct H as [-> Hbnd].
    apply matches_Star_seg in Ha. destruct Ha as (ws & Sws & Fws).
    apply matches_Plus_seg in Hc. destruct Hc as (ws1 & Sws1 & Nws1 & Fws1).
    apply matches_Lit_seg in Hd.
    assert (Hkw : exists kw, seg line a b kw /\ (kw = L "UPDATE" \/ kw = L "MODIFY")).
    { apply matches_Alt_iff in Hb. destruct Hb as [Hb|Hb]; apply matches_Lit_seg in Hb; eauto. }
    destruct Hkw as (kw & Skw & Hkw).
    pose proof (seg_app _ _ _ _ _ _ Sws (seg_app _ _ _ _ _ _ Skw Sws1)) as Spre.
    pose proof (seg_text _ _ _ (seg_app _ _ _ _ _ _ Spre Hd)) as Htxt.
    assert (Hdd : d = length (ws ++ kw ++ ws1) + length name)
      by (destruct Spre as [E _]; destruct Hd as [E' _]; lia).
    remember (skipn d line) as rest eqn:Hrest. clear Hrest.
    exists ws, kw, ws1, rest.
    rewrite <- !app_assoc in Htxt. split; [exact Htxt|].
    repeat (split; [assumption|]).
    unfold word_boundary. rewrite <- Hbnd. symmetry.
    rewrite Htxt, Hdd.
    replace (ws ++ kw ++ ws1 ++ name ++ rest)
      with ((ws ++ kw ++ ws1) ++ name ++ rest)
      by (rewrite <- !app_assoc; reflexivity).
    apply boundary_after_name.
    rewrite app_assoc. apply ends_word_spaces; assumption.
  - intros (ws & kw & ws1 & rest & Htxt & Fws & Hkw & Nws1 & Fws1 & Hb).
    exists (length (ws ++ kw ++ ws1) + length name).
    apply matches_Seq_iff. exists (length ws). split.
    { apply matches_Star_seg. exists ws. split; [|assumption].
      subst line. apply (seg_of_app [] ws). }
    apply matches_Seq_iff. exists (length ws + length kw). split.
    { assert (Sk : seg line (length ws) (length ws + length kw) kw)
        by (subst line; apply seg_of_app).
      apply matches_Alt_iff.
      destruct Hkw as [-> | ->]; [left | right]; apply matches_Lit_seg; exact Sk. }
    apply matches_Seq_iff. exists (length (ws ++ kw) + length ws1). split.
    { apply matches_Plus_seg. exists ws1. split; [|split; assumption].
      rewrite <- length_app. subst line.
      replace (ws ++ kw ++ ws1 ++ name ++ rest)
        with ((ws ++ kw) ++ ws1 ++ name ++ rest) by (rewrite <- !app_assoc; reflexivity).
      apply seg_of_app. }
    apply matches_Seq_iff. exists (length (ws ++ kw ++ ws1) + length name). split.
    { apply matches_Lit_seg.
      replace (length (ws ++ kw) + length ws1) with (length (ws ++ kw ++ ws1))
        by (rewrite !length_app; lia).
      subst line.
      replace (ws ++ kw ++ ws1 ++ name ++ rest)
        with ((ws ++ kw ++ ws1) ++ name ++ rest) by (rewrite <- !app_assoc; reflexivity).
      apply seg_of_app. }
    apply matches_Bnd_iff. split; [reflexivity|].
    subst line.
    replace (ws ++ kw ++ ws1 ++ name ++ rest)
      with ((ws ++ kw ++ ws1) ++ name ++ rest) by (rewrite <- !app_assoc; reflexivity).
    rewrite boundary_after_name; [exact Hb|].
    rewrite app_assoc. apply ends_word_spaces; assumption.
Qed.

(** What [\s*DELETE\s+FROM\s+NAME\b] accepts. *)
Lemma DELETE_RE_line : forall name line,
  re_match (DELETE_RE name) line = true <->
  exists ws ws1 ws2 rest,
    line = ws ++ L "DELETE" ++ ws1 ++ L "FROM" ++ ws2 ++ name ++ rest
    /\ all_space ws /\ ws1 <> [] /\ all_space ws1
    /\ ws2 <> [] /\ all_space ws2 /\ word_boundary name rest.
Proof.
  intros name line. rewrite re_match_iff. unfold DELETE_RE.
  set (DEL := L "DELETE"). set (FROM := L "FROM"). split.
  - intros (e & H).
    apply matches_Seq_iff in H. destruct H as (a & Ha & H).
    apply matches_Seq_iff in H. destruct H as (b & Hb & H).
    apply matches_Seq_iff in H. destruct H as (c & Hc & H).
    apply matches_Seq_iff in H. destruct H as (d & Hd & H).
    apply matches_Seq_iff in H. destruct H as (f & Hf & H).
    apply matches_Seq_iff in H. destruct H as (g & Hg & H).
    apply matches_Bnd_iff in H. destruct H as [-> Hbnd].
    apply matches_Star_seg in Ha. destruct Ha as (ws & Sws & Fws).
    apply matches_Lit_seg in Hb.
    apply matches_Plus_seg in Hc. destruct Hc as (ws1 & Sws1 & Nws1 & Fws1).
    apply matches_Lit_seg in Hd.
    apply matches_Plus_seg in Hf. destruct Hf as (ws2 & Sws2 & Nws2 & Fws2).
    apply matches_Lit_seg in Hg.
    pose proof (seg_app _ _ _ _ _ _ Sws
                 (seg_app _ _ _ _ _ _ Hb
                   (seg_app _ _ _ _ _ _ Sws1
                     (seg_app _ _ _ _ _ _ Hd Sws2)))) as Spre.
    pose proof (seg_text _ _ _ (seg_app _ _ _ _ _ _ Spre Hg)) as Htxt.
    assert (Hgg : g = length (ws ++ DEL ++ ws1 ++ FROM ++ ws2) + length name)
      by (destruct Spre as [E _]; destruct Hg as [E' _]; lia).
    remember (skipn g line) as rest eqn:Hrest. clear Hrest.
    exists ws, ws1, ws2, rest.
    rewrite <- !app_assoc in Htxt. split; [exact Htxt|].
    repeat (split; [assumption|]).
    unfold word_boundary. rewrite <- Hbnd. symmetry.
    rewrite Htxt, Hgg.
    replace (ws ++ DEL ++ ws1 ++ FROM ++ ws2 ++ name ++ rest)
      with ((ws ++ DEL ++ ws1 ++ FROM ++ ws2) ++ name ++ rest)
      by (rewrite <- !app_assoc; reflexivity).
    apply boundary_after_name.
    rewrite !app_assoc. apply ends_word_spaces; assumption.
  - intros (ws & ws1 & ws2 & rest & Htxt & Fws & Nws1 & Fws1 & Nws2 & Fws2 & Hb).
    exists (length (ws ++ DEL ++ ws1 ++ FROM ++ ws2) + length name).
    apply matches_Seq_iff. exists (length ws). split.
    { apply matches_Star_seg. exists ws. split; [|assumption].
      subst line. apply (seg_of_app [] ws). }
    apply matches_Seq_iff. exists (length ws + length DEL). split.
    { apply matches_Lit_seg. subst line. apply seg_of_app. }
    apply matches_Seq_iff. exists (length (ws ++ DEL) + length ws1). split.
    { apply matches_Plus_seg. exists ws1. split; [|split; assumption].
      rewrite <- length_app. subst line.
      replace (ws ++ DEL ++ ws1 ++ FROM ++ ws2 ++ name ++ rest)
        with ((ws ++ DEL) ++ ws1 ++ FROM ++ ws2 ++ name ++ rest)
        by (rewrite <- !app_assoc; reflexivity).
      apply seg_of_app. }
    apply matches_Seq_iff. exists (length (ws ++ DEL ++ ws1) + length FROM). split.
    { apply matches_Lit_seg.
      replace (length (ws ++ DEL) + length ws1) with (length (ws ++ DEL ++ ws1))
        by (rewrite !length_app; lia).
      subst line.
      replace (ws ++ DEL ++ ws1 ++ FROM ++ ws2 ++ name ++ rest)
        with ((ws ++ DEL ++ ws1) ++ FROM ++ ws2 ++ name ++ rest)
        by (rewrite <- !app_assoc; reflexivity).
      apply seg_of_app. }
    apply matches_Seq_iff. exists (length (ws ++ DEL ++ ws1 ++ FROM) + length ws2). split.
    { apply matches_Plus_seg. exists ws2. split; [|split; assumption].
      replace (length (ws ++ DEL ++ ws1) + length FROM)
        with (length (ws ++ DEL ++ ws1 ++ FROM))
        by (rewrite !length_app; lia).
      subst line.
      replace (ws ++ DEL ++ ws1 ++ FROM ++ ws2 ++ name ++ rest)
        with ((ws ++ DEL ++ ws1 ++ FROM) ++ ws2 ++ name ++ rest)
        by (rewrite <- !app_assoc; reflexivity).
      apply seg_of_app. }
    apply matches_Seq_iff.
    exists (length (ws ++ DEL ++ ws1 ++ FROM ++ ws2) + length name). split.
    { apply matches_Lit_seg.
      replace (length (ws ++ DEL ++ ws1 ++ FROM) + length ws2)
        with (length (ws ++ DEL ++ ws1 ++ FROM ++ ws2))
        by (rewrite !length_app; lia).
      subst line.
      replace (ws ++ DEL ++ ws1 ++ FROM ++ ws2 ++ name ++ rest)
        with ((ws ++ DEL ++ ws1 ++ FROM ++ ws2) ++ name ++ rest)
        by (rewrite <- !app_assoc; reflexivity).
      apply seg_of_app. }
    apply matches_Bnd_iff. split; [reflexivity|].
    subst line.
    replace (ws ++ DEL ++ ws1 ++ FROM ++ ws2 ++ name ++ rest)
      with ((ws ++ DEL ++ ws1 ++ FROM ++ ws2) ++ name ++ rest)
      by (rewrite <- !app_assoc; reflexivity).
    rewrite boundary_after_name; [exact Hb|].
    rewrite !app_assoc. apply ends_word_spaces; assumption.
Qed.

(** The condition of the engine is the protection rule of the
    specification. *)
Lemma skip_condition_iff : forall name line,
  skip_condition name line = true <-> protected_line line name.
Proof.
  intros name line. unfold skip_condition, protected_line.
  rewrite orb_true_iff, UPDATE_RE_line, DELETE_RE_line. reflexivity.
Qed.

(** ** The enclosing line *)

Lemma is_newline_iff : forall c, ascii_eqb c newline = true <-> c = newline.
Proof. intro; apply ascii_eqb_eq. Qed.

Lemma find_from_spec : forall s pos,
  (find_from s pos = (-1)%Z /\ forall i, nth_error s i <> Some newline)
  \/ (exists k, find_from s pos = Z.of_nat (pos + k)
        /\ nth_error s k = Some newline
        /\ forall i, i < k -> nth_error s i <> Some newline).
Proof.
  induction s as [|c s IH]; intros pos; simpl.
  - left. split; [reflexivity|]. intros [|i]; discriminate.
  - destruct (ascii_eqb c newline) eqn:E.
    + right. exists 0. apply is_newline_iff in E. subst c.
      split; [f_equal; lia|]. split; [reflexivity|]. intros i Hi; lia.
    + assert (Hc : c <> newline)
        by (intro Hc; apply is_newline_iff in Hc; congruence).
      destruct (IH (S pos)) as [[Hr Hn]|(k & Hr & Hk & Hn)].
      * left. split; [assumption|]. intros [|i]; simpl; [congruence | apply Hn].
      * right. exists (S k). split; [rewrite Hr; f_equal; lia|].
        split; [assumption|]. intros [|i] Hi; simpl; [congruence | apply Hn; lia].
Qed.

Lemma rfind_upto_spec : forall s pos last,
  (rfind_upto s pos last = last /\ forall i, nth_error s i <> Some newline)
  \/ (exists k, rfind_upto s pos last = Z.of_nat (pos + k)
        /\ nth_error s k = Some newline
        /\ forall i, k < i -> nth_error s i <> Some newline).
Proof.
  induction s as [|c s IH]; intros pos last; simpl.
  - left. split; [reflexivity|]. intros [|i]; discriminate.
  - destruct (ascii_eqb c newline) eqn:E.
    + apply is_newline_iff in E. subst c.
      destruct (IH (S pos) (Z.of_nat pos)) as [[Hr Hn]|(k & Hr & Hk & Hn)].
      * right. exists 0. split; [rewrite Hr; f_equal; lia|].
        split; [reflexivity|]. intros [|i] Hi; [lia | simpl; apply Hn].
      * right. exists (S k). split; [rewrite Hr; f_equal; lia|].
        split; [assumption|]. intros [|i] Hi; [lia | simpl; apply Hn; lia].
    + assert (Hc : c <> newline)
        by (intro Hc; apply is_newline_iff in Hc; congruence).
      destruct (IH (S pos) last) as [[Hr Hn]|(k & Hr & Hk & Hn)].
      * left. split; [assumption|]. intros [|i]; simpl; [congruence | apply Hn].
      * right. exists (S k). split; [rewrite Hr; f_equal; lia|].
        split; [assumption|]. intros [|i] Hi; [lia | simpl; apply Hn; lia].
Qed.

(** [line_start]: just after the last newline before the match, or the
    start of the text. *)
Lemma line_start_spec : forall txt m,
  let ls := line_start_of txt m in
  ls <= m_start m
  /\ (ls = 0 \/ nth_error txt (ls - 1) = Some newline)
  /\ forall i, ls <= i < m_start m -> nth_error txt i <> Some newline.
Proof.
  intros txt m. unfold line_start_of, rfind_nl.
  destruct (rfind_upto_spec (firstn (m_start m) txt) 0 (-1)%Z)
    as [[Hr Hn]|(k & Hr & Hk & Hn)]; rewrite Hr; simpl.
  - split; [lia|]. split; [now left|].
    intros i Hi. specialize (Hn i). rewrite nth_error_firstn in Hn.
    destruct (i <? m_start m) eqn:E; [assumption|]. apply Nat.ltb_ge in E. lia.
  - assert (Hlt : k < m_start m).
    { rewrite nth_error_firstn in Hk.
      destruct (k <? m_start m) eqn:E; [now apply Nat.ltb_lt in E | discriminate]. }
    replace (Z.to_nat (Z.of_nat k + 1)) with (S k) by lia.
    split; [lia|]. split.
    + right. simpl. rewrite Nat.sub_0_r. rewrite nth_error_firstn in Hk.
      destruct (k <? m_start m); [assumption | discriminate].
    + intros i Hi. specialize (Hn i ltac:(lia)). rewrite nth_error_firstn in Hn.
      destruct (i <? m_start m) eqn:E; [assumption|]. apply Nat.ltb_ge in E. lia.
Qed.

(** [line_end]: the first newline from the end of the match on, or the
    end of the text. *)
Lemma line_end_spec : forall txt m,
  m_end m <= length txt ->
  let le := line_end_of txt m in
  m_end m <= le <= length txt
  /\ (le = length txt \/ nth_error txt le = Some newline)
  /\ forall i, m_end m <= i < le -> nth_error txt i <> Some newline.
Proof.
  intros txt m Hle. unfold line_end_of, find_nl.
  destruct (find_from_spec (skipn (m_end m) txt) (m_end m))
    as [[Hr Hn]|(k & Hr & Hk & Hn)]; rewrite Hr.
  - simpl. split; [lia|]. split; [now left|].
    intros i Hi. specialize (Hn (i - m_end m)). rewrite nth_error_skipn in Hn.
    replace (m_end m + (i - m_end m)) with i in Hn by lia. assumption.
  - rewrite nth_error_skipn in Hk.
    assert (Hlt : m_end m + k < length txt) by (apply nth_error_Some; congruence).
    destruct (Z.of_nat (m_end m + k) =? -1)%Z eqn:E; [apply Z.eqb_eq in E; lia|].
    rewrite Nat2Z.id. split; [lia|]. split; [now right|].
    intros i Hi. specialize (Hn (i - m_end m) ltac:(lia)). rewrite nth_error_skipn in Hn.
    replace (m_end m + (i - m_end m)) with i in Hn by lia. assumption.
Qed.

Lemma slice_split3 : forall (txt : str) lo hi,
  lo <= hi -> txt = firstn lo txt ++ slice txt lo hi ++ skipn hi txt.
Proof.
  intros txt lo hi H. unfold slice.
  replace (skipn hi txt) with (skipn (hi - lo) (skipn lo txt))
    by (rewrite skipn_skipn; f_equal; lia).
  now rewrite firstn_skipn, firstn_skipn.
Qed.

Lemma line_of_is_enclosing : forall txt m,
  is_occurrence txt m ->
  exists l, enclosing_line txt m l /\ line_of txt m = upper l.
Proof.
  intros txt m Ho. pose proof Ho as (_ & _ & _ & Hlt & Hlen).
  destruct (line_start_spec txt m) as (Hs1 & Hs2 & Hs3).
  destruct (line_end_spec txt m Hlen) as (He1 & He2 & He3).
  set (ls := line_start_of txt m) in *. set (le := line_end_of txt m) in *.
  exists (slice txt ls le). split; [|reflexivity].
  exists (firstn ls txt), (skipn le txt).
  assert (Hpre : length (firstn ls txt) = ls) by (apply firstn_length_le; lia).
  repeat split.
  - apply slice_split3; lia.
  - lia.
  - rewrite Hpre, slice_length. lia.
  - intro Hin. apply In_nth_error in Hin. destruct Hin as (i & Hi).
    rewrite slice_nth in Hi. destruct (i <? le - ls) eqn:E; [|discriminate].
    apply Nat.ltb_lt in E.
    destruct (Nat.lt_ge_cases (ls + i) (m_start m)) as [Ha|Ha];
      [apply (Hs3 (ls + i)); [lia | assumption]|].
    destruct (Nat.lt_ge_cases (ls + i) (m_end m)) as [Hb|Hb];
      [|apply (He3 (ls + i)); [lia | assumption]].
    pose proof (occurrence_inside _ _ _ Ho (ls + i) ltac:(lia)) as Hw.
    rewrite (word_at_nth _ _ _ Hi) in Hw. discriminate.
  - destruct Hs2 as [H0|Hn]; [left; rewrite H0; reflexivity|].
    destruct ls as [|p]; [now left | right]. simpl in Hn. rewrite Nat.sub_0_r in Hn.
    exists (firstn p txt).
    assert (Hp : length (firstn p txt) = p) by (apply firstn_length_le; lia).
    rewrite <- (firstn_skipn p txt) at 1. rewrite (skipn_cons_nth _ _ _ Hn).
    replace (S p) with (length (firstn p txt) + 1) by lia.
    rewrite firstn_app_2. reflexivity.
  - destruct He2 as [H0|Hn]; [left; rewrite H0; apply skipn_all | right].
    exists (skipn (S le) txt). apply skipn_cons_nth; assumption.
Qed.


(** ** The date of the change marker *)

Lemma zfill_digits : forall w hi n,
  forallb (fun k => digits_of_width w (zfill w (decimal k))) (seq 1 hi) = true ->
  1 <= n <= hi -> digits_of_width w (zfill w (decimal n)) = true.
Proof.
  intros w hi n H Hn. rewrite forallb_forall in H. apply H. apply in_seq. lia.
Qed.

Lemma year_digits : forall n, 1 <= n <= 9999 -> digits_of_width 4 (zfill 4 (decimal n)) = true.
Proof. intros n Hn. apply (zfill_digits 4 9999); [vm_compute; reflexivity | exact Hn]. Qed.

Lemma month_day_digits : forall n, 1 <= n <= 31 -> digits_of_width 2 (zfill 2 (decimal n)) = true.
Proof. intros n Hn. apply (zfill_digits 2 31); [vm_compute; reflexivity | exact Hn]. Qed.

Lemma digits_of_width_2 : forall s,
  digits_of_width 2 s = true ->
  exists a b, s = [a; b] /\ is_digit a = true /\ is_digit b = true.
Proof.
  intros [|a [|b [|c s]]] H; try discriminate.
  unfold digits_of_width in H. simpl in H.
  apply andb_true_iff in H. destruct H as [Ha H].
  apply andb_true_iff in H. destruct H as [Hb _]. eauto.
Qed.

Lemma digits_of_width_4 : forall s,
  digits_of_width 4 s = true ->
  exists a b c d, s = [a; b; c; d]
    /\ is_digit a = true /\ is_digit b = true /\ is_digit c = true /\ is_digit d = true.
Proof.
  intros [|a [|b [|c [|d [|e s]]]]] H; try discriminate.
  unfold digits_of_width in H. simpl in H.
  apply andb_true_iff in H. destruct H as [Ha H].
  apply andb_true_iff in H. destruct H as [Hb H].
  apply andb_true_iff in H. destruct H as [Hc H].
  apply andb_true_iff in H. destruct H as [Hd _].
  exists a, b, c, d. auto.
Qed.

(** The date of a run is written in the form YYYY-MM-DD. *)
Lemma strftime_Ymd_form : forall now, valid_date now -> is_date_form (strftime_Ymd now).
Proof.
  intros now (Hy & Hm & Hd). unfold strftime_Ymd.
  destruct (digits_of_width_4 _ (year_digits _ Hy)) as (y1 & y2 & y3 & y4 & Ey & D1 & D2 & D3 & D4).
  assert (Hm' : 1 <= month now <= 31) by lia.
  destruct (digits_of_width_2 _ (month_day_digits _ Hm')) as (m1 & m2 & Em & D5 & D6).
  destruct (digits_of_width_2 _ (month_day_digits _ Hd)) as (d1 & d2 & Ed & D7 & D8).
  rewrite Ey, Em, Ed. exists y1, y2, y3, y4, m1, m2, d1, d2.
  split; [reflexivity|]. repeat constructor; assumption.
Qed.

(** ** The text around a rewritten match *)

Lemma slice_app_mid : forall (txt : str) lo mid hi,
  lo <= mid <= hi -> slice txt lo hi = slice txt lo mid ++ slice txt mid hi.
Proof.
  intros txt lo mid hi H. unfold slice.
  rewrite <- (firstn_skipn (mid - lo) (firstn (hi - lo) (skipn lo txt))).
  rewrite firstn_firstn, skipn_firstn_comm, skipn_skipn.
  replace (Nat.min (mid - lo) (hi - lo)) with (mid - lo) by lia.
  replace (hi - lo - (mid - lo)) with (hi - mid) by lia.
  replace (mid - lo + lo) with mid by lia. reflexivity.
Qed.

Lemma slice_to_end : forall (txt : str) lo, slice txt lo (length txt) = skipn lo txt.
Proof.
  intros txt lo. unfold slice. apply firstn_all2. rewrite length_skipn. lia.
Qed.

Lemma render_app : forall mk txt l1 l2 st,
  concat (remediated_parts st) ++ render mk txt (last_idx st) (l1 ++ l2)
  = concat (remediated_parts (fold_left (step mk txt) l1 st))
      ++ render mk txt (last_idx (fold_left (step mk txt) l1 st)) l2.
Proof.
  intros mk txt; induction l1 as [|m l1 IH]; intros l2 st; simpl; [reflexivity|].
  rewrite <- IH. unfold step.
  destruct (is_protected txt m); simpl; rewrite concat_app; simpl;
    rewrite ?app_nil_r, <- ?app_assoc; reflexivity.
Qed.

(** After a match the text goes on with the original text up to the next
    match. *)
Lemma render_head : forall mk txt cur after,
  Forall (is_occurrence txt) after -> Forall (fun m => cur <= m_start m) after ->
  exists post, render mk txt cur after = slice txt cur (next_start txt after) ++ post.
Proof.
  intros mk txt cur [|m after] Ho Hc; simpl.
  - exists []. rewrite app_nil_r. symmetry. apply slice_to_end.
  - inversion Ho as [|? ? Hm _]; subst. inversion Hc as [|? ? Hle _]; subst.
    destruct Hm as (_ & _ & _ & Hlt & _).
    destruct (is_protected txt m).
    + rewrite (slice_app_mid txt cur (m_start m) (m_end m)) by lia.
      rewrite <- app_assoc. eauto.
    + eauto.
Qed.

Lemma sorted_app_cons : forall (l1 : list Match) m l2,
  StronglySorted apart (l1 ++ m :: l2) -> Forall (fun x => m_end m <= m_start x) l2.
Proof.
  induction l1 as [|x l1 IH]; intros m l2 H; simpl in H.
  - inversion H as [|? ? _ Hap]; subst. apply Forall_forall. intros y Hy.
    rewrite Forall_forall in Hap. specialize (Hap y Hy). unfold apart in Hap. lia.
  - inversion H; subst. apply IH; assumption.
Qed.



(** ** Letter case *)

Lemma upper_idem : forall s, upper (upper s) = upper s.
Proof.
  intro s. unfold upper. rewrite map_map. apply map_ext. apply upper_char_idem.
Qed.

Lemma upper_app : forall a b, upper (a ++ b) = upper a ++ upper b.
Proof. intros; apply map_app. Qed.

Lemma nth_error_upper : forall s i,
  nth_error (upper s) i = option_map upper_char (nth_error s i).
Proof. intros; apply nth_error_map. Qed.

Lemma word_at_upper : forall txt i, word_at (upper txt) i = word_at txt i.
Proof.
  intros txt i. unfold word_at. rewrite nth_error_upper.
  destruct (nth_error txt i); simpl; [apply is_word_upper_char | reflexivity].
Qed.

Lemma at_boundary_upper : forall txt pos, at_boundary (upper txt) pos = at_boundary txt pos.
Proof.
  intros txt pos. unfold at_boundary. rewrite word_at_upper.
  destruct pos; [reflexivity | now rewrite word_at_upper].
Qed.

Lemma chr_eq_upper_char : forall c d, chr_eq true c (upper_char d) = chr_eq true c d.
Proof. intros c d. unfold chr_eq. now rewrite lower_upper_char. Qed.

Lemma star_from_upper : forall txt p,
  (forall c, p (upper_char c) = p c) ->
  forall fuel pos k k', (forall q, k q = k' q) ->
  star_from txt p fuel pos k = star_from (upper txt) p fuel pos k'.
Proof.
  intros txt p Hp; induction fuel as [|fuel IH]; intros pos k k' Hk; simpl; [apply Hk|].
  rewrite nth_error_upper. destruct (nth_error txt pos) as [d|]; simpl; [|apply Hk].
  rewrite Hp. destruct (p d); [|apply Hk].
  rewrite <- (IH (S pos) k k' Hk).
  destruct (star_from txt p fuel (S pos) k); [reflexivity | apply Hk].
Qed.

(** Under [re.IGNORECASE] a case-blind pattern matches a text as it
    matches the text in upper case. *)
Lemma rmatch_upper : forall txt r,
  case_blind r ->
  forall pos k k', (forall q, k q = k' q) ->
  rmatch true txt r pos k = rmatch true (upper txt) r pos k'.
Proof.
  intros txt; induction r as [| |c|p| |r1 IH1 r2 IH2|r1 IH1 r2 IH2|p];
    intros Hb pos k k' Hk; cbn [rmatch].
  - reflexivity.
  - apply Hk.
  - rewrite nth_error_upper.
    destruct (nth_error txt pos) as [d|]; cbn [option_map]; [|reflexivity].
    rewrite chr_eq_upper_char. destruct (chr_eq true c d); [apply Hk | reflexivity].
  - rewrite nth_error_upper.
    destruct (nth_error txt pos) as [d|]; cbn [option_map]; [|reflexivity].
    simpl in Hb. rewrite Hb. destruct (p d); [apply Hk | reflexivity].
  - rewrite at_boundary_upper. destruct (at_boundary txt pos); [apply Hk | reflexivity].
  - destruct Hb as [Hb1 Hb2]. apply IH1; [assumption|].
    intro q. apply IH2; assumption.
  - destruct Hb as [Hb1 Hb2].
    rewrite <- (IH1 Hb1 pos k k' Hk), <- (IH2 Hb2 pos k k' Hk). reflexivity.
  - rewrite upper_length. apply star_from_upper; assumption.
Qed.

Lemma case_blind_Lit : forall n, case_blind (Lit n).
Proof. induction n as [|c n IH]; simpl; auto. Qed.

Lemma case_blind_TABLE_RE : case_blind TABLE_RE.
Proof.
  unfold TABLE_RE. generalize TABLE_NAMES. intro l.
  cbn [case_blind]. split; [exact I|]. split; [|exact I].
  induction l as [|n l IH]; cbn [map Alts fold_right case_blind]; [exact I|].
  split; [apply case_blind_Lit | exact IH].
Qed.

Lemma finditer_from_upper : forall txt r,
  case_blind r ->
  forall fuel pos,
  finditer_from true r txt fuel pos = finditer_from true r (upper txt) fuel pos.
Proof.
  intros txt r Hb; induction fuel as [|fuel IH]; intros pos; simpl; [reflexivity|].
  rewrite upper_length. destruct (length txt <? pos); [reflexivity|].
  unfold match_at. rewrite <- (rmatch_upper txt r Hb pos Some Some (fun q => eq_refl)).
  destruct (rmatch true txt r pos Some); [f_equal|]; apply IH.
Qed.

Lemma finditer_upper : forall txt, TABLE_RE_finditer txt = TABLE_RE_finditer (upper txt).
Proof.
  intro txt. unfold TABLE_RE_finditer, finditer. rewrite upper_length.
  apply finditer_from_upper. apply case_blind_TABLE_RE.
Qed.

Lemma name_of_upper : forall txt m, name_of txt m = name_of (upper txt) m.
Proof.
  intros txt m. unfold name_of, group_name. now rewrite slice_upper, upper_idem.
Qed.

Lemma find_from_upper : forall s pos, find_from (upper s) pos = find_from s pos.
Proof.
  induction s as [|c s IH]; intros pos; simpl; [reflexivity|].
  rewrite newline_upper_char. destruct (ascii_eqb c newline); [reflexivity | apply IH].
Qed.

Lemma rfind_upto_upper : forall s pos last,
  rfind_upto (upper s) pos last = rfind_upto s pos last.
Proof.
  induction s as [|c s IH]; intros pos last; simpl; [reflexivity|].
  rewrite newline_upper_char. apply IH.
Qed.

Lemma rfind_nl_upper : forall txt hi, rfind_nl (upper txt) hi = rfind_nl txt hi.
Proof.
  intros txt hi. unfold rfind_nl, upper. rewrite firstn_map.
  apply (rfind_upto_upper (firstn hi txt)).
Qed.

Lemma find_nl_upper : forall txt lo, find_nl (upper txt) lo = find_nl txt lo.
Proof.
  intros txt lo. unfold find_nl, upper. rewrite skipn_map.
  apply (find_from_upper (skipn lo txt)).
Qed.

Lemma line_of_upper : forall txt m, line_of txt m = line_of (upper txt) m.
Proof.
  intros txt m. unfold line_of, line_start_of, line_end_of.
  rewrite rfind_nl_upper, find_nl_upper, upper_length, slice_upper, upper_idem.
  reflexivity.
Qed.

Lemma is_protected_upper : forall txt m, is_protected txt m = is_protected (upper txt) m.
Proof.
  intros txt m. unfold is_protected. now rewrite <- name_of_upper, <- line_of_upper.
Qed.

Lemma snippet_at_upper : forall txt s e,
  upper (snippet_at txt s e) = snippet_at (upper txt) s e.
Proof.
  intros txt s e. unfold snippet_at. now rewrite upper_length, slice_upper.
Qed.

Section SameUpToCase.
Variables t1 t2 : str.
Hypothesis same_upper : upper t1 = upper t2.

Lemma finditer_same : TABLE_RE_finditer t1 = TABLE_RE_finditer t2.
Proof. rewrite (finditer_upper t1), (finditer_upper t2), same_upper. reflexivity. Qed.

Lemma name_of_same : forall m, name_of t1 m = name_of t2 m.
Proof. intro m. rewrite (name_of_upper t1), (name_of_upper t2), same_upper. reflexivity. Qed.

Lemma is_protected_same : forall m, is_protected t1 m = is_protected t2 m.
Proof.
  intro m. rewrite (is_protected_upper t1), (is_protected_upper t2), same_upper. reflexivity.
Qed.

Lemma classify_same : forall m, classify t1 m = classify t2 m.
Proof. intro m. unfold classify. now rewrite is_protected_same. Qed.

Lemma issue_of_same : forall m, same_issue_modulo_case (issue_of t1 m) (issue_of t2 m).
Proof.
  intro m. unfold same_issue_modulo_case, issue_of. cbn.
  rewrite <- (name_of_same m). repeat split; try reflexivity.
  now rewrite !snippet_at_upper, same_upper.
Qed.

Lemma issues_same : forall l,
  Forall2 same_issue_modulo_case
    (map (issue_of t1) (filter (is_rewritable t1) l))
    (map (issue_of t2) (filter (is_rewritable t2) l)).
Proof.
  induction l as [|m l IH]; simpl; [constructor|].
  unfold is_rewritable. rewrite <- (is_protected_same m).
  destruct (is_protected t1 m); simpl; [exact IH|].
  constructor; [apply issue_of_same | exact IH].
Qed.

Lemma slice_same_upper : forall lo hi, upper (slice t1 lo hi) = upper (slice t2 lo hi).
Proof. intros. now rewrite <- !slice_upper, same_upper. Qed.

Lemma render_same_upper : forall mk ms cur,
  upper (render mk t1 cur ms) = upper (render mk t2 cur ms).
Proof.
  intros mk; induction ms as [|m ms IH]; intros cur; simpl.
  - unfold slice_from, upper. rewrite <- !skipn_map.
    change (map upper_char t1) with (upper t1). change (map upper_char t2) with (upper t2).
    now rewrite same_upper.
  - rewrite <- (is_protected_same m), <- (name_of_same m).
    destruct (is_protected t1 m); rewrite !upper_app, IH, slice_same_upper; reflexivity.
Qed.
End SameUpToCase.

Lemma slice_agree : forall (t1 t2 : str) lo hi,
  (forall i, lo <= i < hi -> nth_error t1 i = nth_error t2 i) ->
  slice t1 lo hi = slice t2 lo hi.
Proof.
  intros t1 t2 lo hi H. apply nth_error_ext. intro i. rewrite !slice_nth.
  destruct (i <? hi - lo) eqn:E; [|reflexivity].
  apply Nat.ltb_lt in E. apply H. lia.
Qed.

Lemma skipn_agree : forall (t1 t2 : str) lo,
  (forall i, lo <= i -> nth_error t1 i = nth_error t2 i) -> skipn lo t1 = skipn lo t2.
Proof.
  intros t1 t2 lo H. apply nth_error_ext. intro i. rewrite !nth_error_skipn.
  apply H. lia.
Qed.

(** Two texts that agree wherever no Rewritable match lies are rendered
    alike. *)
Lemma render_agree : forall mk t1 t2 ms cur,
  (forall m, In m ms -> is_protected t1 m = is_protected t2 m
                        /\ name_of t1 m = name_of t2 m) ->
  Forall (fun m => m_start m < m_end m /\ cur <= m_start m) ms ->
  StronglySorted apart ms ->
  (forall i, cur <= i ->
     (forall m, In m ms -> is_protected t1 m = false -> ~ (m_start m <= i < m_end m)) ->
     nth_error t1 i = nth_error t2 i) ->
  render mk t1 cur ms = render mk t2 cur ms.
Proof.
  intros mk t1 t2; induction ms as [|m ms IH]; intros cur Hsame Hc Hs Hag; simpl.
  - apply skipn_agree. intros i Hi. apply Hag; [assumption|]. intros m [].
  - destruct (Hsame m (or_introl eq_refl)) as [Hp Hn]. rewrite <- Hp, <- Hn.
    inversion Hc as [|? ? [Hlt Hle] Hc']; subst.
    inversion Hs as [|? ? Hs' Hap]; subst.
    assert (Hrest : render mk t1 (m_end m) ms = render mk t2 (m_end m) ms).
    { apply IH.
      - intros x Hx. apply Hsame. now right.
      - apply Forall_forall. intros x Hx. rewrite Forall_forall in Hc', Hap.
        destruct (Hc' x Hx) as [Hx1 _]. specialize (Hap x Hx). unfold apart in Hap.
        split; [assumption | lia].
      - assumption.
      - intros i Hi Hno. apply Hag; [lia|].
        intros x [Hx|Hx] Hpx; [subst x; lia | now apply Hno]. }
    rewrite Hrest.
    destruct (is_protected t1 m) eqn:Ep.
    + f_equal. apply slice_agree. intros i Hi. apply Hag; [lia|].
      intros x [Hx|Hx] Hpx; [subst x; congruence|].
      rewrite Forall_forall in Hap. specialize (Hap x Hx). unfold apart in Hap. lia.
    + f_equal. apply slice_agree. intros i Hi. apply Hag; [lia|].
      intros x [Hx|Hx] Hpx; [subst x; lia|].
      rewrite Forall_forall in Hap. specialize (Hap x Hx). unfold apart in Hap. lia.
Qed.



(** ** A second pass *)

Lemma slice_skipn : forall (txt : str) lo hi,
  lo <= hi -> slice txt lo hi ++ skipn hi txt = skipn lo txt.
Proof.
  intros txt lo hi H. unfold slice.
  replace (skipn hi txt) with (skipn (hi - lo) (skipn lo txt))
    by (rewrite skipn_skipn; f_equal; lia).
  apply firstn_skipn.
Qed.

Lemma render_all_protected : forall mk txt ms cur,
  Forall (fun m => is_protected txt m = true /\ cur <= m_end m) ms ->
  StronglySorted (fun a b => m_end a <= m_end b) ms ->
  render mk txt cur ms = skipn cur txt.
Proof.
  intros mk txt; induction ms as [|m ms IH]; intros cur Hp Hs; simpl; [reflexivity|].
  inversion Hp as [|? ? [Hm Hle] Hp']; subst. inversion Hs as [|? ? Hs' Hall]; subst.
  rewrite Hm, IH.
  - apply slice_skipn; assumption.
  - apply Forall_forall. intros x Hx. rewrite Forall_forall in Hp', Hall.
    split; [apply (Hp' x Hx) | apply (Hall x Hx)].
  - assumption.
Qed.

Lemma apart_ends_sorted : forall txt l,
  Forall (is_occurrence txt) l -> StronglySorted apart l ->
  StronglySorted (fun a b => m_end a <= m_end b) l.
Proof.
  intros txt; induction l as [|m l IH]; intros Ho Hs; [constructor|].
  inversion Ho as [|? ? Hm Ho']; subst. inversion Hs as [|? ? Hs' Hap]; subst.
  constructor; [apply IH; assumption|].
  apply Forall_forall. intros x Hx. rewrite Forall_forall in Hap, Ho'.
  specialize (Hap x Hx). destruct (Ho' x Hx) as (_ & _ & _ & Hlt & _).
  unfold apart in Hap. lia.
Qed.

(** The engine leaves a stable text as it is and reports nothing. *)
Lemma stable_remediate : forall now txt,
  stable txt -> remediate_code now txt = Ok (txt, []).
Proof.
  intros now txt Hst. rewrite remediate_code_eq. f_equal. f_equal.
  - rewrite render_all_protected; [reflexivity | |].
    + apply Forall_forall. intros m Hm. split; [apply Hst; assumption | lia].
    + apply (apart_ends_sorted txt);
        [apply finditer_all_occurrences | apply finditer_sorted].
  - assert (Hf : filter (is_rewritable txt) (TABLE_RE_finditer txt) = []).
    { assert (Hall : forall m, In m (TABLE_RE_finditer txt) -> is_protected txt m = true)
        by exact Hst.
      induction (TABLE_RE_finditer txt) as [|m l IH]; [reflexivity|]. simpl.
      unfold is_rewritable at 1. rewrite (Hall m (or_introl eq_refl)). simpl.
      apply IH. intros x Hx. apply Hall. now right. }
    rewrite Hf. reflexivity.
Qed.


(** ** Lines and occurrences of two texts that agree on a window *)

Lemma line_start_unique : forall txt m ls,
  ls <= m_start m ->
  (ls = 0 \/ nth_error txt (ls - 1) = Some newline) ->
  (forall i, ls <= i < m_start m -> nth_error txt i <> Some newline) ->
  line_start_of txt m = ls.
Proof.
  intros txt m ls Hle Hnl Hno.
  destruct (line_start_spec txt m) as (Hs1 & Hs2 & Hs3).
  destruct (Nat.lt_trichotomy (line_start_of txt m) ls) as [Hc|[Hc|Hc]]; [|assumption|].
  - exfalso. destruct Hnl as [H0|Hn]; [lia|]. apply (Hs3 (ls - 1)); [lia | assumption].
  - exfalso. destruct Hs2 as [H0|Hn]; [lia|].
    apply (Hno (line_start_of txt m - 1)); [lia | assumption].
Qed.

Lemma line_end_unique : forall txt m le,
  m_end m <= le <= length txt ->
  (le = length txt \/ nth_error txt le = Some newline) ->
  (forall i, m_end m <= i < le -> nth_error txt i <> Some newline) ->
  line_end_of txt m = le.
Proof.
  intros txt m le Hle Hnl Hno.
  destruct (line_end_spec txt m ltac:(lia)) as (He1 & He2 & He3).
  destruct (Nat.lt_trichotomy (line_end_of txt m) le) as [Hc|[Hc|Hc]]; [|assumption|].
  - exfalso. destruct He2 as [H0|Hn]; [lia|].
    apply (Hno (line_end_of txt m)); [lia | assumption].
  - exfalso. destruct Hnl as [H0|Hn]; [lia|]. apply (He3 le); [lia | assumption].
Qed.

(** No newline on the line of an occurrence. *)
Lemma line_has_no_newline : forall txt m,
  is_occurrence txt m ->
  forall i, line_start_of txt m <= i < line_end_of txt m -> nth_error txt i <> Some newline.
Proof.
  intros txt m Ho i Hi Hn. pose proof Ho as (_ & _ & _ & Hlt & Hlen).
  destruct (line_start_spec txt m) as (Hs1 & Hs2 & Hs3).
  destruct (line_end_spec txt m Hlen) as (He1 & He2 & He3).
  destruct (Nat.lt_ge_cases i (m_start m)) as [Ha|Ha]; [apply (Hs3 i); [lia | assumption]|].
  destruct (Nat.lt_ge_cases i (m_end m)) as [Hb|Hb]; [|apply (He3 i); [lia | assumption]].
  pose proof (occurrence_inside _ _ _ Ho i ltac:(lia)) as Hw.
  rewrite (word_at_nth _ _ _ Hn) in Hw. discriminate.
Qed.

Lemma word_at_agree : forall (t1 t2 : str) i j,
  nth_error t1 i = nth_error t2 j -> word_at t1 i = word_at t2 j.
Proof. intros t1 t2 i j H. unfold word_at. now rewrite H. Qed.

Lemma slice_shift_agree : forall (t1 t2 : str) c1 c2 u v,
  (forall i, u <= i < v -> nth_error t1 (c1 + i) = nth_error t2 (c2 + i)) ->
  slice t1 (c1 + u) (c1 + v) = slice t2 (c2 + u) (c2 + v).
Proof.
  intros t1 t2 c1 c2 u v H. apply nth_error_ext. intro i. rewrite !slice_nth.
  replace (c1 + v - (c1 + u)) with (v - u) by lia.
  replace (c2 + v - (c2 + u)) with (v - u) by lia.
  destruct (i <? v - u) eqn:E; [|reflexivity].
  apply Nat.ltb_lt in E. rewrite <- !Nat.add_assoc. apply H. lia.
Qed.

Lemma occurrence_word_before : forall txt s e,
  occurrence txt s e -> word_before txt s = false.
Proof.
  intros txt s e H. destruct (occurrence_before _ _ _ H) as [H0|Hb].
  - subst s. reflexivity.
  - destruct s as [|q]; [reflexivity|]. simpl in *. now rewrite Nat.sub_0_r in Hb.
Qed.

(** An occurrence of one text is an occurrence of another that has the
    same characters there and no word character around them. *)
Lemma occurrence_transfer : forall t1 t2 c1 c2 u v,
  occurrence t1 (c1 + u) (c1 + v) ->
  (forall i, u <= i < v -> nth_error t1 (c1 + i) = nth_error t2 (c2 + i)) ->
  word_before t2 (c2 + u) = false ->
  word_at t2 (c2 + v) = false ->
  occurrence t2 (c2 + u) (c2 + v).
Proof.
  intros t1 t2 c1 c2 u v Ho Hag Hb Ha.
  pose proof Ho as (_ & _ & Hin & Hlt & Hlen).
  assert (Hsl : slice t1 (c1 + u) (c1 + v) = slice t2 (c2 + u) (c2 + v))
    by (apply slice_shift_agree; assumption).
  remember (upper (slice t1 (c1 + u) (c1 + v))) as n eqn:En.
  assert (Hn : length n = v - u) by (subst n; rewrite upper_length, slice_length; lia).
  assert (Hv : c2 + v = c2 + u + length n) by lia.
  rewrite Hv in Ha |- *.
  apply occurrence_of_token.
  - assumption.
  - rewrite <- Hv, <- Hsl. now symmetry.
  - destruct (c2 + u) as [|q]; [now left | right].
    simpl in *. now rewrite Nat.sub_0_r.
  - assumption.
Qed.

Lemma name_of_transfer : forall t1 t2 c1 c2 u v,
  (forall i, u <= i < v -> nth_error t1 (c1 + i) = nth_error t2 (c2 + i)) ->
  name_of t2 {| m_start := c2 + u; m_end := c2 + v |}
  = name_of t1 {| m_start := c1 + u; m_end := c1 + v |}.
Proof.
  intros t1 t2 c1 c2 u v H. unfold name_of, group_name. cbn [m_start m_end].
  now rewrite (slice_shift_agree t1 t2 c1 c2 u v H).
Qed.

(** The line of a match is found again in a text that agrees with the
    first on that line and closes it on both sides. *)
Lemma line_of_transfer : forall t1 t2 c1 c2 u v,
  occurrence t1 (c1 + u) (c1 + v) ->
  let m1 := {| m_start := c1 + u; m_end := c1 + v |} in
  let m2 := {| m_start := c2 + u; m_end := c2 + v |} in
  forall a b,
  line_start_of t1 m1 = c1 + a -> line_end_of t1 m1 = c1 + b ->
  (forall i, a <= i < b -> nth_error t1 (c1 + i) = nth_error t2 (c2 + i)) ->
  (c2 + a = 0 \/ nth_error t2 (c2 + a - 1) = Some newline) ->
  c2 + b <= length t2 ->
  (c2 + b = length t2 \/ nth_error t2 (c2 + b) = Some newline) ->
  line_of t2 m2 = line_of t1 m1.
Proof.
  intros t1 t2 c1 c2 u v Ho m1 m2 a b Hls Hle Hag Hl Hlen Hr.
  pose proof Ho as (_ & _ & _ & Hlt & Hlen1).
  destruct (line_start_spec t1 m1) as (Hs1 & _ & _).
  destruct (line_end_spec t1 m1 Hlen1) as (He1 & _ & _).
  pose proof (line_has_no_newline t1 m1 Ho) as Hno.
  rewrite Hls in Hs1, Hno. rewrite Hle in He1, Hno. cbn [m1 m_start m_end] in *.
  assert (Hls2 : line_start_of t2 m2 = c2 + a).
  { apply line_start_unique; cbn [m2 m_start]; [lia | assumption |].
    intros i Hi. replace i with (c2 + (i - c2)) by lia.
    rewrite <- Hag by lia. apply Hno. lia. }
  assert (Hle2 : line_end_of t2 m2 = c2 + b).
  { apply line_end_unique; cbn [m2 m_end]; [lia | assumption |].
    intros i Hi. replace i with (c2 + (i - c2)) by lia.
    rewrite <- Hag by lia. apply Hno. lia. }
  unfold line_of. rewrite Hls, Hle, Hls2, Hle2. f_equal. symmetry.
  apply slice_shift_agree. assumption.
Qed.

Lemma is_protected_transfer : forall t1 t2 c1 c2 u v,
  (forall i, u <= i < v -> nth_error t1 (c1 + i) = nth_error t2 (c2 + i)) ->
  line_of t2 {| m_start := c2 + u; m_end := c2 + v |}
  = line_of t1 {| m_start := c1 + u; m_end := c1 + v |} ->
  is_protected t2 {| m_start := c2 + u; m_end := c2 + v |}
  = is_protected t1 {| m_start := c1 + u; m_end := c1 + v |}.
Proof.
  intros t1 t2 c1 c2 u v Hag Hl. unfold is_protected.
  now rewrite (name_of_transfer t1 t2 c1 c2 u v Hag), Hl.
Qed.

(** Two stable texts joined by a newline make a stable text: matching
    and protection do not look beyond a line. *)
Lemma stable_newline_app : forall X Y,
  stable X -> stable Y -> stable (X ++ newline :: Y).
Proof.
  intros X Y HX HY [s e] Hm. apply finditer_occurrence in Hm.
  unfold is_occurrence in Hm. cbn [m_start m_end] in Hm.
  set (T := X ++ newline :: Y) in *.
  assert (nthX : forall i, i < length X -> nth_error T i = nth_error X i)
    by (intros i Hi; unfold T; now apply nth_error_app1).
  assert (nthNL : nth_error T (length X) = Some newline)
    by (unfold T; rewrite nth_error_app2, Nat.sub_diag by lia; reflexivity).
  assert (nthY : forall j, nth_error T (S (length X) + j) = nth_error Y j).
  { intro j. unfold T. rewrite nth_error_app2 by lia.
    replace (S (length X) + j - length X) with (S j) by lia. reflexivity. }
  assert (HlenT : length T = S (length X) + length Y)
    by (unfold T; rewrite length_app; simpl; lia).
  pose proof Hm as (_ & _ & _ & Hlt & Hlen).
  assert (Hside : e <= length X \/ S (length X) <= s).
  { destruct (Nat.le_gt_cases e (length X)) as [|He]; [now left | right].
    destruct (Nat.le_gt_cases (S (length X)) s) as [|Hs]; [assumption | exfalso].
    pose proof (occurrence_inside _ _ _ Hm (length X) ltac:(lia)) as Hw.
    rewrite (word_at_nth _ _ _ nthNL) in Hw. discriminate. }
  destruct Hside as [He|Hs].
  - (* the occurrence lies in X *)
    assert (Hag : forall i, s <= i < e -> nth_error T (0 + i) = nth_error X (0 + i))
      by (intros i Hi; apply nthX; lia).
    assert (HoX : occurrence X (0 + s) (0 + e)).
    { apply (occurrence_transfer T X 0 0 s e); [exact Hm | exact Hag | |].
      - pose proof (occurrence_word_before _ _ _ Hm) as Hb.
        destruct s as [|q]; [reflexivity|]. simpl in *.
        rewrite <- Hb. symmetry. apply word_at_agree. apply nthX. lia.
      - simpl. destruct (Nat.eq_dec e (length X)) as [->|Hne].
        + unfold word_at.
          replace (nth_error X (length X)) with (@None ascii); [reflexivity|].
          symmetry. apply nth_error_None. lia.
        + rewrite <- (occurrence_after _ _ _ Hm). symmetry.
          apply word_at_agree. apply nthX. lia. }
    simpl in HoX.
    assert (HpX : is_protected X {| m_start := s; m_end := e |} = true)
      by (apply HX; apply finditer_occurrence; exact HoX).
    rewrite <- HpX.
    destruct (line_start_spec X {| m_start := s; m_end := e |}) as (Hs1 & Hs2 & _).
    destruct (line_end_spec X {| m_start := s; m_end := e |} He) as (He1 & He2 & _).
    cbn [m_start m_end] in *.
    apply (is_protected_transfer X T 0 0 s e);
      [intros i Hi; symmetry; apply Hag; assumption|].
    apply (line_of_transfer X T 0 0 s e HoX
             (line_start_of X {| m_start := s; m_end := e |})
             (line_end_of X {| m_start := s; m_end := e |}));
      try reflexivity.
    + intros i Hi. simpl. symmetry. apply nthX. lia.
    + simpl. destruct Hs2 as [H0|Hn]; [now left|].
      destruct (Nat.eq_dec (line_start_of X {| m_start := s; m_end := e |}) 0) as [E0|E0];
        [now left | right].
      rewrite nthX; [exact Hn | lia].
    + simpl. lia.
    + simpl. right. destruct He2 as [H0|Hn].
      * rewrite H0. exact nthNL.
      * rewrite nthX; [exact Hn|]. apply nth_error_Some. congruence.
  - (* the occurrence lies in Y *)
    set (c := S (length X)) in *.
    assert (Es : s = c + (s - c)) by lia. assert (Ee : e = c + (e - c)) by lia.
    set (u := s - c) in *. set (v := e - c) in *.
    rewrite Es, Ee in Hm |- *.
    assert (Hag : forall i, u <= i < v -> nth_error T (c + i) = nth_error Y (0 + i))
      by (intros i Hi; apply nthY).
    assert (HoY : occurrence Y (0 + u) (0 + v)).
    { apply (occurrence_transfer T Y c 0 u v); [exact Hm | exact Hag | |].
      - simpl. destruct u as [|q] eqn:Eu; [reflexivity|]. simpl.
        pose proof (occurrence_word_before _ _ _ Hm) as Hb.
        replace (c + S q) with (S (c + q)) in Hb by lia. simpl in Hb.
        rewrite <- Hb. symmetry. apply word_at_agree. apply nthY.
      - simpl. rewrite <- (occurrence_after _ _ _ Hm). symmetry.
        apply word_at_agree. apply nthY. }
    simpl in HoY.
    assert (HpY : is_protected Y {| m_start := u; m_end := v |} = true)
      by (apply HY; apply finditer_occurrence; exact HoY).
    rewrite <- HpY.
    pose proof HoY as (_ & _ & _ & _ & HlenY).
    destruct (line_start_spec Y {| m_start := u; m_end := v |}) as (Hs1 & Hs2 & _).
    destruct (line_end_spec Y {| m_start := u; m_end := v |} HlenY) as (He1 & He2 & _).
    cbn [m_start m_end] in *.
    apply (is_protected_transfer Y T 0 c u v);
      [intros i Hi; symmetry; apply Hag; assumption|].
    apply (line_of_transfer Y T 0 c u v HoY
             (line_start_of Y {| m_start := u; m_end := v |})
             (line_end_of Y {| m_start := u; m_end := v |}));
      try reflexivity.
    + intros i Hi. simpl. symmetry. apply nthY.
    + right.
      destruct (line_start_of Y {| m_start := u; m_end := v |}) as [|q] eqn:Eq.
      * replace (c + 0 - 1) with (length X) by (unfold c; lia). exact nthNL.
      * destruct Hs2 as [H0|Hn]; [discriminate|].
        simpl in Hn. rewrite Nat.sub_0_r in Hn.
        replace (c + S q - 1) with (c + q) by lia. rewrite nthY. exact Hn.
    + lia.
    + destruct He2 as [H0|Hn]; [left; lia | right]. rewrite nthY. exact Hn.
Qed.

(** ** What the first pass writes holds no name of the vocabulary *)

Lemma names_start_with_M : forall n,
  In n TABLE_NAMES -> exists rest, n = ascii_of_nat 77 :: rest.
Proof.
  assert (H : forallb (fun n => match n with
                                | c :: _ => ascii_eqb c (ascii_of_nat 77)
                                | [] => false
                                end) TABLE_NAMES = true) by (vm_compute; reflexivity).
  intros n Hin. rewrite forallb_forall in H. specialize (H n Hin).
  destruct n as [|c rest]; [discriminate|]. apply ascii_eqb_eq in H. subst c. eauto.
Qed.

Lemma no_letter_M_no_occurrence : forall txt,
  no_letter_M txt -> forall s e, ~ occurrence txt s e.
Proof.
  intros txt HM s e Ho. pose proof Ho as (_ & _ & Hin & Hlt & Hlen).
  destruct (names_start_with_M _ Hin) as (rest & Hn).
  destruct (nth_error txt s) as [d|] eqn:Hd; [|apply nth_error_None in Hd; lia].
  rewrite (slice_cons _ _ _ _ Hd Hlt) in Hn. cbn [upper map] in Hn.
  injection Hn as Hc _.
  unfold no_letter_M in HM. rewrite Forall_forall in HM.
  specialize (HM d (nth_error_In _ _ Hd)). cbv beta in HM.
  rewrite Hc in HM. discriminate.
Qed.

Lemma no_letter_M_stable : forall txt, no_letter_M txt -> stable txt.
Proof.
  intros txt HM m Hm. apply finditer_occurrence in Hm.
  exfalso. exact (no_letter_M_no_occurrence txt HM _ _ Hm).
Qed.

Lemma digit_char_is_digit : forall n, is_digit (digit_char n) = true.
Proof.
  intro n. unfold digit_char. pose proof (Nat.mod_upper_bound n 10 ltac:(lia)) as H.
  remember (n mod 10) as k eqn:Ek. clear Ek.
  do 10 (destruct k as [|k]; [reflexivity|]). lia.
Qed.

Lemma decimal_aux_digits : forall fuel n acc,
  Forall (fun c => is_digit c = true) acc ->
  Forall (fun c => is_digit c = true) (decimal_aux fuel n acc).
Proof.
  induction fuel as [|fuel IH]; intros n acc H; simpl; [assumption|].
  assert (H' : Forall (fun c => is_digit c = true) (digit_char n :: acc))
    by (constructor; [apply digit_char_is_digit | assumption]).
  destruct (n <? 10); [assumption | now apply IH].
Qed.

Lemma zfill_decimal_digits : forall w n,
  Forall (fun c => is_digit c = true) (zfill w (decimal n)).
Proof.
  intros w n. unfold zfill. apply Forall_app. split.
  - apply Forall_forall. intros c Hc. apply repeat_spec in Hc. subst c.
    apply digit_char_is_digit.
  - apply decimal_aux_digits. constructor.
Qed.

Lemma digit_is_not_M : forall c,
  is_digit c = true -> ascii_eqb (upper_char c) (ascii_of_nat 77) = false.
Proof. intro c; all_chars c. Qed.

Lemma digits_no_letter_M : forall s,
  Forall (fun c => is_digit c = true) s -> no_letter_M s.
Proof.
  intros s H. unfold no_letter_M. rewrite Forall_forall in *.
  intros c Hc. apply digit_is_not_M. now apply H.
Qed.

Lemma no_letter_M_app : forall a b, no_letter_M a -> no_letter_M b -> no_letter_M (a ++ b).
Proof. intros a b Ha Hb. apply Forall_app. now split. Qed.

Lemma strftime_no_letter_M : forall now, no_letter_M (strftime_Ymd now).
Proof.
  intro now. unfold strftime_Ymd.
  assert (Hd : no_letter_M [dash]) by (unfold no_letter_M; repeat constructor).
  assert (Hz : forall w n, no_letter_M (zfill w (decimal n)))
    by (intros; apply digits_no_letter_M; apply zfill_decimal_digits).
  apply no_letter_M_app; [apply Hz|].
  apply no_letter_M_app; [exact Hd|].
  apply no_letter_M_app; [apply Hz|].
  apply no_letter_M_app; [exact Hd | apply Hz].
Qed.

Lemma marker_line_stable : forall now, stable (marker_line (strftime_Ymd now)).
Proof.
  intro now. apply no_letter_M_stable. unfold marker_line.
  apply no_letter_M_app; [unfold no_letter_M; repeat constructor|].
  apply no_letter_M_app; [|apply strftime_no_letter_M].
  apply Forall_forall. intros c Hc.
  apply forallb_forall
    with (x := c) (l := L " Changed by PwC on ")
         (f := fun c => negb (ascii_eqb (upper_char c) (ascii_of_nat 77))) in Hc.
  - now apply negb_true_iff in Hc.
  - vm_compute. reflexivity.
Qed.

Lemma change_marker_lines : forall today,
  change_marker_of today = newline :: marker_line today ++ [newline].
Proof. intro today. unfold change_marker_of, marker_line. now rewrite <- !app_assoc. Qed.

(** A replacement name is made of word characters and is no name of the
    vocabulary. *)
Lemma new_of_inert : forall n,
  In n TABLE_NAMES ->
  new_of n <> [] /\ Forall (fun c => is_word c = true) (new_of n)
  /\ ~ In (upper (new_of n)) TABLE_NAMES.
Proof.
  assert (H : forallb (fun n =>
              negb (length (new_of n) =? 0) && forallb is_word (new_of n)
              && negb (existsb (str_eqb (upper (new_of n))) TABLE_NAMES))
            TABLE_NAMES = true) by (vm_compute; reflexivity).
  intros n Hin. rewrite forallb_forall in H. specialize (H n Hin).
  apply andb_true_iff in H. destruct H as [H H3].
  apply andb_true_iff in H. destruct H as [H1 H2].
  split; [|split].
  - intro E. rewrite E in H1. discriminate.
  - apply Forall_forall. rewrite forallb_forall in H2. exact H2.
  - intro Hc. apply negb_true_iff in H3.
    assert (Ht : existsb (str_eqb (upper (new_of n))) TABLE_NAMES = true)
      by (apply existsb_exists; exists (upper (new_of n)); split;
          [assumption | apply str_eqb_refl]).
    congruence.
Qed.

(** ** The token that protects a line *)

Lemma ends_word_vocabulary : forall n, In n TABLE_NAMES -> ends_word n = true.
Proof.
  intros n Hin. destruct (TABLE_NAMES_letters _ Hin) as [Hl Hne].
  unfold ends_word. destruct (rev n) as [|c r] eqn:E.
  - apply (f_equal (@rev ascii)) in E. rewrite rev_involutive in E. simpl in E. congruence.
  - apply upper_letter_is_word. rewrite Forall_forall in Hl. apply Hl.
    apply in_rev. rewrite E. now left.
Qed.

Lemma firstn_app_exact : forall (a b : str), firstn (length a) (a ++ b) = a.
Proof.
  intros a b. rewrite firstn_app, firstn_all, Nat.sub_diag. simpl. apply app_nil_r.
Qed.

Lemma skipn_app_exact : forall (a b : str), skipn (length a) (a ++ b) = b.
Proof.
  intros a b. rewrite skipn_app, skipn_all, Nat.sub_diag. reflexivity.
Qed.

(** A line that begins with [pre], made of a keyword part that ends in
    whitespace, and then the name at a word boundary. *)
Lemma prefix_facts : forall pre name rest,
  pre <> [] -> ends_word pre = false -> ends_word name = true ->
  word_boundary name rest ->
  let L1 := pre ++ name ++ rest in
  let e0 := length pre + length name in
  length name < e0 /\ e0 <= length L1
  /\ slice L1 (e0 - length name) e0 = name
  /\ word_at L1 (e0 - length name - 1) = false
  /\ word_at L1 e0 = false
  /\ forall L2, firstn e0 L2 = firstn e0 L1 -> word_at L2 e0 = false ->
       exists rest2, L2 = pre ++ name ++ rest2 /\ word_boundary name rest2.
Proof.
  intros pre name rest Hne Hpre Hname Hb L1 e0.
  assert (Hp : 0 < length pre) by (destruct pre; [congruence | simpl; lia]).
  assert (Hf : firstn e0 L1 = pre ++ name).
  { unfold L1, e0. rewrite app_assoc, <- length_app. apply firstn_app_exact. }
  split; [unfold e0; lia|].
  split; [unfold L1, e0; rewrite !length_app; lia|].
  split; [|split; [|split]].
  - replace (e0 - length name) with (length pre) by (unfold e0; lia).
    apply seg_slice. unfold L1, e0. apply seg_of_app.
  - replace (e0 - length name - 1) with (length pre - 1) by (unfold e0; lia).
    rewrite word_at_firstn by (unfold L1; rewrite !length_app; lia).
    replace (S (length pre - 1)) with (length pre) by lia.
    unfold L1. now rewrite firstn_app_exact.
  - rewrite word_at_skipn. unfold L1, e0.
    rewrite app_assoc, <- length_app, skipn_app_exact.
    unfold word_boundary in Hb. rewrite Hname in Hb.
    destruct (starts_word rest); [discriminate | reflexivity].
  - intros L2 H2 Hw. exists (skipn e0 L2). split.
    + rewrite <- (firstn_skipn e0 L2) at 1. rewrite H2, Hf. now rewrite <- app_assoc.
    + unfold word_boundary. rewrite Hname, <- word_at_skipn, Hw. reflexivity.
Qed.

Lemma protected_line_prefix : forall L1 name,
  ends_word name = true -> protected_line L1 name ->
  exists e0,
    length name < e0 /\ e0 <= length L1
    /\ slice L1 (e0 - length name) e0 = name
    /\ word_at L1 (e0 - length name - 1) = false
    /\ word_at L1 e0 = false
    /\ forall L2, firstn e0 L2 = firstn e0 L1 -> word_at L2 e0 = false ->
         protected_line L2 name.
Proof.
  intros L1 name Hname [(ws & kw & ws1 & rest & HL & Fws & Hkw & N1 & F1 & Hb)
                       |(ws & ws1 & ws2 & rest & HL & Fws & N1 & F1 & N2 & F2 & Hb)].
  - assert (Hne : ws ++ kw ++ ws1 <> [])
      by (intro E; apply app_eq_nil in E; destruct E as [_ E];
          apply app_eq_nil in E; destruct E as [_ E]; congruence).
    assert (Hpre : ends_word (ws ++ kw ++ ws1) = false)
      by (rewrite app_assoc; apply ends_word_spaces; assumption).
    pose proof (prefix_facts _ _ _ Hne Hpre Hname Hb) as Hf. cbv zeta in Hf.
    replace ((ws ++ kw ++ ws1) ++ name ++ rest) with L1 in Hf
      by (rewrite HL, <- !app_assoc; reflexivity).
    destruct Hf as (H1 & H2 & H3 & H4 & H5 & H6).
    exists (length (ws ++ kw ++ ws1) + length name).
    repeat (split; [assumption|]).
    intros L2 E2 Hw. destruct (H6 L2 E2 Hw) as (rest2 & HL2 & Hb2).
    left. exists ws, kw, ws1, rest2.
    split; [rewrite HL2, <- !app_assoc; reflexivity|]. auto.
  - assert (Hne : ws ++ L "DELETE" ++ ws1 ++ L "FROM" ++ ws2 <> [])
      by (intro E; apply app_eq_nil in E; destruct E as [_ E]; discriminate E).
    assert (Hpre : ends_word (ws ++ L "DELETE" ++ ws1 ++ L "FROM" ++ ws2) = false)
      by (rewrite !app_assoc; apply ends_word_spaces; assumption).
    pose proof (prefix_facts _ _ _ Hne Hpre Hname Hb) as Hf. cbv zeta in Hf.
    replace ((ws ++ L "DELETE" ++ ws1 ++ L "FROM" ++ ws2) ++ name ++ rest) with L1 in Hf
      by (rewrite HL, <- !app_assoc; reflexivity).
    destruct Hf as (H1 & H2 & H3 & H4 & H5 & H6).
    exists (length (ws ++ L "DELETE" ++ ws1 ++ L "FROM" ++ ws2) + length name).
    repeat (split; [assumption|]).
    intros L2 E2 Hw. destruct (H6 L2 E2 Hw) as (rest2 & HL2 & Hb2).
    right. exists ws, ws1, ws2, rest2.
    split; [rewrite HL2, <- !app_assoc; reflexivity|]. auto 10.
Qed.

Lemma slice_slice : forall (txt : str) a b i j,
  j <= b - a -> slice (slice txt a b) i j = slice txt (a + i) (a + j).
Proof.
  intros txt a b i j H. apply nth_error_ext. intro k. rewrite !slice_nth.
  replace (a + j - (a + i)) with (j - i) by lia.
  destruct (k <? j - i) eqn:E; [|reflexivity]. apply Nat.ltb_lt in E.
  replace (i + k <? b - a) with true by (symmetry; apply Nat.ltb_lt; lia).
  now rewrite Nat.add_assoc.
Qed.

Lemma line_of_length : forall txt m,
  is_occurrence txt m -> length (line_of txt m) = line_end_of txt m - line_start_of txt m.
Proof.
  intros txt m Ho. pose proof Ho as (_ & _ & _ & _ & Hlen).
  destruct (line_end_spec txt m Hlen) as (He1 & _ & _).
  unfold line_of. rewrite upper_length, slice_length. lia.
Qed.

Lemma word_at_line_of : forall txt m i,
  i < line_end_of txt m - line_start_of txt m ->
  word_at (line_of txt m) i = word_at txt (line_start_of txt m + i).
Proof.
  intros txt m i Hi. unfold line_of. rewrite word_at_upper.
  apply word_at_agree. rewrite slice_nth.
  replace (i <? line_end_of txt m - line_start_of txt m) with true
    by (symmetry; apply Nat.ltb_lt; lia).
  reflexivity.
Qed.

Lemma word_at_line_end : forall txt m,
  is_occurrence txt m -> word_at txt (line_end_of txt m) = false.
Proof.
  intros txt m Ho. pose proof Ho as (_ & _ & _ & _ & Hlen).
  destruct (line_end_spec txt m Hlen) as (_ & [He|He] & _).
  - unfold word_at. replace (nth_error txt (line_end_of txt m)) with (@None ascii);
      [reflexivity|]. symmetry. apply nth_error_None. lia.
  - now rewrite (word_at_nth _ _ _ He).
Qed.

(** The line of a Protected match names its table right behind the
    keyword: that token is a match too, Protected as well, and what
    protects the line is the text up to the end of that token. *)
Lemma protecting_token : forall txt m,
  is_occurrence txt m -> is_protected txt m = true ->
  exists e0 q,
    m_end q = line_start_of txt m + e0
    /\ line_start_of txt m <= m_start q
    /\ m_end q <= line_end_of txt m
    /\ is_occurrence txt q /\ is_protected txt q = true
    /\ line_start_of txt q = line_start_of txt m
    /\ forall L2, firstn e0 L2 = firstn e0 (line_of txt m) -> word_at L2 e0 = false ->
         skip_condition (name_of txt m) L2 = true.
Proof.
  intros txt m Ho Hp.
  pose proof (name_of_occurrence _ _ Ho) as Hin.
  pose proof Ho as (_ & _ & _ & Hlt & Hlen).
  destruct (line_start_spec txt m) as (Hs1 & Hs2 & Hs3).
  destruct (line_end_spec txt m Hlen) as (He1 & He2 & He3).
  pose proof (line_has_no_newline txt m Ho) as Hno.
  pose proof (line_of_length txt m Ho) as HLlen.
  set (ls := line_start_of txt m) in *. set (le := line_end_of txt m) in *.
  set (name := name_of txt m) in *.
  unfold is_protected in Hp. fold name in Hp. apply skip_condition_iff in Hp.
  destruct (protected_line_prefix _ _ (ends_word_vocabulary _ Hin) Hp)
    as (e0 & H1 & H2 & H3 & H4 & H5 & H6).
  rewrite HLlen in H2.
  set (p := ls + (e0 - length name)).
  assert (Hq : occurrence txt p (p + length name)).
  { apply occurrence_of_token.
    - exact Hin.
    - etransitivity; [|exact H3].
      unfold line_of. fold ls le. rewrite slice_upper. f_equal.
      rewrite slice_slice by lia. unfold p. f_equal; lia.
    - right. etransitivity; [|exact H4].
      rewrite word_at_line_of by (fold ls le; lia). fold ls.
      f_equal. unfold p. lia.
    - replace (p + length name) with (ls + e0) by (unfold p; lia).
      destruct (Nat.eq_dec (ls + e0) le) as [E|E].
      + rewrite E. apply (word_at_line_end txt m Ho).
      + rewrite <- H5. symmetry. apply word_at_line_of. fold ls le. lia. }
  exists e0, {| m_start := p; m_end := p + length name |}.
  assert (Hls : line_start_of txt {| m_start := p; m_end := p + length name |} = ls).
  { apply line_start_unique; cbn [m_start]; [unfold p; lia | exact Hs2 |].
    intros i Hi. apply Hno. unfold p in Hi. lia. }
  assert (Hle : line_end_of txt {| m_start := p; m_end := p + length name |} = le).
  { apply line_end_unique; cbn [m_end]; [unfold p; lia | exact He2 |].
    intros i Hi. apply Hno. unfold p in Hi. lia. }
  cbn [m_start m_end].
  split; [unfold p; lia|]. split; [unfold p; lia|]. split; [unfold p; lia|].
  split; [exact Hq|]. split; [|split; [exact Hls|]].
  - unfold is_protected. apply skip_condition_iff.
    assert (Hn : name_of txt {| m_start := p; m_end := p + length name |} = name).
    { etransitivity; [|exact H3].
      unfold name_of, group_name. cbn [m_start m_end].
      unfold line_of. fold ls le. rewrite slice_upper. f_equal.
      rewrite slice_slice by lia. unfold p. f_equal; lia. }
    rewrite Hn. unfold line_of. rewrite Hls, Hle. exact Hp.
  - intros L2 E2 Hw. apply skip_condition_iff. apply H6; assumption.
Qed.

(** ** A stretch of the text between two rewritten matches *)

Lemma word_at_out_of_range : forall (txt : str) i, length txt <= i -> word_at txt i = false.
Proof.
  intros txt i H. unfold word_at.
  replace (nth_error txt i) with (@None ascii); [reflexivity|].
  symmetry. now apply nth_error_None.
Qed.

Lemma word_at_Forall : forall (N : str) j,
  Forall (fun c => is_word c = true) N -> j < length N -> word_at N j = true.
Proof.
  intros N j HN Hj. unfold word_at.
  destruct (nth_error N j) as [c|] eqn:E; [|apply nth_error_None in E; lia].
  rewrite Forall_forall in HN. apply HN. eapply nth_error_In; eassumption.
Qed.

Section Segment.
Variable txt : str.
Variables cur b : nat.
Variable N : str.

Hypothesis order : protected_first txt.
Hypothesis range : cur <= b <= length txt.
Hypothesis left_end :
  cur = 0 \/ exists r0, In r0 (TABLE_RE_finditer txt)
                        /\ is_protected txt r0 = false /\ m_end r0 = cur.
Hypothesis right_end :
  (b = length txt /\ N = [])
  \/ (exists r, In r (TABLE_RE_finditer txt) /\ is_protected txt r = false
                /\ m_start r = b /\ N = new_of (name_of txt r)).
Hypothesis between :
  forall m, In m (TABLE_RE_finditer txt) -> cur <= m_start m < b ->
            is_protected txt m = true.

Local Notation "'Zs'" := (stretch txt cur b N).

Lemma segment_length : length Zs = (b - cur) + length N.
Proof. unfold stretch. rewrite length_app, slice_length. lia. Qed.

Lemma segment_nth_text : forall i, i < b - cur -> nth_error Zs i = nth_error txt (cur + i).
Proof.
  intros i Hi. unfold stretch. rewrite nth_error_app1 by (rewrite slice_length; lia).
  rewrite slice_nth. replace (i <? b - cur) with true; [reflexivity|].
  symmetry. now apply Nat.ltb_lt.
Qed.

Lemma segment_nth_new : forall j, nth_error Zs (b - cur + j) = nth_error N j.
Proof.
  intro j. unfold stretch. rewrite nth_error_app2 by (rewrite slice_length; lia).
  f_equal. rewrite slice_length. lia.
Qed.

(** What stands behind the stretch: nothing, or a replacement name. *)
Lemma segment_new :
  N = []
  \/ (N <> [] /\ Forall (fun c => is_word c = true) N
      /\ ~ In (upper N) TABLE_NAMES
      /\ (b = 0 \/ word_at txt (b - 1) = false)).
Proof.
  destruct right_end as [[_ HN]|(r & Hin & Hp & Hs & HN)]; [now left | right].
  apply finditer_occurrence in Hin.
  destruct (new_of_inert _ (name_of_occurrence _ _ Hin)) as (H1 & H2 & H3).
  rewrite HN. repeat split; try assumption.
  rewrite <- Hs. exact (occurrence_before _ _ _ Hin).
Qed.

(** An occurrence of the stretch lies in the text part, and ends before
    the replacement name when there is one. *)
Lemma segment_occurrence_inside : forall u v,
  occurrence Zs u v -> v <= b - cur /\ (N <> [] -> v < b - cur).
Proof.
  intros u v Ho. pose proof Ho as (_ & _ & Hin & Hlt & Hlen).
  rewrite segment_length in Hlen.
  destruct segment_new as [HN|(HN & Hw & Hnot & Hbef)].
  - rewrite HN in Hlen. simpl in Hlen. split; [lia | congruence].
  - assert (Hpos : 0 < length N) by (destruct N; [congruence | simpl; lia]).
    assert (wN : forall j, j < length N -> word_at Zs (b - cur + j) = true).
    { intros j Hj. rewrite <- (word_at_Forall N j Hw Hj).
      apply word_at_agree. apply segment_nth_new. }
    assert (Hv : v < b - cur); [|split; [lia | intros _; exact Hv]].
    destruct (Nat.lt_ge_cases v (b - cur)) as [|Hge]; [assumption | exfalso].
    destruct (Nat.eq_dec v (b - cur)) as [Ev|Ev].
    { pose proof (occurrence_after _ _ _ Ho) as Ha.
      rewrite Ev in Ha. rewrite <- (Nat.add_0_r (b - cur)) in Ha.
      rewrite (wN 0 Hpos) in Ha. discriminate. }
    destruct (Nat.lt_trichotomy u (b - cur)) as [Hu|[Hu|Hu]].
    + pose proof (occurrence_inside _ _ _ Ho (b - cur - 1) ltac:(lia)) as Hi.
      rewrite (word_at_agree Zs txt (b - cur - 1) (cur + (b - cur - 1))) in Hi
        by (apply segment_nth_text; lia).
      replace (cur + (b - cur - 1)) with (b - 1) in Hi by lia.
      destruct Hbef as [H0|Hb]; [lia | congruence].
    + destruct (Nat.eq_dec v (b - cur + length N)) as [Evn|Evn].
      * assert (Es : slice Zs u v = N).
        { apply seg_slice. subst u v. unfold stretch.
          pose proof (seg_of_app (slice txt cur b) N []) as Hs.
          rewrite app_nil_r, slice_length in Hs.
          replace (Nat.min (b - cur) (length txt - cur)) with (b - cur) in Hs by lia.
          exact Hs. }
        rewrite Es in Hin. exact (Hnot Hin).
      * pose proof (occurrence_after _ _ _ Ho) as Ha.
        replace v with (b - cur + (v - (b - cur))) in Ha by lia.
        rewrite wN in Ha by lia. discriminate.
    + pose proof (occurrence_word_before _ _ _ Ho) as Hb.
      destruct u as [|q]; [lia|]. simpl in Hb.
      replace q with (b - cur + (q - (b - cur))) in Hb by lia.
      rewrite wN in Hb by lia. discriminate.
Qed.

(** An occurrence of the stretch is a match of the text. *)
Lemma segment_occurrence_text : forall u v,
  occurrence Zs u v -> occurrence txt (cur + u) (cur + v).
Proof.
  intros u v Ho. destruct (segment_occurrence_inside u v Ho) as [Hv HvN].
  pose proof Ho as (_ & _ & _ & Hlt & _).
  apply (occurrence_transfer Zs txt 0 cur u v); [exact Ho | | |].
  - intros i Hi. simpl. apply segment_nth_text. lia.
  - destruct u as [|q].
    + destruct left_end as [H0|(r0 & Hin & Hp & He)].
      * rewrite H0. reflexivity.
      * exfalso. apply finditer_occurrence in Hin.
        pose proof (occurrence_after _ _ _ Hin) as Ha. rewrite He in Ha.
        pose proof (occurrence_inside _ _ _ Ho 0 ltac:(lia)) as Hi.
        rewrite (word_at_agree Zs txt 0 (cur + 0)) in Hi by (apply segment_nth_text; lia).
        rewrite Nat.add_0_r in Hi. congruence.
    + replace (cur + S q) with (S (cur + q)) by lia. simpl.
      pose proof (occurrence_word_before _ _ _ Ho) as Hb. simpl in Hb.
      rewrite <- Hb. symmetry. apply word_at_agree. apply segment_nth_text. lia.
  - destruct (Nat.eq_dec v (b - cur)) as [Ev|Ev].
    + destruct segment_new as [HN|(HN & _)]; [|specialize (HvN HN); lia].
      destruct right_end as [[Hb _]|(r & Hin & _ & _ & Hr)].
      * apply word_at_out_of_range. lia.
      * exfalso. apply finditer_occurrence in Hin.
        destruct (new_of_inert _ (name_of_occurrence _ _ Hin)) as (H1 & _).
        congruence.
    + rewrite <- (occurrence_after _ _ _ Ho). symmetry.
      apply word_at_agree. apply segment_nth_text. lia.
Qed.

(** The line of a Protected match of the stretch begins in the stretch. *)
Lemma segment_line_start : forall t,
  In t (TABLE_RE_finditer txt) -> is_protected txt t = true -> cur <= m_start t ->
  cur <= line_start_of txt t
  /\ (line_start_of txt t = cur \/ nth_error txt (line_start_of txt t - 1) = Some newline).
Proof.
  intros t Hin Hp Hct.
  destruct (line_start_spec txt t) as (Hs1 & Hs2 & Hs3).
  destruct left_end as [H0|(r0 & Hr0 & Hp0 & He0)].
  - split; [lia|]. destruct Hs2 as [E|E]; [left; lia | now right].
  - pose proof Hr0 as Ho0. apply finditer_occurrence in Ho0.
    pose proof Ho0 as (_ & _ & _ & Hlt0 & _).
    assert (Hlt : m_start r0 < line_start_of txt t).
    { destruct (Nat.lt_ge_cases (m_start r0) (line_start_of txt t)) as [|Hge];
        [assumption | exfalso].
      apply (order t r0 Hin Hr0).
      - unfold classify. now rewrite Hp.
      - unfold classify. now rewrite Hp0.
      - lia. }
    destruct Hs2 as [E|E]; [lia|].
    assert (Hge : cur <= line_start_of txt t - 1).
    { destruct (Nat.lt_ge_cases (line_start_of txt t - 1) cur) as [Hc|]; [exfalso | assumption].
      pose proof (occurrence_inside _ _ _ Ho0 (line_start_of txt t - 1) ltac:(lia)) as Hw.
      rewrite (word_at_nth _ _ _ E) in Hw. discriminate. }
    split; [lia | now right].
Qed.

(** The token that protects the line ends in the stretch, before the
    replacement name when there is one. *)
Lemma segment_protecting_token : forall t q,
  In t (TABLE_RE_finditer txt) -> m_start t < b ->
  is_occurrence txt q -> is_protected txt q = true ->
  line_start_of txt q = line_start_of txt t ->
  m_end q <= b /\ (N <> [] -> m_end q < b).
Proof.
  intros t q Hin Htb Hq Hpq Hls.
  pose proof Hq as (_ & _ & _ & Hltq & Hlenq).
  destruct (line_start_spec txt t) as (Hs1 & _ & _).
  destruct right_end as [[Hb HN]|(r & Hr & Hpr & Hsr & HN)].
  - split; [lia | congruence].
  - assert (Hlt : m_end q < b); [|split; [lia | intros _; exact Hlt]].
    pose proof Hr as Hor. apply finditer_occurrence in Hor.
    assert (Hle : m_start q <= m_start r).
    { destruct (Nat.le_gt_cases (m_start q) (m_start r)) as [|Hgt]; [assumption | exfalso].
      apply (order q r (proj2 (finditer_occurrence txt q) Hq) Hr).
      - unfold classify. now rewrite Hpq.
      - unfold classify. now rewrite Hpr.
      - rewrite Hls. lia. }
    destruct (Nat.eq_dec (m_start q) (m_start r)) as [E|E].
    + exfalso. unfold is_occurrence in Hq, Hor. rewrite E in Hq.
      pose proof (occurrence_end_unique _ _ _ _ Hq Hor) as Ee.
      assert (Eq : q = r) by (destruct q, r; simpl in *; congruence).
      rewrite Eq in Hpq. congruence.
    + rewrite <- Hsr. apply (occurrence_apart txt _ _ _ _ Hq Hor). lia.
Qed.

(** The stretch, with what stands behind it, is stable. *)
Lemma segment_stable : stable Zs.
Proof.
  intros [u v] Hm. apply finditer_occurrence in Hm.
  unfold is_occurrence in Hm. cbn [m_start m_end] in Hm.
  destruct (segment_occurrence_inside u v Hm) as [Hv HvN].
  pose proof (segment_occurrence_text u v Hm) as Ht.
  pose proof Hm as (_ & _ & _ & Hlt & Hlen). rewrite segment_length in Hlen.
  set (t := {| m_start := cur + u; m_end := cur + v |}).
  assert (Hin : In t (TABLE_RE_finditer txt)) by (apply finditer_occurrence; exact Ht).
  assert (Hp : is_protected txt t = true) by (apply between; [exact Hin | simpl; lia]).
  destruct (line_start_spec txt t) as (Hs1 & Hs2 & Hs3).
  pose proof Ht as (_ & _ & _ & _ & Hlent).
  destruct (line_end_spec txt t Hlent) as (He1 & He2 & He3).
  destruct (segment_line_start t Hin Hp ltac:(simpl; lia)) as [Hcl Hcl2].
  destruct (protecting_token txt t Ht Hp)
    as (e0 & q & Hqe & Hqs & Hqle & Hq & Hpq & Hlsq & Htransfer).
  destruct (segment_protecting_token t q Hin ltac:(simpl; lia) Hq Hpq Hlsq) as [Hqb HqbN].
  pose proof Hq as (_ & _ & _ & Hltq & _).
  set (ls := line_start_of txt t) in *. set (le := line_end_of txt t) in *.
  cbn [t m_start m_end] in Hs1, Hs3, He1, He3.
  (* the line of the occurrence in the stretch *)
  assert (Hlsz : line_start_of Zs {| m_start := u; m_end := v |} = ls - cur).
  { apply line_start_unique; cbn [m_start].
    - lia.
    - destruct (Nat.eq_dec ls cur) as [Ec|Ec]; [left; lia | right].
      destruct Hcl2 as [E|E]; [contradiction|].
      rewrite segment_nth_text by lia.
      replace (cur + (ls - cur - 1)) with (ls - 1) by lia. exact E.
    - intros i Hi. rewrite segment_nth_text by lia. apply Hs3. lia. }
  assert (HvZ : v <= length Zs) by (rewrite segment_length; lia).
  destruct (line_end_spec Zs {| m_start := u; m_end := v |} HvZ) as (Hz1 & Hz2 & Hz3).
  set (lez := line_end_of Zs {| m_start := u; m_end := v |}) in *.
  cbn [m_start m_end] in Hz1, Hz3. rewrite segment_length in Hz1, Hz2.
  assert (Hlez : ls - cur + e0 <= lez).
  { destruct (Nat.le_gt_cases (ls - cur + e0) lez) as [|Hgt]; [assumption | exfalso].
    destruct Hz2 as [E|E]; [lia|].
    rewrite segment_nth_text in E by lia.
    apply (He3 (cur + lez)); [lia | exact E]. }
  assert (Hle0 : e0 <= le - ls) by lia.
  unfold is_protected.
  change {| m_start := u; m_end := v |} with {| m_start := 0 + u; m_end := 0 + v |}.
  rewrite (name_of_transfer txt Zs cur 0 u v)
    by (intros i Hi; simpl; symmetry; apply segment_nth_text; lia).
  fold t. apply Htransfer.
  - apply nth_error_ext. intro k. rewrite !nth_error_firstn.
    destruct (k <? e0) eqn:Ek; [|reflexivity]. apply Nat.ltb_lt in Ek.
    unfold line_of. cbn [Nat.add]. rewrite Hlsz. fold ls le lez.
    rewrite !nth_error_upper, !slice_nth.
    replace (k <? lez - (ls - cur)) with true by (symmetry; apply Nat.ltb_lt; lia).
    replace (k <? le - ls) with true by (symmetry; apply Nat.ltb_lt; lia).
    f_equal. rewrite segment_nth_text by lia. f_equal. lia.
  - unfold line_of. cbn [Nat.add]. rewrite Hlsz. fold lez. rewrite word_at_upper.
    destruct (Nat.lt_ge_cases e0 (lez - (ls - cur))) as [Hin0|Hout].
    + rewrite (word_at_agree _ Zs e0 (ls - cur + e0))
        by (rewrite slice_nth;
            replace (e0 <? lez - (ls - cur)) with true
              by (symmetry; apply Nat.ltb_lt; lia);
            reflexivity).
      destruct (Nat.lt_ge_cases (ls - cur + e0) (b - cur)) as [Hb1|Hb2].
      * rewrite (word_at_agree Zs txt (ls - cur + e0) (cur + (ls - cur + e0)))
          by (apply segment_nth_text; lia).
        replace (cur + (ls - cur + e0)) with (m_end q) by lia.
        exact (occurrence_after _ _ _ Hq).
      * exfalso. destruct segment_new as [HN|(HN & _)].
        -- rewrite HN in Hz1. simpl in Hz1. lia.
        -- specialize (HqbN HN). lia.
    + apply word_at_out_of_range. rewrite slice_length. lia.
Qed.
End Segment.

(** ** The text of the first pass is stable *)

Lemma protected_firstb_sound : forall txt,
  protected_firstb txt = true -> protected_first txt.
Proof.
  intros txt H p r Hp Hr Hcp Hcr [H1 H2].
  unfold protected_firstb in H. rewrite forallb_forall in H.
  specialize (H p Hp). rewrite forallb_forall in H. specialize (H r Hr).
  unfold classify in Hcp, Hcr. unfold is_rewritable in H.
  destruct (is_protected txt p); [|discriminate].
  destruct (is_protected txt r); [discriminate|].
  apply Nat.leb_le in H1. apply Nat.ltb_lt in H2. rewrite H1, H2 in H. discriminate.
Qed.

Lemma render_advance : forall mk txt cur c l,
  cur <= c -> Forall (fun m => c <= m_start m <= m_end m) l ->
  slice txt cur c ++ render mk txt c l = render mk txt cur l.
Proof.
  intros mk txt cur c [|m l] Hc Hl; simpl.
  - apply slice_skipn; assumption.
  - inversion Hl as [|? ? Hm _]; subst.
    destruct (is_protected txt m); rewrite app_assoc; f_equal;
      symmetry; apply slice_app_mid; lia.
Qed.

Lemma render_filter : forall mk txt ms cur,
  Forall (fun m => cur <= m_start m /\ m_start m < m_end m) ms ->
  StronglySorted apart ms ->
  render mk txt cur ms = render mk txt cur (filter (is_rewritable txt) ms).
Proof.
  intros mk txt; induction ms as [|m ms IH]; intros cur Hc Hs; [reflexivity|].
  inversion Hc as [|? ? [Hm1 Hm2] Hc']; subst. inversion Hs as [|? ? Hs' Hap]; subst.
  assert (Hnext : Forall (fun x => m_end m <= m_start x /\ m_start x < m_end x) ms).
  { apply Forall_forall. intros x Hx. rewrite Forall_forall in Hc', Hap.
    specialize (Hap x Hx). unfold apart in Hap. destruct (Hc' x Hx). lia. }
  cbn [render filter]. unfold is_rewritable at 1.
  destruct (is_protected txt m) eqn:Ep; cbn [negb].
  - rewrite (IH (m_end m) Hnext Hs'). apply render_advance; [lia|].
    apply Forall_forall. intros x Hx. apply filter_In in Hx. destruct Hx as [Hx _].
    rewrite Forall_forall in Hnext. destruct (Hnext x Hx). lia.
  - cbn [render]. rewrite Ep. now rewrite (IH (m_end m) Hnext Hs').
Qed.

Lemma filter_sorted_apart : forall (f : Match -> bool) l,
  StronglySorted apart l -> StronglySorted apart (filter f l).
Proof.
  intros f; induction l as [|m l IH]; intro Hs; simpl; [constructor|].
  inversion Hs as [|? ? Hs' Hap]; subst.
  destruct (f m); [|apply IH; assumption].
  constructor; [apply IH; assumption|].
  apply Forall_forall. intros x Hx. apply filter_In in Hx. destruct Hx as [Hx _].
  rewrite Forall_forall in Hap. now apply Hap.
Qed.

Lemma render_rewritable_stable : forall now txt,
  protected_first txt ->
  forall rs cur,
  cur <= length txt ->
  (cur = 0 \/ exists r0, In r0 (TABLE_RE_finditer txt)
                         /\ is_protected txt r0 = false /\ m_end r0 = cur) ->
  Forall (fun r => In r (TABLE_RE_finditer txt) /\ is_protected txt r = false
                   /\ cur <= m_start r) rs ->
  StronglySorted apart rs ->
  (forall m, In m (TABLE_RE_finditer txt) -> is_protected txt m = false ->
             cur <= m_start m -> In m rs) ->
  stable (render (change_marker_of (strftime_Ymd now)) txt cur rs).
Proof.
  intros now txt Hpf; induction rs as [|r rs IH]; intros cur Hlen Hcur Hrs Hs Hall.
  - cbn [render]. unfold slice_from.
    rewrite <- (slice_to_end txt cur), <- (app_nil_r (slice txt cur (length txt))).
    apply (segment_stable txt cur (length txt) [] Hpf).
    + lia.
    + exact Hcur.
    + left. split; reflexivity.
    + intros m Hm Hr. destruct (is_protected txt m) eqn:Ep; [reflexivity|].
      destruct (Hall m Hm Ep ltac:(lia)).
  - inversion Hrs as [|? ? (Hrin & Hrp & Hrc) Hrs']; subst.
    inversion Hs as [|? ? Hs' Hap]; subst.
    pose proof Hrin as Hro. apply finditer_occurrence in Hro.
    pose proof Hro as (_ & _ & _ & Hrlt & Hrlen).
    cbn [render]. rewrite Hrp, change_marker_lines.
    replace (slice txt cur (m_start r) ++ new_of (name_of txt r)
               ++ (newline :: marker_line (strftime_Ymd now) ++ [newline])
               ++ render (newline :: marker_line (strftime_Ymd now) ++ [newline])
                    txt (m_end r) rs)
      with ((slice txt cur (m_start r) ++ new_of (name_of txt r))
              ++ newline :: (marker_line (strftime_Ymd now)
              ++ newline :: render (newline :: marker_line (strftime_Ymd now) ++ [newline])
                              txt (m_end r) rs))
      by (rewrite <- !app_assoc; simpl; rewrite <- !app_assoc; reflexivity).
    apply stable_newline_app; [|apply stable_newline_app].
    + apply (segment_stable txt cur (m_start r) (new_of (name_of txt r)) Hpf).
      * lia.
      * exact Hcur.
      * right. exists r. auto.
      * intros m Hm Hr. destruct (is_protected txt m) eqn:Ep; [reflexivity | exfalso].
        destruct (Hall m Hm Ep ltac:(lia)) as [E|Hin].
        -- subst m. lia.
        -- rewrite Forall_forall in Hap. specialize (Hap m Hin). unfold apart in Hap. lia.
    + apply marker_line_stable.
    + rewrite <- change_marker_lines. apply IH.
      * lia.
      * right. exists r. auto.
      * apply Forall_forall. intros x Hx. rewrite Forall_forall in Hrs', Hap.
        destruct (Hrs' x Hx) as (H1 & H2 & _). specialize (Hap x Hx).
        unfold apart in Hap. repeat split; [assumption | assumption | lia].
      * assumption.
      * intros m Hm Ep Hc. destruct (Hall m Hm Ep ltac:(lia)) as [E|Hin]; [|assumption].
        subst m. lia.
Qed.



(** * Further properties of the engine *)

(** ** The vocabulary and the matcher *)

Lemma insert_by_len_In : forall x y l, In x (insert_by_len y l) <-> x = y \/ In x l.
Proof.
  intros x y; induction l as [|z l IH]; simpl.
  - split; [intros [H|[]]; auto | intros [H|[]]; auto].
  - destruct (length z <=? length y); simpl; [split; intros [H|H]; auto|].
    rewrite IH. split; [intros [H|[H|H]] | intros [H|[H|H]]]; auto.
Qed.

Lemma sorted_by_len_desc_In : forall x l, In x (sorted_by_len_desc l) <-> In x l.
Proof.
  intros x; induction l as [|y l IH]; simpl; [reflexivity|].
  rewrite insert_by_len_In, IH. split; intros [H|H]; auto.
Qed.

Lemma occurrence_explicit : forall txt s e,
  occurrence txt s e <->
  s < e <= length txt /\ In (upper (slice txt s e)) TABLE_NAMES
  /\ word_before txt s = false /\ word_at txt e = false.
Proof.
  intros txt s e; split.
  - intro H. pose proof H as (_ & _ & Hin & Hlt).
    split; [exact Hlt|]. split; [exact Hin|].
    split; [exact (occurrence_word_before _ _ _ H) | exact (occurrence_after _ _ _ H)].
  - intros (Hlt & Hin & Hb & Ha).
    assert (Hn : length (upper (slice txt s e)) = e - s)
      by (rewrite upper_length, slice_length; lia).
    assert (He : e = s + length (upper (slice txt s e))) by lia.
    rewrite He in Ha |- *. apply occurrence_of_token.
    + exact Hin.
    + rewrite <- He. reflexivity.
    + destruct s as [|q]; [now left | right]. simpl in *. now rewrite Nat.sub_0_r.
    + exact Ha.
Qed.


Lemma TABLE_NAMES_lengths : forall n, In n TABLE_NAMES -> length n = 4 \/ length n = 5.
Proof.
  assert (H : forallb (fun n => (length n =? 4) || (length n =? 5)) TABLE_NAMES = true)
    by (vm_compute; reflexivity).
  intros n Hin. rewrite forallb_forall in H. specialize (H n Hin).
  apply orb_true_iff in H. destruct H as [H|H]; apply Nat.eqb_eq in H; auto.
Qed.

(** X2. The matches of a text lie in the text, are four or five
    characters long and do not overlap: each ends before the next
    starts, with at least one character between them. *)
Theorem matches_lie_apart : forall txt,
  StronglySorted (fun a b => m_end a < m_start b) (TABLE_RE_finditer txt)
  /\ Forall (fun m =>
       m_end m <= length txt
       /\ (m_end m = m_start m + 4 \/ m_end m = m_start m + 5))
     (TABLE_RE_finditer txt).
Proof.
  intro txt. split; [exact (finditer_sorted txt)|].
  apply Forall_forall. intros m Hm. apply finditer_occurrence in Hm.
  pose proof Hm as (_ & _ & Hin & Hlt & Hlen). split; [exact Hlen|].
  pose proof (TABLE_NAMES_lengths _ Hin) as Hn.
  rewrite upper_length, slice_length in Hn. lia.
Qed.

(** X3. The matches come out of the matcher in the order of their
    starts: the sort of [remediate_code] leaves them as they are. *)
Theorem sorting_the_matches_changes_nothing : forall txt,
  sorted_by_start (TABLE_RE_finditer txt) = TABLE_RE_finditer txt.
Proof. intro txt. apply sorted_by_start_finditer. Qed.


(** ** The issues *)

Lemma snippet_at_window : forall text s e,
  s <= e <= length text ->
  length (snippet_at text s e) = Nat.min (length text) (e + 60) - (s - 60)
  /\ slice (snippet_at text s e) (Nat.min s 60) (Nat.min s 60 + (e - s)) = slice text s e.
Proof.
  intros text s e H. unfold snippet_at. cbn [Nat.max]. split.
  - rewrite slice_length. lia.
  - rewrite slice_slice by lia. f_equal; lia.
Qed.


(** X6. Every issue has the target type Table, no used field, no
    suggested field, the flag [ambiguous] down, and the note of its
    table in [TABLE_MAP], which is never missing and never empty. *)
Theorem issues_carry_fixed_fields_and_a_note : forall now txt,
  exists out iss,
    remediate_code now txt = Ok (out, iss)
    /\ Forall (fun i =>
         target_type i = L "Table"
         /\ used_fields i = []
         /\ ambiguous i = false
         /\ suggested_fields i = None
         /\ exists info n,
              dict_get TABLE_MAP (table i) = Some info
              /\ dict_get info (L "note") = Some n
              /\ n <> []
              /\ note i = Some n) iss.
Proof.
  intros now txt. rewrite remediate_code_eq. eexists _, _. split; [reflexivity|].
  apply Forall_forall. intros i Hi. apply in_map_iff in Hi.
  destruct Hi as (m & Hi & Hm). subst i.
  apply filter_In in Hm. destruct Hm as [Hm _]. apply finditer_occurrence in Hm.
  destruct (TABLE_MAP_entry _ (name_of_occurrence _ _ Hm)) as (new & c & n & Hg).
  repeat (split; [reflexivity|]).
  exists [(L "new", new); (L "note", c :: n)], (c :: n).
  cbn [table issue_of note]. split; [exact Hg|]. split; [reflexivity|].
  split; [discriminate|]. unfold note_of. rewrite Hg. reflexivity.
Qed.

(** ** The length and the lines of the remediated text *)

Lemma new_of_longer : forall n, In n TABLE_NAMES -> length n < length (new_of n).
Proof.
  assert (H : forallb (fun n => length n <? length (new_of n)) TABLE_NAMES = true)
    by (vm_compute; reflexivity).
  intros n Hin. rewrite forallb_forall in H. apply Nat.ltb_lt. now apply H.
Qed.

Lemma name_of_length : forall txt m,
  is_occurrence txt m -> length (name_of txt m) = m_end m - m_start m.
Proof.
  intros txt m (_ & _ & _ & Hlt & Hlen). unfold name_of, group_name.
  rewrite upper_length, slice_length. lia.
Qed.

Lemma growth_positive : forall mk txt m, is_occurrence txt m -> 0 < growth mk txt m.
Proof.
  intros mk txt m Ho. unfold growth.
  pose proof (new_of_longer _ (name_of_occurrence _ _ Ho)) as H.
  rewrite (name_of_length _ _ Ho) in H. lia.
Qed.

Lemma render_length : forall mk txt ms cur,
  Forall (fun m => is_occurrence txt m /\ cur <= m_start m) ms ->
  StronglySorted apart ms ->
  length (render mk txt cur ms)
  = (length txt - cur) + list_sum (map (growth mk txt) (filter (is_rewritable txt) ms)).
Proof.
  intros mk txt; induction ms as [|m ms IH]; intros cur Hc Hs.
  - cbn. unfold slice_from. rewrite length_skipn. lia.
  - inversion Hc as [|? ? [Ho Hle] Hc']; subst. inversion Hs as [|? ? Hs' Hap]; subst.
    assert (Hnext : Forall (fun x => is_occurrence txt x /\ m_end m <= m_start x) ms).
    { apply Forall_forall. intros x Hx. rewrite Forall_forall in Hc', Hap.
      specialize (Hap x Hx). unfold apart in Hap. destruct (Hc' x Hx). split; [assumption | lia]. }
    pose proof Ho as (_ & _ & _ & Hlt & Hlen).
    pose proof (new_of_longer _ (name_of_occurrence _ _ Ho)) as Hnew.
    rewrite (name_of_length _ _ Ho) in Hnew.
    cbn [render filter]. unfold is_rewritable at 1.
    destruct (is_protected txt m); cbn [negb map list_sum fold_right];
      rewrite !length_app, (IH (m_end m) Hnext Hs'), !slice_length; unfold growth, list_sum; lia.
Qed.


Lemma count_newlines_app : forall a b,
  count_newlines (a ++ b) = count_newlines a + count_newlines b.
Proof. intros; apply count_occ_app. Qed.

Lemma count_newlines_none : forall s, ~ In newline s -> count_newlines s = 0.
Proof. intros s H. now apply count_occ_not_In. Qed.

Lemma word_chars_no_newline : forall s,
  Forall (fun c => is_word c = true) s -> ~ In newline s.
Proof.
  intros s H Hin. rewrite Forall_forall in H. specialize (H _ Hin). discriminate.
Qed.

Lemma match_no_newline : forall txt m,
  is_occurrence txt m -> count_newlines (slice txt (m_start m) (m_end m)) = 0.
Proof.
  intros txt m Ho. apply count_newlines_none. intro Hin.
  apply In_nth_error in Hin. destruct Hin as (i & Hi).
  rewrite slice_nth in Hi. destruct (i <? m_end m - m_start m) eqn:E; [|discriminate].
  apply Nat.ltb_lt in E.
  pose proof (occurrence_inside _ _ _ Ho (m_start m + i) ltac:(lia)) as Hw.
  rewrite (word_at_nth _ _ _ Hi) in Hw. discriminate.
Qed.

Lemma count_newlines_slice_skipn : forall (txt : str) lo hi,
  lo <= hi ->
  count_newlines (slice txt lo hi) + count_newlines (skipn hi txt)
  = count_newlines (skipn lo txt).
Proof.
  intros txt lo hi H. rewrite <- count_newlines_app. now rewrite slice_skipn.
Qed.

Lemma marker_newlines : forall now,
  count_newlines (change_marker_of (strftime_Ymd now)) = 2.
Proof.
  intro now.
  assert (Hz : forall w n, count_newlines (zfill w (decimal n)) = 0).
  { intros w n. apply count_newlines_none. intro Hin.
    pose proof (zfill_decimal_digits w n) as H. rewrite Forall_forall in H.
    specialize (H _ Hin). vm_compute in H. discriminate H. }
  unfold change_marker_of, strftime_Ymd.
  rewrite !count_newlines_app, !Hz. vm_compute. reflexivity.
Qed.

Lemma render_newlines : forall now txt ms cur,
  Forall (fun m => is_occurrence txt m /\ cur <= m_start m) ms ->
  StronglySorted apart ms ->
  count_newlines (render (change_marker_of (strftime_Ymd now)) txt cur ms)
  = count_newlines (skipn cur txt) + 2 * length (filter (is_rewritable txt) ms).
Proof.
  intros now txt; induction ms as [|m ms IH]; intros cur Hc Hs.
  - cbn [render filter length]. unfold slice_from. lia.
  - inversion Hc as [|? ? [Ho Hle] Hc']; subst. inversion Hs as [|? ? Hs' Hap]; subst.
    assert (Hnext : Forall (fun x => is_occurrence txt x /\ m_end m <= m_start x) ms).
    { apply Forall_forall. intros x Hx. rewrite Forall_forall in Hc', Hap.
      specialize (Hap x Hx). unfold apart in Hap. destruct (Hc' x Hx). split; [assumption | lia]. }
    pose proof Ho as (_ & _ & _ & Hlt & Hlen).
    pose proof (match_no_newline _ _ Ho) as Hm0.
    pose proof (count_newlines_slice_skipn txt cur (m_start m) Hle) as H1.
    pose proof (count_newlines_slice_skipn txt (m_start m) (m_end m) ltac:(lia)) as H2.
    pose proof (count_newlines_slice_skipn txt cur (m_end m) ltac:(lia)) as H3.
    cbn [render filter]. unfold is_rewritable at 1.
    destruct (is_protected txt m); cbn [negb length];
      rewrite !count_newlines_app, (IH (m_end m) Hnext Hs').
    + lia.
    + destruct (new_of_inert _ (name_of_occurrence _ _ Ho)) as (_ & Hw & _).
      rewrite (count_newlines_none _ (word_chars_no_newline _ Hw)), marker_newlines. lia.
Qed.

(** X8. Each rewritten match adds two newlines, the two of its change
    marker, and nothing else changes the number of lines: the
    remediated text has the newlines of the original and two more for
    each issue. *)
Theorem each_issue_adds_two_newlines : forall now txt,
  exists out iss,
    remediate_code now txt = Ok (out, iss)
    /\ count_newlines out = count_newlines txt + 2 * length iss.
Proof.
  intros now txt. rewrite remediate_code_eq. eexists _, _. split; [reflexivity|].
  rewrite render_newlines, length_map; [reflexivity | | apply finditer_sorted].
  pose proof (finditer_all_occurrences txt) as Ho.
  apply Forall_forall. intros m Hm. rewrite Forall_forall in Ho. split; [auto | lia].
Qed.

(** ** Protected lines *)

Lemma space_prefix_unique : forall ws ws' c r c' r',
  all_space ws -> all_space ws' -> is_space c = false -> is_space c' = false ->
  ws ++ c :: r = ws' ++ c' :: r' -> ws = ws' /\ c :: r = c' :: r'.
Proof.
  induction ws as [|a ws IH]; intros [|a' ws'] c r c' r' F F' Hc Hc' E.
  - split; [reflexivity | exact E].
  - cbn [app] in E. injection E as E1 _. subst a'.
    inversion F' as [|? ? Ha _]; subst. congruence.
  - cbn [app] in E. injection E as E1 _. subst a.
    inversion F as [|? ? Ha _]; subst. congruence.
  - cbn [app] in E. injection E as E1 E2. subst a'.
    inversion F as [|? ? _ Fw]; subst. inversion F' as [|? ? _ Fw']; subst.
    destruct (IH ws' c r c' r' Fw Fw' Hc Hc' E2) as [-> E3]. split; [reflexivity | exact E3].
Qed.

Lemma word_prefix_unique : forall X Y rX rY,
  Forall (fun c => is_word c = true) X -> Forall (fun c => is_word c = true) Y ->
  X ++ rX = Y ++ rY -> starts_word rX = false -> starts_word rY = false ->
  X = Y.
Proof.
  induction X as [|c X IH]; intros [|d Y] rX rY FX FY E HX HY.
  - reflexivity.
  - cbn [app] in E. subst rX. inversion FY as [|? ? Hd _]; subst.
    cbn [starts_word] in HX. congruence.
  - cbn [app] in E. subst rY. inversion FX as [|? ? Hc _]; subst.
    cbn [starts_word] in HY. congruence.
  - cbn [app] in E. injection E as -> E.
    inversion FX as [|? ? _ FX']; subst. inversion FY as [|? ? _ FY']; subst.
    f_equal. exact (IH Y rX rY FX' FY' E HX HY).
Qed.

Lemma vocabulary_boundary : forall n rest,
  In n TABLE_NAMES -> word_boundary n rest -> starts_word rest = false.
Proof.
  intros n rest Hin Hb. unfold word_boundary in Hb.
  rewrite (ends_word_vocabulary _ Hin) in Hb.
  destruct (starts_word rest); [discriminate | reflexivity].
Qed.

Lemma vocabulary_words : forall n,
  In n TABLE_NAMES -> Forall (fun c => is_word c = true) n.
Proof.
  intros n Hin. destruct (TABLE_NAMES_letters _ Hin) as [Hl _].
  eapply Forall_impl; [|exact Hl]. intros c Hc. now apply upper_letter_is_word.
Qed.

Lemma names_after_spaces : forall ws ws' X Y rX rY,
  In X TABLE_NAMES -> In Y TABLE_NAMES ->
  all_space ws -> all_space ws' ->
  word_boundary X rX -> word_boundary Y rY ->
  ws ++ X ++ rX = ws' ++ Y ++ rY -> X = Y.
Proof.
  intros ws ws' X Y rX rY HX HY F F' BX BY E.
  destruct (names_start_with_M _ HX) as (X' & EX).
  destruct (names_start_with_M _ HY) as (Y' & EY).
  assert (E' : ws ++ ascii_of_nat 77 :: (X' ++ rX) = ws' ++ ascii_of_nat 77 :: (Y' ++ rY))
    by (rewrite EX, EY in E; exact E).
  apply space_prefix_unique in E'; try assumption; try reflexivity.
  destruct E' as [_ E'].
  apply (word_prefix_unique X Y rX rY).
  - now apply vocabulary_words.
  - now apply vocabulary_words.
  - rewrite EX, EY. exact E'.
  - exact (vocabulary_boundary _ _ HX BX).
  - exact (vocabulary_boundary _ _ HY BY).
Qed.

Lemma line_protects_one_name : forall line X Y,
  In X TABLE_NAMES -> In Y TABLE_NAMES ->
  protected_line line X -> protected_line line Y -> X = Y.
Proof.
  intros line X Y HX HY
    [(ws & kw & ws1 & rX & EL & Fws & Hkw & N1 & F1 & BX)
    |(ws & ws1 & ws2 & rX & EL & Fws & N1 & F1 & N2 & F2 & BX)]
    [(ws' & kw' & ws1' & rY & EL' & Fws' & Hkw' & N1' & F1' & BY)
    |(ws' & ws1' & ws2' & rY & EL' & Fws' & N1' & F1' & N2' & F2' & BY)];
    rewrite EL in EL'; clear EL.
  - destruct Hkw as [-> | ->], Hkw' as [-> | ->];
      cbn [L list_ascii_of_string app] in EL';
      apply space_prefix_unique in EL'; try assumption; try reflexivity;
      destruct EL' as [_ EL']; try discriminate EL';
      injection EL' as EL';
      exact (names_after_spaces _ _ _ _ _ _ HX HY F1 F1' BX BY EL').
  - destruct Hkw as [-> | ->];
      cbn [L list_ascii_of_string app] in EL';
      apply space_prefix_unique in EL'; try assumption; try reflexivity;
      destruct EL' as [_ EL']; discriminate EL'.
  - destruct Hkw' as [-> | ->];
      cbn [L list_ascii_of_string app] in EL';
      apply space_prefix_unique in EL'; try assumption; try reflexivity;
      destruct EL' as [_ EL']; discriminate EL'.
  - cbn [L list_ascii_of_string app] in EL'.
    apply space_prefix_unique in EL'; try assumption; try reflexivity.
    destruct EL' as [_ EL']. injection EL' as EL'.
    destruct ws1 as [|a ws1]; [congruence|]. destruct ws1' as [|a' ws1']; [congruence|].
    replace ((a :: ws1) ++ "F"%char :: "R"%char :: "O"%char :: "M"%char :: ws2 ++ X ++ rX)
      with ((a :: ws1) ++ "F"%char :: ("R"%char :: "O"%char :: "M"%char :: ws2 ++ X ++ rX))
      in EL' by reflexivity.
    apply space_prefix_unique in EL'; try assumption; try reflexivity.
    destruct EL' as [_ EL']. injection EL' as EL'.
    exact (names_after_spaces _ _ _ _ _ _ HX HY F2 F2' BX BY EL').
Qed.

(** X9. A line protects one table name at most: when a match is
    Protected, another match with the same enclosing line is Protected
    exactly when it is an occurrence of the same name, wherever it
    stands on the line. *)
Theorem one_name_is_protected_per_line : forall txt p q,
  In p (TABLE_RE_finditer txt) -> In q (TABLE_RE_finditer txt) ->
  line_of txt p = line_of txt q ->
  is_protected txt p = true ->
  (is_protected txt q = true <-> name_of txt q = name_of txt p).
Proof.
  intros txt p q Hp Hq El Pp. apply finditer_occurrence in Hp, Hq.
  unfold is_protected in *. split.
  - intro Pq. rewrite El in Pp. apply skip_condition_iff in Pp, Pq.
    exact (line_protects_one_name _ _ _ (name_of_occurrence _ _ Hq)
             (name_of_occurrence _ _ Hp) Pq Pp).
  - intro En. now rewrite En, <- El.
Qed.

Lemma one_name_is_protected_per_line_witness :
  let txt := L "UPDATE MSEG SET a = MARD-b WHERE c = MSEG-d." in
  let p := {| m_start := 7; m_end := 11 |} in
  (is_protected txt {| m_start := 20; m_end := 24 |} = true
   <-> name_of txt {| m_start := 20; m_end := 24 |} = name_of txt p)
  /\ (is_protected txt {| m_start := 37; m_end := 41 |} = true
   <-> name_of txt {| m_start := 37; m_end := 41 |} = name_of txt p).
Proof.
  split; apply one_name_is_protected_per_line; vm_compute; auto 10.
Defined.

(** ** The API *)

Lemma unit_body_eq : forall now results u,
  unit_body now results u = Ok (results ++ [response_of now u]).
Proof.
  intros now results u. unfold unit_body. rewrite remediate_code_eq.
  cbn [bind]. reflexivity.
Qed.

Lemma units_loop_eq : forall clock units i results,
  units_loop clock i units results = Ok (results ++ responses clock i units).
Proof.
  intros clock; induction units as [|u units IH]; intros i results; cbn [units_loop responses].
  - now rewrite app_nil_r.
  - rewrite unit_body_eq. cbn [bind]. rewrite IH, <- app_assoc. reflexivity.
Qed.

Lemma remediate_mm_im_eq : forall clock units,
  remediate_mm_im clock units = Ok (responses clock 0 units).
Proof. intros. unfold remediate_mm_im. now rewrite units_loop_eq. Qed.

Lemma responses_length : forall clock units i,
  length (responses clock i units) = length units.
Proof.
  intros clock; induction units as [|u units IH]; intro i; cbn [responses length];
    [reflexivity | now rewrite IH].
Qed.

Lemma responses_nth : forall clock units i k,
  nth_error (responses clock i units) k
  = option_map (response_of (clock (i + k))) (nth_error units k).
Proof.
  intros clock; induction units as [|u units IH]; intros i [|k]; cbn [responses nth_error option_map];
    try reflexivity.
  - now rewrite Nat.add_0_r.
  - rewrite IH. now rewrite Nat.add_succ_r.
Qed.

Lemma responses_app : forall clock us1 us2 i,
  responses clock i (us1 ++ us2)
  = responses clock i us1 ++ responses clock (i + length us1) us2.
Proof.
  intros clock; induction us1 as [|u us1 IH]; intros us2 i; cbn [responses app length].
  - now rewrite Nat.add_0_r.
  - rewrite IH. now rewrite Nat.add_succ_r.
Qed.

Lemma responses_shift : forall clock units i k,
  responses clock (k + i) units = responses (fun j => clock (k + j)) i units.
Proof.
  intros clock; induction units as [|u units IH]; intros i k; cbn [responses];
    [reflexivity|].
  f_equal. rewrite <- IH. now rewrite Nat.add_succ_r.
Qed.

Lemma dict_get_app_miss : forall (V : Type) (d : dict V) k' v key,
  k' <> key -> dict_get (d ++ [(k', v)]) key = dict_get d key.
Proof.
  intros V d k' v key Hne. induction d as [|[k0 v0] d IH]; cbn [app dict_get].
  - destruct (str_eqb k' key) eqn:E; [|reflexivity].
    apply str_eqb_eq in E. congruence.
  - destruct (str_eqb k0 key); [reflexivity | exact IH].
Qed.

(** X10. The API never raises and answers every unit: the response has
    one object for each unit, and every object has the six fields of a
    unit followed by [remediated_code], and no list of issues. *)
Theorem api_answers_every_unit : forall clock units,
  exists objs,
    remediate_mm_im clock units = Ok objs
    /\ length objs = length units
    /\ Forall (fun o => dict_keys o = response_keys
                        /\ dict_get o (L "mb_txn_usage") = None) objs.
Proof.
  intros clock units. rewrite remediate_mm_im_eq. eexists. split; [reflexivity|].
  split; [apply responses_length|].
  generalize 0. induction units as [|u units IH]; intro i; cbn [responses]; constructor.
  - split; reflexivity.
  - apply IH.
Qed.

(** X11. The object at an index of the response is made from the unit
    at that index alone: its [remediated_code] is the text the engine
    returns for the code of the unit, the empty text standing for a
    missing code, and every other key has the value the unit was sent
    with. *)
Theorem api_returns_the_unit_and_the_new_code : forall clock units,
  exists objs,
    remediate_mm_im clock units = Ok objs
    /\ forall k,
         match nth_error units k, nth_error objs k with
         | Some u, Some o =>
             (exists out iss,
                remediate_code (clock k) (or_empty (original_code u)) = Ok (out, iss)
                /\ dict_get o (L "remediated_code") = Some (JStr out))
             /\ (forall key, key <> L "remediated_code" ->
                   dict_get o key = dict_get (model_dump u) key)
             /\ dict_get o (L "original_code") = Some (json_of_optional (original_code u))
         | None, None => True
         | _, _ => False
         end.
Proof.
  intros clock units. rewrite remediate_mm_im_eq. eexists. split; [reflexivity|].
  intro k. rewrite responses_nth. cbn [Nat.add].
  destruct (nth_error units k) as [u|]; cbn [option_map]; [|exact I].
  split; [|split].
  - rewrite remediate_code_eq. eexists _, _. split; reflexivity.
  - intros key Hne. unfold response_of. apply dict_get_app_miss. congruence.
  - reflexivity.
Qed.

(** X12. The response to a batch is the response to its first part
    followed by the response to the rest, the clock of the rest being
    read from where the first part stopped. *)
Theorem api_handles_units_one_by_one : forall clock us1 us2,
  exists o1 o2,
    remediate_mm_im clock us1 = Ok o1
    /\ remediate_mm_im (fun i => clock (length us1 + i)) us2 = Ok o2
    /\ remediate_mm_im clock (us1 ++ us2) = Ok (o1 ++ o2).
Proof.
  intros clock us1 us2. rewrite !remediate_mm_im_eq. eexists _, _.
  split; [reflexivity|]. split; [reflexivity|].
  rewrite responses_app. cbn [Nat.add].
  rewrite <- (responses_shift clock us2 0 (length us1)), Nat.add_0_r. reflexivity.
Qed.

(** X13. A unit whose code holds no whole-word vocabulary name gets its
    code back as [remediated_code]; a unit sent without code gets the
    empty text, and its [original_code] stays [null]. *)
Theorem api_returns_clean_code_unchanged : forall clock units k u,
  nth_error units k = Some u ->
  TABLE_RE_finditer (or_empty (original_code u)) = [] ->
  exists objs o,
    remediate_mm_im clock units = Ok objs
    /\ nth_error objs k = Some o
    /\ dict_get o (L "remediated_code") = Some (JStr (or_empty (original_code u)))
    /\ dict_get o (L "original_code") = Some (json_of_optional (original_code u)).
Proof.
  intros clock units k u Hu Hm. rewrite remediate_mm_im_eq. eexists _, _.
  split; [reflexivity|]. rewrite responses_nth, Hu. cbn [option_map].
  split; [reflexivity|]. split; [|reflexivity].
  unfold response_of, remediated_text. rewrite Hm. cbn [render]. reflexivity.
Qed.

Lemma api_returns_clean_code_unchanged_witness :
  let u := {| pgm_name := L "ZMM01"; inc_name := L "ZMM01_TOP"; type := L "PROG";
              name := None; class_implementation := None; original_code := None |} in
  let v := {| pgm_name := L "ZMM02"; inc_name := L "ZMM02_F01"; type := L "INCL";
              name := Some (L "F01"); class_implementation := None;
              original_code := Some (L "WRITE: / lv_marc.") |} in
  let clock := fun _ : nat => morning in
  (exists objs o,
     remediate_mm_im clock [v; u] = Ok objs
     /\ nth_error objs 1 = Some o
     /\ dict_get o (L "remediated_code") = Some (JStr [])
     /\ dict_get o (L "original_code") = Some JNull)
  /\ (exists objs o,
     remediate_mm_im clock [v; u] = Ok objs
     /\ nth_error objs 0 = Some o
     /\ dict_get o (L "remediated_code") = Some (JStr (L "WRITE: / lv_marc."))
     /\ dict_get o (L "original_code") = Some (JStr (L "WRITE: / lv_marc."))).
Proof.
  intros u v clock. split.
  - apply (api_returns_clean_code_unchanged clock [v; u] 1 u); reflexivity.
  - apply (api_returns_clean_code_unchanged clock [v; u] 0 v); [reflexivity | vm_compute; reflexivity].
Defined.

(** ** A text of two parts separated by a newline *)

Lemma two_parts_nth : forall (X Y : str),
  (forall i, i < length X -> nth_error (X ++ newline :: Y) i = nth_error X i)
  /\ nth_error (X ++ newline :: Y) (length X) = Some newline
  /\ (forall j, nth_error (X ++ newline :: Y) (S (length X) + j) = nth_error Y j)
  /\ length (X ++ newline :: Y) = S (length X) + length Y.
Proof.
  intros X Y. repeat split.
  - intros i Hi. now apply nth_error_app1.
  - rewrite nth_error_app2, Nat.sub_diag by lia. reflexivity.
  - intro j. rewrite nth_error_app2 by lia.
    replace (S (length X) + j - length X) with (S j) by lia. reflexivity.
  - rewrite length_app. simpl. lia.
Qed.

Lemma occurrence_split : forall X Y s e,
  occurrence (X ++ newline :: Y) s e ->
  (e <= length X /\ occurrence X s e)
  \/ (S (length X) <= s
      /\ occurrence Y (s - S (length X)) (e - S (length X))).
Proof.
  intros X Y s e Hm.
  destruct (two_parts_nth X Y) as (nthX & nthNL & nthY & HlenT).
  set (T := X ++ newline :: Y) in *.
  pose proof Hm as (_ & _ & _ & Hlt & Hlen).
  assert (Hside : e <= length X \/ S (length X) <= s).
  { destruct (Nat.le_gt_cases e (length X)) as [|He]; [now left | right].
    destruct (Nat.le_gt_cases (S (length X)) s) as [|Hs]; [assumption | exfalso].
    pose proof (occurrence_inside _ _ _ Hm (length X) ltac:(lia)) as Hw.
    rewrite (word_at_nth _ _ _ nthNL) in Hw. discriminate. }
  destruct Hside as [He|Hs]; [left | right]; (split; [assumption|]).
  - assert (Hag : forall i, s <= i < e -> nth_error T (0 + i) = nth_error X (0 + i))
      by (intros i Hi; apply nthX; lia).
    apply (occurrence_transfer T X 0 0 s e); [exact Hm | exact Hag | |].
    + pose proof (occurrence_word_before _ _ _ Hm) as Hb.
      destruct s as [|q]; [reflexivity|]. simpl in *.
      rewrite <- Hb. symmetry. apply word_at_agree. apply nthX. lia.
    + simpl. destruct (Nat.eq_dec e (length X)) as [->|Hne].
      * unfold word_at.
        replace (nth_error X (length X)) with (@None ascii); [reflexivity|].
        symmetry. apply nth_error_None. lia.
      * rewrite <- (occurrence_after _ _ _ Hm). symmetry.
        apply word_at_agree. apply nthX. lia.
  - set (c := S (length X)) in *.
    assert (Es : s = c + (s - c)) by lia. assert (Ee : e = c + (e - c)) by lia.
    set (u := s - c) in *. set (v := e - c) in *.
    rewrite Es, Ee in Hm.
    assert (Hag : forall i, u <= i < v -> nth_error T (c + i) = nth_error Y (0 + i))
      by (intros i Hi; apply nthY).
    apply (occurrence_transfer T Y c 0 u v); [exact Hm | exact Hag | |].
    + simpl. destruct u as [|q] eqn:Eu; [reflexivity|]. simpl.
      pose proof (occurrence_word_before _ _ _ Hm) as Hb.
      replace (c + S q) with (S (c + q)) in Hb by lia. simpl in Hb.
      rewrite <- Hb. symmetry. apply word_at_agree. apply nthY.
    + simpl. rewrite <- (occurrence_after _ _ _ Hm). symmetry.
      apply word_at_agree. apply nthY.
Qed.

Lemma occurrence_left : forall X Y s e,
  occurrence X s e -> occurrence (X ++ newline :: Y) s e.
Proof.
  intros X Y s e Ho.
  destruct (two_parts_nth X Y) as (nthX & nthNL & nthY & HlenT).
  set (T := X ++ newline :: Y) in *.
  pose proof Ho as (_ & _ & _ & Hlt & Hlen).
  apply (occurrence_transfer X T 0 0 s e); [exact Ho | | |].
  - intros i Hi. simpl. symmetry. apply nthX. lia.
  - pose proof (occurrence_word_before _ _ _ Ho) as Hb.
    destruct s as [|q]; [reflexivity|]. simpl in *.
    rewrite <- Hb. apply word_at_agree. apply nthX. lia.
  - simpl. destruct (Nat.eq_dec e (length X)) as [->|Hne].
    + now rewrite (word_at_nth _ _ _ nthNL).
    + rewrite <- (occurrence_after _ _ _ Ho). apply word_at_agree. apply nthX. lia.
Qed.

Lemma occurrence_right : forall X Y u v,
  occurrence Y u v ->
  occurrence (X ++ newline :: Y) (S (length X) + u) (S (length X) + v).
Proof.
  intros X Y u v Ho.
  destruct (two_parts_nth X Y) as (nthX & nthNL & nthY & HlenT).
  set (T := X ++ newline :: Y) in *. set (c := S (length X)) in *.
  apply (occurrence_transfer Y T 0 c u v); [exact Ho | | |].
  - intros i Hi. simpl. symmetry. apply nthY.
  - destruct u as [|q].
    + replace (c + 0) with (S (length X)) by (unfold c; lia). simpl.
      now rewrite (word_at_nth _ _ _ nthNL).
    + pose proof (occurrence_word_before _ _ _ Ho) as Hb. simpl in Hb.
      replace (c + S q) with (S (c + q)) by lia. simpl.
      rewrite <- Hb. apply word_at_agree. apply nthY.
  - rewrite <- (occurrence_after _ _ _ Ho). apply word_at_agree. apply nthY.
Qed.

Lemma name_left : forall X Y m,
  is_occurrence X m -> name_of (X ++ newline :: Y) m = name_of X m.
Proof.
  intros X Y [s e] Ho. destruct (two_parts_nth X Y) as (nthX & _).
  pose proof Ho as (_ & _ & _ & Hlt & Hlen). cbn [m_start m_end] in *.
  apply (name_of_transfer X (X ++ newline :: Y) 0 0 s e).
  intros i Hi. simpl. symmetry. apply nthX. lia.
Qed.

Lemma name_right : forall X Y m,
  name_of (X ++ newline :: Y) (shift (S (length X)) m) = name_of Y m.
Proof.
  intros X Y [u v]. destruct (two_parts_nth X Y) as (_ & _ & nthY & _).
  unfold shift. cbn [m_start m_end].
  apply (name_of_transfer Y (X ++ newline :: Y) 0 (S (length X)) u v).
  intros i Hi. symmetry. apply nthY.
Qed.

Lemma protected_left : forall X Y m,
  is_occurrence X m -> is_protected (X ++ newline :: Y) m = is_protected X m.
Proof.
  intros X Y [s e] HoX. unfold is_occurrence in HoX. cbn [m_start m_end] in HoX.
  destruct (two_parts_nth X Y) as (nthX & nthNL & nthY & HlenT).
  set (T := X ++ newline :: Y) in *.
  pose proof HoX as (_ & _ & _ & Hlt & He).
  destruct (line_start_spec X {| m_start := s; m_end := e |}) as (Hs1 & Hs2 & _).
  destruct (line_end_spec X {| m_start := s; m_end := e |} He) as (He1 & He2 & _).
  cbn [m_start m_end] in *.
  apply (is_protected_transfer X T 0 0 s e);
    [intros i Hi; simpl; symmetry; apply nthX; lia|].
  apply (line_of_transfer X T 0 0 s e HoX
           (line_start_of X {| m_start := s; m_end := e |})
           (line_end_of X {| m_start := s; m_end := e |}));
    try reflexivity.
  - intros i Hi. simpl. symmetry. apply nthX. lia.
  - simpl. destruct Hs2 as [H0|Hn]; [now left|].
    destruct (Nat.eq_dec (line_start_of X {| m_start := s; m_end := e |}) 0) as [E0|E0];
      [now left | right].
    rewrite nthX; [exact Hn | lia].
  - simpl. lia.
  - simpl. right. destruct He2 as [H0|Hn].
    + rewrite H0. exact nthNL.
    + rewrite nthX; [exact Hn|]. apply nth_error_Some. congruence.
Qed.

Lemma protected_right : forall X Y m,
  is_occurrence Y m ->
  is_protected (X ++ newline :: Y) (shift (S (length X)) m) = is_protected Y m.
Proof.
  intros X Y [u v] HoY. unfold is_occurrence in HoY. cbn [m_start m_end] in HoY.
  destruct (two_parts_nth X Y) as (nthX & nthNL & nthY & HlenT).
  set (T := X ++ newline :: Y) in *. set (c := S (length X)) in *.
  pose proof HoY as (_ & _ & _ & _ & HlenY).
  destruct (line_start_spec Y {| m_start := u; m_end := v |}) as (Hs1 & Hs2 & _).
  destruct (line_end_spec Y {| m_start := u; m_end := v |} HlenY) as (He1 & He2 & _).
  unfold shift. cbn [m_start m_end] in *.
  apply (is_protected_transfer Y T 0 c u v);
    [intros i Hi; symmetry; apply nthY|].
  apply (line_of_transfer Y T 0 c u v HoY
           (line_start_of Y {| m_start := u; m_end := v |})
           (line_end_of Y {| m_start := u; m_end := v |}));
    try reflexivity.
  - intros i Hi. simpl. symmetry. apply nthY.
  - right.
    destruct (line_start_of Y {| m_start := u; m_end := v |}) as [|q] eqn:Eq.
    + replace (c + 0 - 1) with (length X) by (unfold c; lia). exact nthNL.
    + destruct Hs2 as [H0|Hn]; [discriminate|].
      simpl in Hn. rewrite Nat.sub_0_r in Hn.
      replace (c + S q - 1) with (c + q) by lia. rewrite nthY. exact Hn.
  - lia.
  - destruct He2 as [H0|Hn]; [left; lia | right]. rewrite nthY. exact Hn.
Qed.

Lemma sorted_apart_unique : forall l1 l2,
  StronglySorted apart l1 -> StronglySorted apart l2 ->
  Forall (fun m => m_start m < m_end m) l1 ->
  Forall (fun m => m_start m < m_end m) l2 ->
  (forall m, In m l1 <-> In m l2) -> l1 = l2.
Proof.
  induction l1 as [|a l1 IH]; intros [|b l2] S1 S2 F1 F2 Hin.
  - reflexivity.
  - exfalso. apply (proj2 (Hin b)). now left.
  - exfalso. apply (proj1 (Hin a)). now left.
  - inversion S1 as [|? ? S1' A1]; subst. inversion S2 as [|? ? S2' A2]; subst.
    inversion F1 as [|? ? Ha F1']; subst. inversion F2 as [|? ? Hb F2']; subst.
    rewrite Forall_forall in A1, A2.
    assert (Eab : a = b).
    { destruct (proj1 (Hin a) (or_introl eq_refl)) as [E|Ia]; [now symmetry|].
      destruct (proj2 (Hin b) (or_introl eq_refl)) as [E|Ib]; [assumption|].
      specialize (A1 _ Ib). specialize (A2 _ Ia). unfold apart in *. lia. }
    subst b. f_equal. apply IH; try assumption.
    intro m; split; intro Hm.
    + destruct (proj1 (Hin m) (or_intror Hm)) as [E|I]; [|assumption].
      subst m. specialize (A1 _ Hm). unfold apart in A1. lia.
    + destruct (proj2 (Hin m) (or_intror Hm)) as [E|I]; [|assumption].
      subst m. specialize (A2 _ Hm). unfold apart in A2. lia.
Qed.

Lemma sorted_app : forall (A : Type) (R : A -> A -> Prop) l1 l2,
  StronglySorted R l1 -> StronglySorted R l2 ->
  (forall a b, In a l1 -> In b l2 -> R a b) ->
  StronglySorted R (l1 ++ l2).
Proof.
  intros A R; induction l1 as [|a l1 IH]; intros l2 S1 S2 H; cbn [app]; [assumption|].
  inversion S1 as [|? ? S1' A1]; subst. constructor.
  - apply IH; [assumption | assumption |]. intros x y Hx Hy. apply H; [now right | assumption].
  - apply Forall_app. split; [assumption|].
    apply Forall_forall. intros y Hy. apply H; [now left | assumption].
Qed.

Lemma sorted_shift : forall c l,
  StronglySorted apart l -> StronglySorted apart (map (shift c) l).
Proof.
  intros c; induction l as [|a l IH]; intro S1; cbn [map]; [constructor|].
  inversion S1 as [|? ? S1' A1]; subst. constructor; [now apply IH|].
  apply Forall_forall. intros y Hy. apply in_map_iff in Hy. destruct Hy as (x & <- & Hx).
  rewrite Forall_forall in A1. specialize (A1 _ Hx).
  unfold apart, shift in *. cbn [m_start m_end]. lia.
Qed.

(** The matches of the text are the matches of the first part followed
    by the matches of the second, moved behind the newline. *)
Lemma finditer_two_parts : forall X Y,
  TABLE_RE_finditer (X ++ newline :: Y)
  = TABLE_RE_finditer X ++ map (shift (S (length X))) (TABLE_RE_finditer Y).
Proof.
  intros X Y. apply sorted_apart_unique.
  - apply finditer_sorted.
  - apply sorted_app; [apply finditer_sorted | apply sorted_shift, finditer_sorted |].
    intros a b Ha Hb. apply finditer_occurrence in Ha. destruct Ha as (_ & _ & _ & _ & Ha).
    apply in_map_iff in Hb. destruct Hb as (x & <- & _).
    unfold apart, shift. cbn [m_start m_end]. lia.
  - apply Forall_forall. intros m Hm. apply finditer_occurrence in Hm.
    destruct Hm as (_ & _ & _ & Hlt & _). exact Hlt.
  - apply Forall_app. split; apply Forall_forall; intros m Hm.
    + apply finditer_occurrence in Hm. destruct Hm as (_ & _ & _ & Hlt & _). exact Hlt.
    + apply in_map_iff in Hm. destruct Hm as (x & <- & Hx).
      apply finditer_occurrence in Hx. destruct Hx as (_ & _ & _ & Hlt & _).
      unfold shift. cbn [m_start m_end]. lia.
  - intros [s e]. rewrite in_app_iff, in_map_iff, !finditer_occurrence. split.
    + intro Hm. destruct (occurrence_split X Y s e Hm) as [[_ Ho]|[Hs Ho]]; [now left | right].
      pose proof Hm as (_ & _ & _ & Hlt & _). cbn [m_start m_end] in Hlt.
      exists {| m_start := s - S (length X); m_end := e - S (length X) |}. split.
      * unfold shift. cbn [m_start m_end]. f_equal; lia.
      * apply finditer_occurrence. exact Ho.
    + intros [Ho|(x & E & Hx)].
      * now apply occurrence_left.
      * apply finditer_occurrence in Hx. destruct x as [u v].
        unfold shift in E. cbn [m_start m_end] in E. injection E as <- <-.
        now apply occurrence_right.
Qed.

Lemma slice_left_part : forall (X Y : str) cur,
  cur <= length X ->
  slice (X ++ newline :: Y) cur (S (length X)) = skipn cur X ++ [newline].
Proof.
  intros X Y cur Hc. unfold slice. rewrite skipn_app.
  replace (cur - length X) with 0 by lia. cbn [skipn].
  rewrite firstn_app, length_skipn.
  replace (S (length X) - cur - (length X - cur)) with 1 by lia.
  rewrite firstn_all2 by (rewrite length_skipn; lia). reflexivity.
Qed.

Lemma skipn_right_part : forall (X Y : str) cur,
  skipn (S (length X) + cur) (X ++ newline :: Y) = skipn cur Y.
Proof.
  intros X Y cur. rewrite skipn_app.
  rewrite skipn_all2 by lia.
  replace (S (length X) + cur - length X) with (S cur) by lia. reflexivity.
Qed.

Lemma render_left_part : forall mk X Y l1 cur,
  cur <= length X ->
  Forall (fun m => is_occurrence X m /\ cur <= m_start m) l1 ->
  StronglySorted apart l1 ->
  forall l2, Forall (fun m => S (length X) <= m_start m <= m_end m) l2 ->
  render mk (X ++ newline :: Y) cur (l1 ++ l2)
  = render mk X cur l1 ++ newline :: render mk (X ++ newline :: Y) (S (length X)) l2.
Proof.
  intros mk X Y; induction l1 as [|m l1 IH]; intros cur Hc Ho Hs l2 H2.
  - cbn [app render]. unfold slice_from.
    rewrite <- (render_advance mk (X ++ newline :: Y) cur (S (length X)) l2);
      [| lia | assumption].
    rewrite slice_left_part by assumption. rewrite <- app_assoc. reflexivity.
  - inversion Ho as [|? ? [Hm Hle] Ho']; subst. inversion Hs as [|? ? Hs' Hap]; subst.
    pose proof Hm as (_ & _ & _ & Hlt & Hlen).
    destruct (two_parts_nth X Y) as (nthX & _).
    assert (Hnext : Forall (fun x => is_occurrence X x /\ m_end m <= m_start x) l1).
    { apply Forall_forall. intros x Hx. rewrite Forall_forall in Ho', Hap.
      specialize (Hap x Hx). unfold apart in Hap. destruct (Ho' x Hx). split; [assumption | lia]. }
    cbn [app render]. rewrite (protected_left X Y m Hm), (name_left X Y m Hm).
    rewrite (IH (m_end m) Hlen Hnext Hs' l2 H2).
    assert (E1 : slice (X ++ newline :: Y) cur (m_end m) = slice X cur (m_end m))
      by (apply slice_agree; intros i Hi; apply nthX; lia).
    assert (E2 : slice (X ++ newline :: Y) cur (m_start m) = slice X cur (m_start m))
      by (apply slice_agree; intros i Hi; apply nthX; lia).
    rewrite E1, E2.
    destruct (is_protected X m); rewrite <- ?app_assoc; reflexivity.
Qed.

Lemma render_right_part : forall mk X Y ms cur,
  Forall (is_occurrence Y) ms ->
  render mk (X ++ newline :: Y) (S (length X) + cur) (map (shift (S (length X))) ms)
  = render mk Y cur ms.
Proof.
  intros mk X Y; induction ms as [|m ms IH]; intros cur Ho.
  - cbn [map render]. unfold slice_from. apply skipn_right_part.
  - inversion Ho as [|? ? Hm Ho']; subst.
    destruct (two_parts_nth X Y) as (_ & _ & nthY & _).
    cbn [map render]. rewrite (protected_right X Y m Hm), (name_right X Y m).
    change (m_end (shift (S (length X)) m)) with (S (length X) + m_end m).
    change (m_start (shift (S (length X)) m)) with (S (length X) + m_start m).
    rewrite (IH (m_end m) Ho').
    assert (E1 : slice (X ++ newline :: Y) (S (length X) + cur) (S (length X) + m_end m)
                 = slice Y cur (m_end m)).
    { apply (slice_shift_agree (X ++ newline :: Y) Y (S (length X)) 0 cur (m_end m)).
      intros i Hi. apply nthY. }
    assert (E2 : slice (X ++ newline :: Y) (S (length X) + cur) (S (length X) + m_start m)
                 = slice Y cur (m_start m)).
    { apply (slice_shift_agree (X ++ newline :: Y) Y (S (length X)) 0 cur (m_start m)).
      intros i Hi. apply nthY. }
    rewrite E1, E2. reflexivity.
Qed.

Lemma same_finding_of_name : forall t1 t2 m1 m2,
  name_of t1 m1 = name_of t2 m2 -> same_finding (issue_of t1 m1) (issue_of t2 m2).
Proof.
  intros t1 t2 m1 m2 E. unfold same_finding, issue_of.
  cbn [table target_type target_name used_fields ambiguous suggested_statement
       suggested_fields note]. rewrite E. repeat split; reflexivity.
Qed.

Lemma issues_left_part : forall X Y l,
  Forall (is_occurrence X) l ->
  Forall2 same_finding
    (map (issue_of (X ++ newline :: Y)) (filter (is_rewritable (X ++ newline :: Y)) l))
    (map (issue_of X) (filter (is_rewritable X) l)).
Proof.
  intros X Y; induction l as [|m l IH]; intro Ho; cbn [filter map]; [constructor|].
  inversion Ho as [|? ? Hm Ho']; subst.
  assert (Er : is_rewritable (X ++ newline :: Y) m = is_rewritable X m)
    by (unfold is_rewritable; now rewrite (protected_left X Y m Hm)).
  rewrite Er. destruct (is_rewritable X m); cbn [map]; [|now apply IH].
  constructor; [|now apply IH].
  apply same_finding_of_name. now apply name_left.
Qed.

Lemma issues_right_part : forall X Y l,
  Forall (is_occurrence Y) l ->
  Forall2 same_finding
    (map (issue_of (X ++ newline :: Y))
         (filter (is_rewritable (X ++ newline :: Y)) (map (shift (S (length X))) l)))
    (map (issue_of Y) (filter (is_rewritable Y) l)).
Proof.
  intros X Y; induction l as [|m l IH]; intro Ho; cbn [filter map]; [constructor|].
  inversion Ho as [|? ? Hm Ho']; subst.
  assert (Er : is_rewritable (X ++ newline :: Y) (shift (S (length X)) m)
               = is_rewritable Y m)
    by (unfold is_rewritable; now rewrite (protected_right X Y m Hm)).
  rewrite Er. destruct (is_rewritable Y m); cbn [map]; [|now apply IH].
  constructor; [|now apply IH].
  apply same_finding_of_name. apply name_right.
Qed.

(** X14. Two parts of a text separated by a newline are remediated
    independently: the remediated text is the remediated first part,
    the newline and the remediated second part, and the issues are
    those of the first part followed by those of the second, the
    snippets apart. *)
Theorem parts_between_newlines_are_remediated_independently : forall now X Y,
  exists oX iX oY iY o i,
    remediate_code now X = Ok (oX, iX)
    /\ remediate_code now Y = Ok (oY, iY)
    /\ remediate_code now (X ++ newline :: Y) = Ok (o, i)
    /\ o = oX ++ newline :: oY
    /\ Forall2 same_finding i (iX ++ iY).
Proof.
  intros now X Y. rewrite !remediate_code_eq. eexists _, _, _, _, _, _.
  split; [reflexivity|]. split; [reflexivity|]. split; [reflexivity|].
  rewrite finditer_two_parts. split.
  - rewrite render_left_part.
    + f_equal. f_equal.
      rewrite <- (render_right_part _ X Y (TABLE_RE_finditer Y) 0)
        by apply finditer_all_occurrences.
      now rewrite Nat.add_0_r.
    + lia.
    + pose proof (finditer_all_occurrences X) as Ho.
      apply Forall_forall. intros m Hm. rewrite Forall_forall in Ho. split; [auto | lia].
    + apply finditer_sorted.
    + apply Forall_forall. intros m Hm. apply in_map_iff in Hm.
      destruct Hm as (x & <- & Hx). apply finditer_occurrence in Hx.
      destruct Hx as (_ & _ & _ & Hlt & _). unfold shift. cbn [m_start m_end]. lia.
  - rewrite filter_app, map_app. apply Forall2_app.
    + apply issues_left_part, finditer_all_occurrences.
    + apply issues_right_part, finditer_all_occurrences.
Qed.

(** ** The reference mappings *)

Lemma dict_get_app : forall (V : Type) (a b : dict V) k,
  dict_get (a ++ b) k
  = match dict_get a k with
    | Some v => Some v
    | None => dict_get b k
    end.
Proof.
  intros V a b k. induction a as [|[k0 v0] a IH]; cbn [app dict_get]; [reflexivity|].
  destruct (str_eqb k0 k); [reflexivity | exact IH].
Qed.

Lemma dict_get_In : forall (V : Type) (d : dict V) k v,
  dict_get d k = Some v -> In (k, v) d.
Proof.
  intros V d k v. induction d as [|[k0 v0] d IH]; cbn [dict_get]; [discriminate|].
  destruct (str_eqb k0 k) eqn:E.
  - intro H. injection H as ->. apply str_eqb_eq in E. subst k0. now left.
  - intro H. right. now apply IH.
Qed.

Lemma In_dict_get : forall (V : Type) (d : dict V) k v,
  NoDup (dict_keys d) -> In (k, v) d -> dict_get d k = Some v.
Proof.
  intros V d k v. induction d as [|[k0 v0] d IH]; intros Hn Hin; [destruct Hin|].
  cbn [dict_keys map fst] in Hn. inversion Hn as [|? ? Hk Hn']; subst.
  cbn [dict_get]. destruct Hin as [E|Hin].
  - injection E as -> ->. now rewrite str_eqb_refl.
  - destruct (str_eqb k0 k) eqn:E.
    + apply str_eqb_eq in E. subst k0. exfalso. apply Hk.
      unfold dict_keys. apply in_map_iff. now exists (k, v).
    + now apply IH.
Qed.

Lemma TABLE_MAP_keys_NoDup : NoDup (dict_keys TABLE_MAP).
Proof.
  assert (E : nodup (list_eq_dec ascii_dec) (dict_keys TABLE_MAP) = dict_keys TABLE_MAP)
    by (vm_compute; reflexivity).
  rewrite <- E. apply NoDup_nodup.
Qed.

(** X15. Merging the five reference mappings overrides nothing: the
    merged map is the five mappings one after the other, no name is a
    key twice, and a name has a value in the merged map exactly when
    it has that value in one of the five. *)
Theorem merging_the_mappings_overrides_nothing :
  TABLE_MAP = CORE_DOC_MAP ++ HYBRID_MAP ++ AGGR_MAP ++ DIMP_MAP ++ HISTORY_MAP
  /\ NoDup (dict_keys TABLE_MAP)
  /\ forall k v,
       dict_get TABLE_MAP k = Some v
       <-> exists P, In P [CORE_DOC_MAP; HYBRID_MAP; AGGR_MAP; DIMP_MAP; HISTORY_MAP]
                     /\ dict_get P k = Some v.
Proof.
  assert (E : TABLE_MAP
              = CORE_DOC_MAP ++ HYBRID_MAP ++ AGGR_MAP ++ DIMP_MAP ++ HISTORY_MAP)
    by (vm_compute; reflexivity).
  split; [exact E|]. split; [exact TABLE_MAP_keys_NoDup|].
  intros k v. split.
  - intro H. rewrite E, !dict_get_app in H.
    destruct (dict_get CORE_DOC_MAP k) eqn:E1; [exists CORE_DOC_MAP; cbn [In]; rewrite E1; auto|].
    destruct (dict_get HYBRID_MAP k) eqn:E2; [exists HYBRID_MAP; cbn [In]; rewrite E2; auto|].
    destruct (dict_get AGGR_MAP k) eqn:E3; [exists AGGR_MAP; cbn [In]; rewrite E3; auto|].
    destruct (dict_get DIMP_MAP k) eqn:E4; [exists DIMP_MAP; cbn [In]; rewrite E4; auto 6|].
    exists HISTORY_MAP. cbn [In]. auto 7.
  - intros (P & HP & Hg). apply In_dict_get; [exact TABLE_MAP_keys_NoDup|].
    apply dict_get_In in Hg. rewrite E. rewrite !in_app_iff.
    cbn [In] in HP. destruct HP as [<-|[<-|[<-|[<-|[<-|[]]]]]]; auto 6.
Qed.

Lemma insert_by_len_sorted : forall x l,
  StronglySorted (fun a b => length b <= length a) l ->
  StronglySorted (fun a b => length b <= length a) (insert_by_len x l).
Proof.
  intros x; induction l as [|y l IH]; intro Hs; cbn [insert_by_len].
  - repeat constructor.
  - inversion Hs as [|? ? Hs' Hy]; subst.
    destruct (length y <=? length x) eqn:E.
    + apply Nat.leb_le in E. constructor; [assumption|].
      constructor; [assumption|].
      eapply Forall_impl; [|exact Hy]. cbn beta. intros z Hz. lia.
    + apply Nat.leb_gt in E. constructor; [now apply IH|].
      apply Forall_forall. intros z Hz. apply insert_by_len_In in Hz.
      destruct Hz as [->|Hz]; [lia|]. rewrite Forall_forall in Hy. now apply Hy.
Qed.

Lemma insert_by_len_filter : forall n x l,
  filter (fun s => length s =? n) (insert_by_len x l)
  = if length x =? n then x :: filter (fun s => length s =? n) l
    else filter (fun s => length s =? n) l.
Proof.
  intros n x; induction l as [|y l IH]; cbn [insert_by_len filter]; [reflexivity|].
  destruct (length y <=? length x) eqn:E; cbn [filter]; [reflexivity|].
  apply Nat.leb_gt in E. rewrite IH.
  destruct (length x =? n) eqn:Ex; [|reflexivity].
  apply Nat.eqb_eq in Ex.
  replace (length y =? n) with false by (symmetry; apply Nat.eqb_neq; lia).
  reflexivity.
Qed.

(** X16. The names are sorted by decreasing length and stably: in the
    sorted list no name is longer than a name before it, and the names
    of one length keep the order they were given in.  For the
    vocabulary, the names of five letters come first and those of four
    letters follow, each group in the order of the merged map. *)
Theorem names_are_sorted_longest_first :
  (forall l,
     StronglySorted (fun a b => length b <= length a) (sorted_by_len_desc l)
     /\ forall n, filter (fun s => length s =? n) (sorted_by_len_desc l)
                  = filter (fun s => length s =? n) l)
  /\ TABLE_NAMES
     = filter (fun s => length s =? 5) (dict_keys TABLE_MAP)
         ++ filter (fun s => length s =? 4) (dict_keys TABLE_MAP).
Proof.
  split; [|vm_compute; reflexivity].
  induction l as [|x l [IH1 IH2]]; cbn [sorted_by_len_desc fold_right].
  - split; [constructor | reflexivity].
  - fold (sorted_by_len_desc l). split.
    + now apply insert_by_len_sorted.
    + intro n. rewrite insert_by_len_filter, IH2. cbn [filter].
      destruct (length x =? n); reflexivity.
Qed.

(** ** The statement rewriter *)

Lemma startswith_app : forall p b, startswith (p ++ b) p = true.
Proof.
  induction p as [|a p IH]; intro b; cbn [app startswith]; [now destruct b|].
  unfold ascii_eqb. rewrite Ascii.eqb_refl. apply IH.
Qed.

Lemma contains_app : forall p a b, contains p (a ++ p ++ b) = true.
Proof.
  intros p; induction a as [|c a IH]; intro b.
  - cbn [app]. destruct (p ++ b) eqn:E; cbn [contains]; rewrite <- E, startswith_app;
      reflexivity.
  - cbn [app contains]. rewrite IH. apply orb_true_r.
Qed.

Lemma contains_order_by : forall a b,
  contains (L "ORDER BY") (upper (a ++ L " ORDER BY " ++ b)) = true.
Proof.
  intros a b. rewrite !upper_app.
  change (upper (L " ORDER BY ")) with ([" "%char] ++ L "ORDER BY" ++ [" "%char]).
  rewrite <- !app_assoc. rewrite (app_assoc (upper a)). apply contains_app.
Qed.

Lemma replacer_fixed : forall r f,
  contains (L "ORDER BY") (upper r) = true -> replacer r f = r.
Proof. intros r f H. unfold replacer. now rewrite H. Qed.

Lemma identifier_ends_in_word : forall w,
  isidentifier w = true -> exists body c, w = body ++ [c] /\ is_word c = true.
Proof.
  intros [|c0 s] H; [discriminate|]. cbn [isidentifier] in H.
  apply andb_true_iff in H. destruct H as [H0 Hs].
  destruct (exists_last (l := c0 :: s) ltac:(discriminate)) as (body & c & E).
  exists body, c. split; [exact E|].
  assert (Hall : forallb is_word (c0 :: s) = true).
  { cbn [forallb]. rewrite Hs, andb_true_r. unfold is_word.
    apply orb_true_iff in H0. destruct H0 as [H0|H0].
    - apply orb_true_iff in H0. destruct H0 as [H0|H0]; rewrite H0;
        rewrite ?orb_true_r; reflexivity.
    - rewrite H0. apply orb_true_r. }
  rewrite E in Hall. rewrite forallb_app in Hall.
  apply andb_true_iff in Hall. destruct Hall as [_ Hc].
  cbn [forallb] in Hc. now rewrite andb_true_r in Hc.
Qed.

Lemma join_ends_in_word : forall sep l,
  l <> [] -> Forall (fun w => isidentifier w = true) l ->
  exists body c, join sep l = body ++ [c] /\ is_word c = true.
Proof.
  intros sep; induction l as [|x l IH]; intros Hne Hl; [congruence|].
  inversion Hl as [|? ? Hx Hl']; subst.
  destruct l as [|y l].
  - cbn [join]. now apply identifier_ends_in_word.
  - destruct (IH ltac:(discriminate) Hl') as (body & c & E & Hc).
    exists (x ++ sep ++ body), c. split; [|exact Hc].
    change (join sep (x :: y :: l)) with (x ++ sep ++ join sep (y :: l)).
    rewrite E, <- !app_assoc. reflexivity.
Qed.

Lemma replacer_form : forall s f,
  replacer s f = s
  \/ (contains (L "ORDER BY") (upper s) = false
      /\ exists cols c,
           replacer s f = rstrip_dots s ++ L " ORDER BY " ++ cols ++ [c; dot]
           /\ is_word c = true).
Proof.
  intros s f. unfold replacer.
  destruct (contains (L "ORDER BY") (upper s)) eqn:Ec; [now left|].
  destruct (str_eqb (strip f) (L "*")).
  - right. split; [reflexivity|]. exists (L "PRIMARY KE"), "Y"%char.
    split; reflexivity.
  - destruct (filter isidentifier (split (strip f))) as [|w l] eqn:Ef; [now left|].
    right. split; [reflexivity|].
    destruct (join_ends_in_word (L " ") (w :: l) ltac:(discriminate)) as (body & c & E & Hc).
    { rewrite <- Ef. apply Forall_forall. intros x Hx. apply filter_In in Hx. tauto. }
    exists body, c. split; [|exact Hc].
    rewrite E, <- !app_assoc. reflexivity.
Qed.


